(** * pydantic-json-helpers: path matching, alias resolution and the indexed walk

    A shallow embedding of the JSON-to-tables engine of this repository
    ([done.py], [final_rendition.py], [spec_based.py]) and the properties its
    specification states about it.

    Conventions of the embedding:
    - a Python [str] is a [string] of 8-bit characters, so the regular
      expression class [\d] is the ten ASCII digits;
    - a JSON document is a [Value]; a Python [dict] that is iterated
      ([obj.items()]) is an association list in insertion order, a [dict]
      that is only read and written by key is a [gmap];
    - Python's [None] is [VNull]: [d.get(k)] on a missing key and a stored
      JSON [null] are the same value, as in the source;
    - exceptions are values of [exn]; a function that can raise returns
      [exn + A]. *)

From Stdlib Require Import Ascii String.
From stdpp Require Import base option list sorting gmap strings pretty.

Set Warnings "-register-all".
Local Open Scope string_scope.
Local Open Scope char_scope.
Local Open Scope list_scope.

(** ** Python string primitives *)
Module Py.

(** [s.split(sep)] for a one-character separator: never the empty list. *)
Fixpoint split (sep : ascii) (s : string) : list string :=
  match s with
  | EmptyString => [EmptyString]
  | String c s' =>
      if Ascii.eqb c sep then EmptyString :: split sep s'
      else match split sep s' with
           | x :: xs => String c x :: xs
           | [] => [String c EmptyString]
           end
  end.

(** [sep.join(l)] *)
Fixpoint join (sep : string) (l : list string) : string :=
  match l with
  | [] => EmptyString
  | [x] => x
  | x :: xs => x +:+ sep +:+ join sep xs
  end.

(** [s.startswith(p)] *)
Fixpoint startswith (p s : string) : bool :=
  match p, s with
  | EmptyString, _ => true
  | String a p', String b s' => Ascii.eqb a b && startswith p' s'
  | String _ _, EmptyString => false
  end.

(** [sub in s] *)
Fixpoint contains (sub s : string) : bool :=
  startswith sub s
  || match s with
     | EmptyString => false
     | String _ s' => contains sub s'
     end.

(** [s.count(c)] for a one-character argument *)
Fixpoint count (c : ascii) (s : string) : nat :=
  match s with
  | EmptyString => 0
  | String d s' => (if Ascii.eqb d c then 1 else 0) + count c s'
  end.

(** [l[:-1]] *)
Definition but_last {A} (l : list A) : list A := removelast l.

(** [str(n)] for a non-negative [int], as in [f"{path}[{index}]"] *)
Definition str (n : nat) : string := pretty n.

(** [d.get(k)] on a dict whose values are of type [V], given [None] *)
Definition get {V} (none : V) (d : gmap string V) (k : string) : V :=
  default none (d !! k).

Definition is_digit (c : ascii) : bool :=
  match c with
  | "0" | "1" | "2" | "3" | "4" | "5" | "6" | "7" | "8" | "9" => true
  | _ => false
  end.

(** The longest run of digits at the head of [s], and what follows it. *)
Fixpoint span_digits (s : string) : string * string :=
  match s with
  | String c s' =>
      if is_digit c then
        let '(ds, r) := span_digits s' in (String c ds, r)
      else (EmptyString, s)
  | EmptyString => (EmptyString, EmptyString)
  end.

(** [re.compile(r"\[(\d+)\]")] tried at the head of [s]: the captured
    group and the text after the match.  [\d+] is greedy and is followed by
    the literal [\]], which is no digit, so the only run of digits that can
    succeed is the longest one. *)
Definition index_at (s : string) : option (string * string) :=
  match s with
  | String "[" s' =>
      match span_digits s' with
      | (String d ds, String "]" r) => Some (String d ds, r)
      | _ => None
      end
  | _ => None
  end.

(** [_index_pattern.search(s)]: the leftmost match; [Some] of [group(1)]. *)
Fixpoint index_search (s : string) : option string :=
  match index_at s with
  | Some (ds, _) => Some ds
  | None =>
      match s with
      | EmptyString => None
      | String _ s' => index_search s'
      end
  end.

(** *** The regular expressions built by [path_matches]

    [re.escape(pattern)] is a regular expression that matches the text of
    [pattern] and nothing else; in it every ["[*]"] of [pattern] reads
    [\[\*\]], and only those places do (an escaped [[] always carries its
    own backslash).  Replacing [\[\*\]] by [\[\d+\]], left to right, gives a
    sequence of literal characters and digit runs. *)
Inductive atom :=
| AChar (c : ascii)   (* an escaped literal character *)
| ADigits.            (* [\d+] *)

Fixpoint escape_replace (pattern : string) : list atom :=
  match pattern with
  | String "[" (String "*" (String "]" rest)) =>
      AChar "[" :: ADigits :: AChar "]" :: escape_replace rest
  | String c rest => AChar c :: escape_replace rest
  | EmptyString => []
  end.

(** [re.fullmatch] on such a sequence, with the backtracking of [\d+]
    written out: after each digit the rest of the expression is tried. *)
Fixpoint fullmatch (r : list atom) (s : string) : bool :=
  match r with
  | [] => match s with EmptyString => true | _ => false end
  | AChar c :: r' =>
      match s with
      | String d s' => Ascii.eqb c d && fullmatch r' s'
      | EmptyString => false
      end
  | ADigits :: r' =>
      (fix digits (t : string) : bool :=
         match t with
         | String d t' => is_digit d && (fullmatch r' t' || digits t')
         | EmptyString => false
         end) s
  end.

End Py.

(** ** Documents, the path index and exceptions *)

(** A JSON value as Python holds it.  The engine never inspects a number, so
    its payload is an integer here. *)
Inductive Value :=
| VNull
| VBool (b : bool)
| VNum (n : Z)
| VStr (s : string)
| VList (items : list Value)
| VDict (items : list (string * Value)).

(** [isinstance(v, (dict, list))] *)
Definition is_container (v : Value) : bool :=
  match v with
  | VList _ | VDict _ => true
  | _ => false
  end.

(** [obj.get(key)] on a dict of the document *)
Fixpoint dict_get (key : string) (items : list (string * Value)) : Value :=
  match items with
  | [] => VNull
  | (k, v) :: items' => if String.eqb k key then v else dict_get key items'
  end.

(** The raw field mapping handed to the validator, in field order. *)
Abbreviation Record := (list (string * Value)).

(** One entry of the error list: [{"path": .., "model": .., "errors": ..}] *)
Record Error (FE : Type) := mkError {
  err_path : string;
  err_model : string;
  err_errors : FE
}.
Arguments mkError {FE}.
Arguments err_path {FE}.
Arguments err_model {FE}.
Arguments err_errors {FE}.

(** The exceptions the engine can raise. *)
Inductive exn (FE : Type) :=
| KeyError (key : string)
| IndexError
| ValueError (msg : string)
| ValueErrorOf (errors : list (Error FE))
| AttributeError (name : string).
Arguments KeyError {FE}.
Arguments IndexError {FE}.
Arguments ValueError {FE}.
Arguments ValueErrorOf {FE}.
Arguments AttributeError {FE}.

Inductive res (X A : Type) :=
| Ok (a : A)
| Raise (e : X).
Arguments Ok {X A}.
Arguments Raise {X A}.

Global Instance res_bind {X} : MBind (res X) := λ A B k m,
  match m with
  | Ok a => k a
  | Raise e => Raise e
  end.

(** [field_info.json_schema_extra]: [None], a dict, or a callable that
    edits the schema. *)
Inductive SchemaExtra :=
| ExtraNone
| ExtraDict (d : list (string * Value))
| ExtraCallable.

(** A pydantic field and a model class, as far as the engine reads them:
    [field_info.alias], and the two places where [spec_based.py] looks for a
    primary-key mark. *)
Record FieldInfo := mkField {
  alias : option string;
  json_schema_extra : SchemaExtra;
  constraint_primary_key : bool    (* "primary_key" in some constraint *)
}.

Record ModelCls := mkModel {
  cls_name : string;                             (* __name__ *)
  model_fields : list (string * FieldInfo)       (* model_fields.items() *)
}.

(** ** The depth-first indexing walk

    [walk] of [done.py] and [_parsing_walk] of [final_rendition.py] are the
    same text; what they call at a mapping node is the variable
    [extract_models_at_path], given the node, its path, the index as it is
    at that moment and the results and errors collected so far. *)
Section Walker.
Context {X A : Type}.
Variable extract_models_at_path :
  list (string * Value) → string → gmap string Value → A → res X A.

Section Loops.
Variable walk : Value → string → gmap string Value → A →
                res X (gmap string Value * A).

(** [for key, value in obj.items(): ...] *)
Fixpoint walk_items (items : list (string * Value)) (path : string)
    (path_index : gmap string Value) (acc : A)
    : res X (gmap string Value * A) :=
  match items with
  | [] => Ok (path_index, acc)
  | (key, value) :: items' =>
      let field_path := path +:+ "." +:+ key in
      let path_index := <[field_path := value]> path_index in
      '(path_index, acc) ←
         (if is_container value then walk value field_path path_index acc
          else Ok (path_index, acc));
      walk_items items' path path_index acc
  end.

(** [for index, item in enumerate(obj): ...] *)
Fixpoint walk_elems (elems : list Value) (index : nat) (path : string)
    (path_index : gmap string Value) (acc : A)
    : res X (gmap string Value * A) :=
  match elems with
  | [] => Ok (path_index, acc)
  | item :: elems' =>
      let item_path := path +:+ "[" +:+ Py.str index +:+ "]" in
      let path_index := <[item_path := item]> path_index in
      '(path_index, acc) ←
         (if is_container item then walk item item_path path_index acc
          else Ok (path_index, acc));
      walk_elems elems' (S index) path path_index acc
  end.
End Loops.

Fixpoint walk (obj : Value) (path : string)
    (path_index : gmap string Value) (acc : A) {struct obj}
    : res X (gmap string Value * A) :=
  let path_index := <[path := obj]> path_index in
  match obj with
  | VDict items =>
      '(path_index, acc) ← walk_items walk items path path_index acc;
      acc ← extract_models_at_path items path path_index acc;
      Ok (path_index, acc)
  | VList elems => walk_elems walk elems 0 path path_index acc
  | _ => Ok (path_index, acc)
  end.
End Walker.

(** ** Pattern matching ([path_matches] of [done.py] and [spec_based.py],
    [_parsing_path_matches] of [final_rendition.py])

    The three are one computation; [done.py] and [final_rendition.py] keep
    the compiled expression in a cache keyed by the pattern, which changes
    nothing in what is returned. *)
Definition path_matches (path pattern : string) : bool :=
  Py.fullmatch (Py.escape_replace pattern) path.

(** ** [done.py] *)
Module Done.

Record ModelSpec := mkSpec {
  model_cls : ModelCls;
  path_pattern : string;
  parent_pattern : option string
}.

(** The [while] loop of [resolve_alias_with_wildcards]: [rest] is
    [current_segments[current_idx:]].  It returns the index text found, if
    any, and [current_idx] as the loop leaves it; the [else] branch of the
    [while] is the [None] result, reached with [current_idx] at the end. *)
Fixpoint scan (key_name : string) (rest : list string) (current_idx : nat)
    : option string * nat :=
  match rest with
  | [] => (None, current_idx)
  | current_seg :: rest' =>
      if Py.startswith (key_name +:+ "[") current_seg then
        match Py.index_search current_seg with
        | Some idx => (Some idx, S current_idx)
        | None => scan key_name rest' (S current_idx)
        end
      else scan key_name rest' (S current_idx)
  end.

(** The body of [for alias_seg in alias_segments]. *)
Definition resolve_step (current_segments : list string)
    (st : list string * nat) (alias_seg : string) : list string * nat :=
  let '(resolved_segments, current_idx) := st in
  if Py.contains "[*]" alias_seg then
    let key_name := hd EmptyString (Py.split "[" alias_seg) in
    match scan key_name (drop current_idx current_segments) current_idx with
    | (Some idx, current_idx) =>
        (resolved_segments ++ [key_name +:+ "[" +:+ idx +:+ "]"], current_idx)
    | (None, current_idx) =>
        (resolved_segments ++ [alias_seg], current_idx)
    end
  else
    (resolved_segments ++ [alias_seg],
     if decide (current_segments !! current_idx = Some alias_seg)
     then S current_idx else current_idx).

Definition resolve_alias_with_wildcards (alias_path current_path : string)
    : string :=
  let alias_segments := Py.split "." alias_path in
  let current_segments := Py.split "." current_path in
  let '(resolved_segments, _) :=
    foldl (resolve_step current_segments) ([], 0) alias_segments in
  Py.join "." resolved_segments.

(** The loop body of [_build_model_data]: a field whose alias is its own
    name, or that has none, is read from the node; any other through the
    index. *)
Definition field_value (obj : list (string * Value)) (path : string)
    (path_index : gmap string Value) (f : string * FieldInfo)
    : string * Value :=
  let '(field_name, field_info) := f in
  match alias field_info with
  | None => (field_name, dict_get field_name obj)
  | Some a =>
      if String.eqb a field_name
      then (field_name, dict_get field_name obj)
      else (field_name,
            Py.get VNull path_index (resolve_alias_with_wildcards a path))
  end.

Definition _build_model_data (obj : list (string * Value)) (path : string)
    (spec : ModelSpec) (path_index : gmap string Value) : Record :=
  map (field_value obj path path_index) (model_fields (model_cls spec)).

Section Index.
Variable _index_path : Value → string → gmap string Value → gmap string Value.

Fixpoint index_items (items : list (string * Value)) (path : string)
    (path_index : gmap string Value) : gmap string Value :=
  match items with
  | [] => path_index
  | (key, value) :: items' =>
      let field_path := path +:+ "." +:+ key in
      let path_index := <[field_path := value]> path_index in
      let path_index :=
        if is_container value then _index_path value field_path path_index
        else path_index in
      index_items items' path path_index
  end.

Fixpoint index_elems (elems : list Value) (index : nat) (path : string)
    (path_index : gmap string Value) : gmap string Value :=
  match elems with
  | [] => path_index
  | item :: elems' =>
      let item_path := path +:+ "[" +:+ Py.str index +:+ "]" in
      let path_index := <[item_path := item]> path_index in
      let path_index :=
        if is_container item then _index_path item item_path path_index
        else path_index in
      index_elems elems' (S index) path path_index
  end.
End Index.

Fixpoint _index_path (obj : Value) (path : string)
    (path_index : gmap string Value) {struct obj} : gmap string Value :=
  let path_index := <[path := obj]> path_index in
  match obj with
  | VDict items => index_items _index_path items path path_index
  | VList elems => index_elems _index_path elems 0 path path_index
  | _ => path_index
  end.

Section Extract.
Context {Row FE : Type}.
(** [spec.model_cls.model_validate(data).model_dump()]: the row, or the
    [e.errors()] of the [ValidationError] it raises. *)
Variable validate : ModelCls → Record → FE + Row.

Definition State : Type := gmap string (list Row) * list (Error FE).

(** The body of [for spec in specs].  [results[spec.path_pattern]] is
    evaluated before the model is validated, so a missing key is a
    [KeyError] that the [except ValidationError] does not catch. *)
Definition extract_one (obj : list (string * Value)) (path : string)
    (path_index : gmap string Value) (st : State) (spec : ModelSpec)
    : res (exn FE) State :=
  let '(results, errors) := st in
  if path_matches path (path_pattern spec) then
    let data := _build_model_data obj path spec path_index in
    match results !! path_pattern spec with
    | None => Raise (KeyError (path_pattern spec))
    | Some rows =>
        match validate (model_cls spec) data with
        | inr row => Ok (<[path_pattern spec := rows ++ [row]]> results, errors)
        | inl e =>
            Ok (results, errors ++ [mkError path (path_pattern spec) e])
        end
    end
  else Ok st.

Fixpoint for_specs (obj : list (string * Value)) (path : string)
    (path_index : gmap string Value) (specs : list ModelSpec) (st : State)
    : res (exn FE) State :=
  match specs with
  | [] => Ok st
  | spec :: specs' =>
      st ← extract_one obj path path_index st spec;
      for_specs obj path path_index specs' st
  end.

Definition _extract_models_at_path (specs : list ModelSpec)
    (obj : list (string * Value)) (path : string)
    (path_index : gmap string Value) (st : State) : res (exn FE) State :=
  for_specs obj path path_index specs st.

(** [{spec.path_pattern: [] for spec in specs}] *)
Definition empty_results (specs : list ModelSpec) : gmap string (list Row) :=
  foldl (λ d spec, <[path_pattern spec := []]> d) ∅ specs.

Definition extract_model_data (json_obj : Value) (specs : list ModelSpec)
    : res (exn FE) (gmap string (list Row) * list (Error FE)) :=
  let results := empty_results specs in
  let errors := [] in
  let path_index := ∅ in
  '(_, (results, errors)) ←
     walk (_extract_models_at_path specs) json_obj "root" path_index
          (results, errors);
  Ok (results, errors).
End Extract.
End Done.

(** ** [final_rendition.py] *)
Module Final.

Record ModelSpec := mkSpec {
  data_model : ModelCls;
  json_path_pattern : string
}.

(** [d[k] = v] on a dict that is iterated later: an existing key keeps its
    place, a new one goes last. *)
Fixpoint dict_set {V} (k : string) (v : V) (d : list (string * V))
    : list (string * V) :=
  match d with
  | [] => [(k, v)]
  | (k', v') :: d' =>
      if String.eqb k' k then (k', v) :: d' else (k', v') :: dict_set k v d'
  end.

(** [max(xs, key=key)]: the first of the largest; [None] on no element
    (Python raises [ValueError]). *)
Definition max_by {T} (key : T → nat) (xs : list T) : option T :=
  match xs with
  | [] => None
  | x :: xs' =>
      Some (foldl (λ best y, if Nat.ltb (key best) (key y) then y else best) x xs')
  end.

(** [min(xs)] on numbers; [None] on no element. *)
Definition min_of (xs : list nat) : option nat :=
  match xs with
  | [] => None
  | x :: xs' => Some (foldl Nat.min x xs')
  end.

(** [".".join(alias.split(".")[:-1])] *)
Definition alias_prefix (a : string) : string :=
  Py.join "." (Py.but_last (Py.split "." a)).

(** [seg.split("[")[0] if "[" in seg else seg] *)
Definition base_of (seg : string) : string :=
  if Py.contains "[" seg then hd EmptyString (Py.split "[" seg) else seg.

Section Compile.
Context {FE : Type}.

(** [[segments[index] for segments in path_segments]] *)
Definition column (index : nat) (path_segments : list (list string))
    : res (exn FE) (list string) :=
  foldr (λ segments acc,
           rest ← acc;
           match segments !! index with
           | Some seg => Ok (seg :: rest)
           | None => Raise IndexError
           end)
        (Ok []) path_segments.

(** [for index in range(min_length)], [n] iterations still to run *)
Fixpoint common_loop (path_segments : list (list string)) (n index : nat)
    (common_segments : list string) : res (exn FE) (list string) :=
  match n with
  | 0 => Ok common_segments
  | S n' =>
      segments_at_position ← column index path_segments;
      match segments_at_position with
      | [] => Raise IndexError
      | first_segment :: _ =>
          let first_base := base_of first_segment in
          if forallb
               (λ seg,
                  if Py.contains "[" seg
                  then String.eqb (hd EmptyString (Py.split "[" seg)) first_base
                  else String.eqb seg first_base)
               segments_at_position
          then common_loop path_segments n' (S index)
                 (common_segments ++ [first_segment])
          else Ok common_segments
      end
  end.

Definition _model_specs_find_deepest_common_path_pattern
    (aliases : list string) : res (exn FE) string :=
  let paths := map alias_prefix aliases in
  let path_segments := map (Py.split ".") paths in
  match min_of (map length path_segments) with
  | None => Raise (ValueError "min() arg is an empty sequence")
  | Some min_length =>
      common_segments ← common_loop path_segments min_length 0 [];
      Ok (match common_segments with
          | [] => "root"%string
          | _ => Py.join "." common_segments
          end)
  end.

Definition _model_specs_find_deepest_wildcard_path
    (aliases : list string) : res (exn FE) string :=
  match max_by (Py.count ".") (map alias_prefix aliases) with
  | None => Raise (ValueError "max() arg is an empty sequence")
  | Some p => Ok p
  end.

(** [for field_name, field_info in model_cls.model_fields.items()] *)
Fixpoint collect_fields (fs : list (string * FieldInfo))
    (fields : list (string * string * bool))
    : res (exn FE) (list (string * string * bool)) :=
  match fs with
  | [] => Ok fields
  | (field_name, field_info) :: fs' =>
      match alias field_info with
      | None =>
          Raise (ValueError ("Alias is required for field " +:+ field_name))
      | Some a =>
          let has_wildcard := Py.contains "[*]" a in
          collect_fields fs' (fields ++ [(field_name, a, has_wildcard)])
      end
  end.

(** What [__init__] builds and never changes afterwards. *)
Record Compiled := mkCompiled {
  model_specs : list (string * ModelSpec);
  model_adapters : gmap string ModelCls;
  model_fields_cache : gmap string (list (string * string * bool))
}.

(** The body of [for model_cls in data_models]. *)
Definition compile_one (c : Compiled) (model_cls : ModelCls)
    : res (exn FE) Compiled :=
  fields ← collect_fields (model_fields model_cls) [];
  let all_aliases := map (λ f, f.1.2) fields in
  let model_name := cls_name model_cls in
  let fields_cache := <[model_name := fields]> (model_fields_cache c) in
  let wildcard_aliases :=
    map (λ f, f.1.2) (filter (λ f, f.2 = true) fields) in
  json_path_pattern ←
    match wildcard_aliases with
    | _ :: _ => _model_specs_find_deepest_wildcard_path wildcard_aliases
    | [] => _model_specs_find_deepest_common_path_pattern all_aliases
    end;
  let spec := mkSpec model_cls json_path_pattern in
  Ok (mkCompiled (dict_set model_name spec (model_specs c))
                 (<[model_name := model_cls]> (model_adapters c))
                 fields_cache).

Fixpoint _model_specs_create_specs_and_adapters (c : Compiled)
    (data_models : list ModelCls) : res (exn FE) Compiled :=
  match data_models with
  | [] => Ok c
  | model_cls :: data_models' =>
      c ← compile_one c model_cls;
      _model_specs_create_specs_and_adapters c data_models'
  end.
End Compile.

(** The [for index in range(current_index, len(current_segments))] loop of
    [_parsing_replace_wildcard_with_index]: [rest] is
    [current_segments[index:]]; [Some] is [found], with the index text and
    the new [current_index]. *)
Fixpoint scan (key_name : string) (rest : list string) (index : nat)
    : option (string * nat) :=
  match rest with
  | [] => None
  | seg :: rest' =>
      if Py.startswith (key_name +:+ "[") seg then
        match Py.index_search seg with
        | Some g => Some (g, S index)
        | None => scan key_name rest' (S index)
        end
      else scan key_name rest' (S index)
  end.

Definition replace_step (current_segments : list string)
    (st : list string * nat) (alias_segment : string) : list string * nat :=
  let '(resolved_segments, current_index) := st in
  if Py.contains "[*]" alias_segment then
    let key_name := hd EmptyString (Py.split "[" alias_segment) in
    match scan key_name (drop current_index current_segments) current_index with
    | Some (g, current_index) =>
        (resolved_segments ++ [key_name +:+ "[" +:+ g +:+ "]"], current_index)
    | None => (resolved_segments ++ [alias_segment], current_index)
    end
  else
    (resolved_segments ++ [alias_segment],
     if decide (current_segments !! current_index = Some alias_segment)
     then S current_index else current_index).

Definition _parsing_replace_wildcard_with_index
    (alias_path current_path : string) : string :=
  let alias_segments := Py.split "." alias_path in
  let current_segments := Py.split "." current_path in
  let '(resolved_segments, _) :=
    foldl (replace_step current_segments) ([], 0) alias_segments in
  Py.join "." resolved_segments.

(** The loop body of [_parsing_build_model_data]. *)
Definition field_value (indexed_cache : gmap string Value) (path : string)
    (f : string * string * bool) : string * Value :=
  let '(field_name, a, has_wildcard) := f in
  let resolved_alias :=
    if has_wildcard then _parsing_replace_wildcard_with_index a path
    else a in
  (field_name, Py.get VNull indexed_cache resolved_alias).

Section Parse.
Context {Row FE : Type}.
(** [TypeAdapter(model_cls).validate_python(data).model_dump()]: the row,
    or the [e.errors()] of the [ValidationError] it raises. *)
Variable validate : ModelCls → Record → FE + Row.

(** The parser object: what [__init__] compiled, and the three
    attributes that parsing writes.  [regex_pattern_cache] is left out
    (see [path_matches]).  [results] is a [defaultdict] only until the
    first statement of [parse] or [parse_batch] after it was made; no
    walk runs on it, so it is a plain dict here. *)
Record JSONParser := mkParser {
  compiled : Compiled;
  results : gmap string (list Row);
  errors : list (Error FE);
  indexed_cache : gmap string Value
}.

Definition State : Type := gmap string (list Row) * list (Error FE).

(** An exception that leaves the walk, with the object's attributes as
    they are at that moment. *)
Definition Abort : Type := exn FE * (gmap string Value * State).

Definition __init__ (data_models : list ModelCls)
    : res (exn FE) JSONParser :=
  c ← _model_specs_create_specs_and_adapters (mkCompiled [] ∅ ∅) data_models;
  Ok (mkParser c ∅ [] ∅).

Definition clear_index_cache (self : JSONParser) : JSONParser :=
  mkParser (compiled self) (results self) (errors self) ∅.

Definition clear_batch_results (self : JSONParser) : JSONParser :=
  mkParser (compiled self) ∅ (errors self) (indexed_cache self).

Definition _parsing_build_model_data (c : Compiled)
    (indexed_cache : gmap string Value) (path : string) (spec : ModelSpec)
    : res (exn FE) Record :=
  let model_name := cls_name (data_model spec) in
  match model_fields_cache c !! model_name with
  | None => Raise (KeyError model_name)
  | Some fields => Ok (map (field_value indexed_cache path) fields)
  end.

(** The body of [for model_name, spec in self.model_specs.items()]. *)
Definition extract_one (c : Compiled) (path : string)
    (indexed_cache : gmap string Value) (st : State)
    (entry : string * ModelSpec) : res (exn FE) State :=
  let '(model_name, spec) := entry in
  let '(results, errors) := st in
  if path_matches path (json_path_pattern spec) then
    data ← _parsing_build_model_data c indexed_cache path spec;
    match model_adapters c !! model_name with
    | None => Raise (KeyError model_name)
    | Some adapter =>
        match results !! model_name with
        | None => Raise (KeyError model_name)
        | Some rows =>
            match validate adapter data with
            | inr row => Ok (<[model_name := rows ++ [row]]> results, errors)
            | inl e => Ok (results, errors ++ [mkError path model_name e])
            end
        end
    end
  else Ok st.

Fixpoint for_specs (c : Compiled) (path : string)
    (indexed_cache : gmap string Value)
    (entries : list (string * ModelSpec)) (st : State) : res Abort State :=
  match entries with
  | [] => Ok st
  | entry :: entries' =>
      match extract_one c path indexed_cache st entry with
      | Raise e => Raise (e, (indexed_cache, st))
      | Ok st => for_specs c path indexed_cache entries' st
      end
  end.

Definition _parsing_extract_models_at_path (c : Compiled)
    (obj : list (string * Value)) (path : string)
    (indexed_cache : gmap string Value) (st : State) : res Abort State :=
  for_specs c path indexed_cache (model_specs c) st.

(** [self._parsing_walk(obj)]: the attributes after the call, and the
    exception if one left it. *)
Definition _parsing_walk (self : JSONParser) (obj : Value)
    : JSONParser * option (exn FE) :=
  match walk (_parsing_extract_models_at_path (compiled self)) obj "root"
             (indexed_cache self) (results self, errors self) with
  | Ok (indexed_cache, (results, errors)) =>
      (mkParser (compiled self) results errors indexed_cache, None)
  | Raise (e, (indexed_cache, (results, errors))) =>
      (mkParser (compiled self) results errors indexed_cache, Some e)
  end.

(** [{model_name: [] for model_name in self.model_specs.keys()}] *)
Definition empty_results (c : Compiled) : gmap string (list Row) :=
  foldl (λ d entry, <[entry.1 := []]> d) ∅ (model_specs c).

(** [parse]: the parser after the call, and what the call returned or
    raised. *)
Definition parse (self : JSONParser) (json_obj : Value)
    : JSONParser * res (exn FE) (gmap string (list Row)) :=
  let self := clear_index_cache self in
  let self := mkParser (compiled self) (empty_results (compiled self))
                       (errors self) (indexed_cache self) in
  match _parsing_walk self json_obj with
  | (self, Some e) => (self, Raise e)
  | (self, None) =>
      match errors self with
      | _ :: _ => (self, Raise (ValueErrorOf (errors self)))
      | [] => (self, Ok (results self))
      end
  end.

(** [for json_obj in json_objs: self._parsing_walk(json_obj)] *)
Fixpoint batch_loop (self : JSONParser) (json_objs : list Value)
    : JSONParser * option (exn FE) :=
  match json_objs with
  | [] => (self, None)
  | json_obj :: json_objs' =>
      match _parsing_walk self json_obj with
      | (self, Some e) => (self, Some e)
      | (self, None) => batch_loop self json_objs'
      end
  end.

Definition parse_batch (self : JSONParser) (json_objs : list Value)
    : JSONParser * res (exn FE) (gmap string (list Row)) :=
  let self := clear_batch_results self in
  let self := mkParser (compiled self) (empty_results (compiled self))
                       (errors self) (indexed_cache self) in
  match batch_loop self json_objs with
  | (self, Some e) => (self, Raise e)
  | (self, None) => (self, Ok (results self))
  end.
End Parse.
End Final.

(** ** [spec_based.py]: the earlier spec inference *)
Module SpecBased.

Record ModelSpec := mkSpec {
  model_cls : ModelCls;
  path_pattern : string;
  parent_pattern : option string
}.

(** [s.endswith(suffix)] *)
Definition endswith (suffix s : string) : bool :=
  Py.startswith (String.rev suffix) (String.rev s).

(** Truth of a [str]: it is not empty. *)
Definition truthy (s : string) : bool :=
  match s with EmptyString => false | _ => true end.

Section Infer.
Context {FE : Type}.

(** [_find_common_path_pattern] *)
Definition _find_common_path_pattern (aliases : list string)
    : res (exn FE) string :=
  match aliases with
  | [] => Ok "root"%string
  | _ =>
      let alias_segments := map (Py.split ".") aliases in
      match Final.min_of (map length alias_segments) with
      | None => Raise (ValueError "min() arg is an empty sequence")
      | Some min_length =>
          common_segments ←
            Final.common_loop alias_segments min_length 0 [];
          Ok (match common_segments with
              | [] => "root"%string
              | _ => Py.join "." common_segments
              end)
      end
  end.

(** [for depth in sorted(paths_by_depth.keys(), reverse=True)] *)
Fixpoint deepest_loop (paths_by_depth : gmap nat (list string))
    (depths : list nat) : res (exn FE) string :=
  match depths with
  | [] => Ok "root"%string
  | depth :: depths' =>
      match paths_by_depth !! depth with
      | None => Raise (KeyError (Py.str depth))
      | Some paths =>
          common ← _find_common_path_pattern paths;
          if truthy common && negb (String.eqb common "root")
          then Ok common
          else deepest_loop paths_by_depth depths'
      end
  end.

Definition _find_deepest_common_path (aliases : list string)
    : res (exn FE) string :=
  match aliases with
  | [] => Ok "root"%string
  | _ =>
      let paths_by_depth : gmap nat (list string) :=
        foldl (λ d a,
                 let path := Final.alias_prefix a in
                 let depth := Py.count "." path in
                 <[depth := default [] (d !! depth) ++ [path]]> d)
              ∅ aliases in
      deepest_loop paths_by_depth
        (reverse (merge_sort Nat.le (elements (dom paths_by_depth))))
  end.

(** [min(paths, key=lambda p: p.count("."))]: the first of the smallest *)
Definition _find_shallowest_path (aliases : list string) : string :=
  match map Final.alias_prefix aliases with
  | [] => "root"%string
  | p :: ps =>
      foldl (λ best q,
               if Nat.ltb (Py.count "." q) (Py.count "." best)
               then q else best) p ps
  end.

Definition _get_parent_path (path : string) : option string :=
  let segments := Py.split "." path in
  if Nat.leb (length segments) 1 then None
  else Some (Py.join "." (Py.but_last segments)).

(** The three lists the field loop of [infer_model_specs] builds. *)
Record Scan := mkScan {
  pk_alias : option string;
  all_aliases : list string;
  fk_aliases : list string
}.

(** Truth of a value of the document. *)
Definition truthy_value (v : Value) : bool :=
  match v with
  | VNull => false
  | VBool b => b
  | VNum n => negb (Z.eqb n 0)
  | VStr s => truthy s
  | VList l => match l with [] => false | _ => true end
  | VDict d => match d with [] => false | _ => true end
  end.

(** [field_info.json_schema_extra and
    field_info.json_schema_extra.get("primary_key")], as a truth value.  An
    empty dict is false before [get] is reached; a callable is true and has
    no [get]. *)
Definition extra_primary_key (field_info : FieldInfo) : res (exn FE) bool :=
  match json_schema_extra field_info with
  | ExtraNone => Ok false
  | ExtraDict [] => Ok false
  | ExtraDict d => Ok (truthy_value (dict_get "primary_key" d))
  | ExtraCallable => Raise (AttributeError "get")
  end.

(** The body of [for field_name, field_info in ...model_fields.items()]. *)
Definition scan_field (sc : Scan) (f : string * FieldInfo)
    : res (exn FE) Scan :=
  let '(field_name, field_info) := f in
  match alias field_info with
  | Some a =>
      if truthy a && negb (String.eqb a field_name) then
        marked ←
          (if String.eqb field_name "id" then Ok true
           else if endswith "_id" field_name
                then extra_primary_key field_info
                else Ok false);
        let is_pk := marked || constraint_primary_key field_info in
        let no_pk :=
          match pk_alias sc with
          | Some p => negb (truthy p)
          | None => true
          end in
        Ok (mkScan
              (if is_pk
                  || no_pk && (String.eqb field_name "id"
                               || String.eqb field_name "tx_id")
               then Some a else pk_alias sc)
              (all_aliases sc ++ [a])
              (if endswith "_id" field_name && negb is_pk
               then fk_aliases sc ++ [a] else fk_aliases sc))
      else Ok sc
  | None => Ok sc
  end.

Fixpoint scan_fields (sc : Scan) (fs : list (string * FieldInfo))
    : res (exn FE) Scan :=
  match fs with
  | [] => Ok sc
  | f :: fs' =>
      sc ← scan_field sc f;
      scan_fields sc fs'
  end.

Definition infer_one (model_cls : ModelCls) : res (exn FE) ModelSpec :=
  sc ← scan_fields (mkScan None [] []) (model_fields model_cls);
  path_pattern ←
    match pk_alias sc with
    | Some pk =>
        if truthy pk then
          let path_segments := Py.split "." pk in
          Ok (if Nat.ltb 1 (length path_segments)
              then Py.join "." (Py.but_last path_segments)
              else "root"%string)
        else
          match all_aliases sc with
          | [] => Ok "root"%string
          | _ => _find_deepest_common_path (all_aliases sc)
          end
    | None =>
        match all_aliases sc with
        | [] => Ok "root"%string
        | _ => _find_deepest_common_path (all_aliases sc)
        end
    end;
  let parent_pattern :=
    match fk_aliases sc with
    | [] => None
    | _ =>
        let parent := _find_shallowest_path (fk_aliases sc) in
        if String.eqb parent path_pattern
        then _get_parent_path path_pattern
        else Some parent
    end in
  Ok (mkSpec model_cls path_pattern parent_pattern).

(** [table_models] is a dict from table name to model class; the name is
    not read. *)
Fixpoint infer_model_specs (table_models : list (string * ModelCls))
    : res (exn FE) (list ModelSpec) :=
  match table_models with
  | [] => Ok []
  | (_, model_cls) :: table_models' =>
      spec ← infer_one model_cls;
      specs ← infer_model_specs table_models';
      Ok (spec :: specs)
  end.
End Infer.
End SpecBased.

(** * The specification's wording

    Definitions written after the words of the specification, to compare
    with the code above. *)
Module Spec.

Fixpoint all_digits (s : string) : bool :=
  match s with
  | EmptyString => true
  | String c s' => Py.is_digit c && all_digits s'
  end.

(** "after replacing every [[idx]] with [[*]]": every bracketed run of
    digits of the path becomes a wildcard.  [fuel] bounds the characters
    still to read. *)
Fixpoint wildcard_indices_go (fuel : nat) (path : string) : string :=
  match fuel with
  | 0 => path
  | S fuel' =>
      match Py.index_at path with
      | Some (_, rest) => "[*]" +:+ wildcard_indices_go fuel' rest
      | None =>
          match path with
          | EmptyString => EmptyString
          | String c rest => String c (wildcard_indices_go fuel' rest)
          end
      end
  end.

Definition wildcard_indices (path : string) : string :=
  wildcard_indices_go (String.length path) path.

(** A pattern read left to right against a path: a wildcard stands for one
    bracketed, non-empty run of digits, every other character for
    itself. *)
Inductive instantiates : string → string → Prop :=
| inst_end : instantiates "" ""
| inst_wildcard (ds path pattern : string) :
    ds ≠ EmptyString →
    all_digits ds = true →
    instantiates path pattern →
    instantiates (String "[" (ds +:+ String "]" path))
                 (String "[" (String "*" (String "]" pattern)))
| inst_literal (c : ascii) (path pattern : string) :
    Py.startswith "[*]" (String c pattern) = false →
    instantiates path pattern →
    instantiates (String c path) (String c pattern).

(** *** Paths and their segments *)

(** The text of a run of array indices: ["[3][0]"]. *)
Fixpoint indices (ns : list nat) : string :=
  match ns with
  | [] => EmptyString
  | n :: ns' => "[" +:+ Py.str n +:+ "]" +:+ indices ns'
  end.

(** A segment of a concrete path: a key without a bracket, then the
    indices of the arrays entered under it. *)
Definition concrete_segment (seg : string) : Prop :=
  ∃ key ns, Py.contains "[" key = false ∧ seg = key +:+ indices ns.

(** "a segment whose key-base equals [key]", carrying the index [n] *)
Definition indexed_under (key : string) (n : nat) (seg : string) : Prop :=
  ∃ ns, seg = key +:+ indices (n :: ns).

(** A segment of an alias: a literal one, or a wildcard [key[*]]. *)
Definition alias_segment (seg : string) : Prop :=
  Py.contains "[*]" seg = false
  ∨ ∃ key, Py.contains "[" key = false ∧ seg = key +:+ "[*]".

(** *** Alias resolution, after section 4.3

    [resolves cur i alias out]: with the cursor at [i] in the current
    path [cur], the alias segments [alias] resolve to [out].  The
    specification does not say where the cursor is after a scan that found
    nothing; any place at or after where it was is allowed. *)
Inductive resolves (cur : list string) : nat → list string → list string → Prop :=
| resolves_end i : resolves cur i [] []
| resolves_literal_advance i seg rest out :
    Py.contains "[*]" seg = false →
    cur !! i = Some seg →
    resolves cur (S i) rest out →
    resolves cur i (seg :: rest) (seg :: out)
| resolves_literal_stay i seg rest out :
    Py.contains "[*]" seg = false →
    cur !! i ≠ Some seg →
    resolves cur i rest out →
    resolves cur i (seg :: rest) (seg :: out)
| resolves_wildcard i j key n seg rest out :
    Py.contains "[" key = false →
    (i ≤ j)%nat →
    cur !! j = Some seg →
    indexed_under key n seg →
    (∀ j' seg' n', (i ≤ j' < j)%nat → cur !! j' = Some seg' →
                   ¬ indexed_under key n' seg') →
    resolves cur (S j) rest out →
    resolves cur i ((key +:+ "[*]") :: rest)
                   ((key +:+ "[" +:+ Py.str n +:+ "]") :: out)
| resolves_unresolved i i' key rest out :
    Py.contains "[" key = false →
    (∀ j seg n, (i ≤ j)%nat → cur !! j = Some seg → ¬ indexed_under key n seg) →
    (i ≤ i')%nat →
    resolves cur i' rest out →
    resolves cur i ((key +:+ "[*]") :: rest) ((key +:+ "[*]") :: out).

(** *** Places in a document *)

Inductive step :=
| SKey (key : string)
| SIdx (index : nat).

(** What one step adds to a path: [f"{path}.{key}"], [f"{path}[{index}]"] *)
Definition render_step (s : step) : string :=
  match s with
  | SKey key => "." +:+ key
  | SIdx index => "[" +:+ Py.str index +:+ "]"
  end.

Fixpoint render (steps : list step) : string :=
  match steps with
  | [] => EmptyString
  | s :: steps' => render_step s +:+ render steps'
  end.

(** [at_loc doc steps v]: following [steps] from [doc] leads to [v]. *)
Inductive at_loc : Value → list step → Value → Prop :=
| at_here v : at_loc v [] v
| at_key items key child steps v :
    (key, child) ∈ items →
    at_loc child steps v →
    at_loc (VDict items) (SKey key :: steps) v
| at_index elems index child steps v :
    elems !! index = Some child →
    at_loc child steps v →
    at_loc (VList elems) (SIdx index :: steps) v.

(** Every key of every mapping of the document satisfies [p]. *)
Fixpoint all_keys (p : string → bool) (v : Value) : bool :=
  match v with
  | VDict items =>
      forallb (λ kv, p kv.1 && all_keys p kv.2) items
  | VList elems => forallb (all_keys p) elems
  | _ => true
  end.

(** A key that no path syntax occurs in: neither [.] nor [[]. *)
Definition plain (key : string) : bool :=
  negb (Py.contains "." key) && negb (Py.contains "[" key).

(** A key without [*]. *)
Definition no_star (key : string) : bool := negb (Py.contains "*" key).

(** The keys of a mapping are distinct, at every mapping of the
    document (what a Python dict is). *)
Fixpoint distinct_keys (v : Value) : Prop :=
  match v with
  | VDict items =>
      NoDup (map fst items) ∧
      (fix all (l : list (string * Value)) : Prop :=
         match l with
         | [] => True
         | kv :: l' => distinct_keys kv.2 ∧ all l'
         end) items
  | VList elems =>
      (fix all (l : list Value) : Prop :=
         match l with
         | [] => True
         | e :: l' => distinct_keys e ∧ all l'
         end) elems
  | _ => True
  end.

(** *** The attachment pattern, after section 4.1 *)

(** The array-key base name of a segment: its text before the first [[]. *)
Definition key_base (seg : string) : string :=
  hd EmptyString (Py.split "[" seg).

(** At position [j] every one of the segment lists has a segment, and all
    of these have the base name of the first list's. *)
Definition agree_at (paths : list (list string)) (j : nat) : Prop :=
  ∃ first_seg,
    (head paths ≫= (.!! j)) = Some first_seg ∧
    ∀ segs, segs ∈ paths →
      ∃ seg, segs !! j = Some seg ∧ key_base seg = key_base first_seg.

(** [common] is the deepest common prefix of the segment lists: segments of
    the first list, as long as all lists agree, and no further. *)
Definition deepest_common_prefix (paths : list (list string))
    (common : list string) : Prop :=
  (∃ first, head paths = Some first ∧ common = take (length common) first) ∧
  (∀ j, (j < length common)%nat → agree_at paths j) ∧
  ¬ agree_at paths (length common).

End Spec.

(** * The extraction attempts of a walk

    What a walk asks of [extract_models_at_path], in order: the mapping
    node, its path, and the index as it is at that moment.  [walk_replay]
    below shows that a walk is its indexing followed by these calls. *)
Module Trace.

Definition event : Type := list (string * Value) * string * gmap string Value.

Section Loops.
Variable events : Value → string → gmap string Value → list event.

Fixpoint events_items (items : list (string * Value)) (path : string)
    (path_index : gmap string Value) : list event :=
  match items with
  | [] => []
  | (key, value) :: items' =>
      let field_path := path +:+ "." +:+ key in
      let path_index := <[field_path := value]> path_index in
      if is_container value then
        events value field_path path_index
        ++ events_items items' path
             (Done._index_path value field_path path_index)
      else events_items items' path path_index
  end.

Fixpoint events_elems (elems : list Value) (index : nat) (path : string)
    (path_index : gmap string Value) : list event :=
  match elems with
  | [] => []
  | item :: elems' =>
      let item_path := path +:+ "[" +:+ Py.str index +:+ "]" in
      let path_index := <[item_path := item]> path_index in
      if is_container item then
        events item item_path path_index
        ++ events_elems elems' (S index) path
             (Done._index_path item item_path path_index)
      else events_elems elems' (S index) path path_index
  end.
End Loops.

Fixpoint events (obj : Value) (path : string)
    (path_index : gmap string Value) {struct obj} : list event :=
  let path_index := <[path := obj]> path_index in
  match obj with
  | VDict items =>
      events_items events items path path_index
      ++ [(items, path,
           Done.index_items Done._index_path items path path_index)]
  | VList elems => events_elems events elems 0 path path_index
  | _ => []
  end.

(** The calls, one after the other. *)
Fixpoint replay {X A}
    (extract : list (string * Value) → string → gmap string Value → A → res X A)
    (evs : list event) (acc : A) : res X A :=
  match evs with
  | [] => Ok acc
  | (items, path, path_index) :: evs' =>
      acc ← extract items path path_index acc;
      replay extract evs' acc
  end.

(** The index after the documents of a batch were walked one after the
    other under the path ["root"], each on the index the one before left;
    and the attempts of those walks. *)
Fixpoint index_batch (docs : list Value) (path_index : gmap string Value)
    : gmap string Value :=
  match docs with
  | [] => path_index
  | doc :: docs' => index_batch docs' (Done._index_path doc "root" path_index)
  end.

Fixpoint events_batch (docs : list Value) (path_index : gmap string Value)
    : list event :=
  match docs with
  | [] => []
  | doc :: docs' =>
      events doc "root" path_index
      ++ events_batch docs' (Done._index_path doc "root" path_index)
  end.

End Trace.

(** * Sample schemas, documents and a validator

    The three tables of [models.py], documents shaped like
    [json_examples/nestedjson.py], and a validator that requires every field
    to be present. *)
Module Sample.

Definition field (a : string) : FieldInfo := mkField (Some a) ExtraNone false.

Definition Invoice : ModelCls :=
  mkModel "Invoice"
    [("id", field "root.id");
     ("total_amount", field "root.total_amount");
     ("latitude", field "root.geo.latitude");
     ("longitude", field "root.geo.longitude")]%string.

Definition InvoiceItem : ModelCls :=
  mkModel "InvoiceItem"
    [("invoice_id", field "root.id");
     ("id", field "root.invoice_items[*].id");
     ("sku", field "root.invoice_items[*].sku")]%string.

Definition InvoiceItemTransaction : ModelCls :=
  mkModel "InvoiceItemTransaction"
    [("tx_id", field "root.invoice_items[*].transactions[*].tx_id");
     ("invoice_item_id", field "root.invoice_items[*].id");
     ("invoice_id", field "root.id");
     ("amount", field "root.invoice_items[*].transactions[*].amount")]%string.

Definition is_null (v : Value) : bool :=
  match v with VNull => true | _ => false end.

(** A row is the record itself; the errors are the names of the fields
    that are absent. *)
Definition validate (m : ModelCls) (data : Record) : list string + Record :=
  match filter (λ kv, is_null kv.2 = true) data with
  | [] => inr data
  | missing => inl (map fst missing)
  end.

Definition invoice : Value :=
  VDict [("id", VStr "INV-1"); ("total_amount", VNum 10);
         ("geo", VDict [("latitude", VNum 1); ("longitude", VNum 2)]);
         ("invoice_items",
          VList [VDict [("id", VStr "A"); ("sku", VStr "s1");
                        ("transactions",
                         VList [VDict [("tx_id", VStr "t1"); ("amount", VNum 5)];
                                VDict [("tx_id", VStr "t2")]])];
                 VDict [("id", VStr "B"); ("sku", VStr "s2");
                        ("transactions",
                         VList [VDict [("tx_id", VStr "t3");
                                       ("amount", VNum 7)]])]])]%string.

(** An invoice with nothing wrong in it. *)
Definition good_invoice : Value :=
  VDict [("id", VStr "INV-2"); ("total_amount", VNum 3);
         ("geo", VDict [("latitude", VNum 1); ("longitude", VNum 2)])]%string.

(** A document without [total_amount] and [geo]. *)
Definition bare_invoice : Value :=
  VDict [("id", VStr "INV-3")]%string.

Definition small : Value :=
  VDict [("a", VList [VNum 0; VDict [("b", VNum 1)]])]%string.

(** A document with a key that reads like a path. *)
Definition collision : Value :=
  VDict [("a", VList [VNum 0; VNum 0; VNum 0; VDict [("b", VNum 1)]]);
         ("a[3].b", VNum 2)]%string.

(** A document with a key that reads like a wildcard segment. *)
Definition starred : Value :=
  VDict [("c[*]", VDict [("y", VNum 7)]);
         ("a", VList [VDict [("x", VNum 1)]])]%string.

(** A table with a key at the root and one field under an array. *)
Definition Tagged : ModelCls :=
  mkModel "Tagged"
    [("id", field "root.id"); ("tag", field "root.items[*].tag")]%string.

(** A table without fields, and one with a field without alias. *)
Definition Empty : ModelCls := mkModel "Empty" [].

Definition Unaliased : ModelCls :=
  mkModel "Unaliased"
    [("id", field "root.id"); ("note", mkField None ExtraNone false)]%string.

End Sample.

(** * The records of a walk

    The records a walk assembles, one for each mapping node and each table
    whose pattern matches the node's path, in the order of the walk; and what
    the validator makes of each.  Nothing here depends on what the validator
    answered for another record. *)
Module Outcome.

Section OfDone.
Context {Row FE : Type}.
Variable validate : ModelCls → Record → FE + Row.

(** A record: the path it was assembled at, its table, its fields. *)
Definition attempt : Type := string * Done.ModelSpec * Record.

Definition attempt_of (ev : Trace.event) (spec : Done.ModelSpec)
    : option attempt :=
  if path_matches ev.1.2 (Done.path_pattern spec)
  then Some (ev.1.2, spec, Done._build_model_data ev.1.1 ev.1.2 spec ev.2)
  else None.

Definition attempts_at (specs : list Done.ModelSpec) (ev : Trace.event)
    : list attempt :=
  omap (attempt_of ev) specs.

Definition attempts (specs : list Done.ModelSpec) (evs : list Trace.event)
    : list attempt :=
  evs ≫= attempts_at specs.

Definition error_of (a : attempt) : option (Error FE) :=
  match validate (Done.model_cls a.1.2) a.2 with
  | inl e => Some (mkError a.1.1 (Done.path_pattern a.1.2) e)
  | inr _ => None
  end.

Definition row_of (table : string) (a : attempt) : option Row :=
  if decide (Done.path_pattern a.1.2 = table) then
    match validate (Done.model_cls a.1.2) a.2 with
    | inr row => Some row
    | inl _ => None
    end
  else None.
End OfDone.

Section OfFinal.
Context {Row FE : Type}.
Variable validate : ModelCls → Record → FE + Row.

(** A record: the path it was assembled at, the name of its table, the
    class its adapter validates against, its fields. *)
Definition fattempt : Type := string * string * ModelCls * Record.

Definition fattempt_of (c : Final.Compiled) (ev : Trace.event)
    (entry : string * Final.ModelSpec) : option fattempt :=
  if path_matches ev.1.2 (Final.json_path_pattern entry.2) then
    fields ← Final.model_fields_cache c
               !! cls_name (Final.data_model entry.2);
    adapter ← Final.model_adapters c !! entry.1;
    Some (ev.1.2, entry.1, adapter,
          map (Final.field_value ev.2 ev.1.2) fields)
  else None.

Definition fattempts_at (c : Final.Compiled) (ev : Trace.event)
    : list fattempt :=
  omap (fattempt_of c ev) (Final.model_specs c).

Definition fattempts (c : Final.Compiled) (evs : list Trace.event)
    : list fattempt :=
  evs ≫= fattempts_at c.

Definition ferror_of (a : fattempt) : option (Error FE) :=
  match validate a.1.2 a.2 with
  | inl e => Some (mkError a.1.1.1 a.1.1.2 e)
  | inr _ => None
  end.

Definition frow_of (table : string) (a : fattempt) : option Row :=
  if decide (a.1.1.2 = table) then
    match validate a.1.2 a.2 with
    | inr row => Some row
    | inl _ => None
    end
  else None.
End OfFinal.

(** What [__init__] leaves in the parser: under each table name the spec,
    the adapter and the field list of one and the same class, the spec's
    pattern being the one computed from that class's fields. *)
Definition pattern_of {FE} (fields : list (string * string * bool))
    : res (exn FE) string :=
  match map (λ f, f.1.2) (filter (λ f, f.2 = true) fields) with
  | a :: wildcard_aliases =>
      Final._model_specs_find_deepest_wildcard_path (a :: wildcard_aliases)
  | [] =>
      Final._model_specs_find_deepest_common_path_pattern
        (map (λ f, f.1.2) fields)
  end.

Definition compiled_ok (FE : Type) (c : Final.Compiled) : Prop :=
  NoDup (Final.model_specs c).*1 ∧
  ∀ name spec, (name, spec) ∈ Final.model_specs c →
    name = cls_name (Final.data_model spec) ∧
    Final.model_adapters c !! name = Some (Final.data_model spec) ∧
    ∃ fields,
      Final.collect_fields (FE:=FE) (model_fields (Final.data_model spec)) []
        = Ok fields ∧
      Final.model_fields_cache c !! name = Some fields ∧
      pattern_of (FE:=FE) fields = Ok (Final.json_path_pattern spec).

End Outcome.

(** * Properties *)

Local Open Scope string_scope.
Local Open Scope list_scope.

(** ** Strings *)

Lemma app_nil_l_s (s : string) : "" +:+ s = s.
Proof. reflexivity. Qed.

Lemma app_cons_s (c : ascii) (s t : string) :
  String c s +:+ t = String c (s +:+ t).
Proof. reflexivity. Qed.

Lemma app_nil_r_s (s : string) : s +:+ "" = s.
Proof. induction s as [|c s IH]; [done|]. by rewrite app_cons_s, IH. Qed.

Lemma app_assoc_s (s t u : string) : (s +:+ t) +:+ u = s +:+ (t +:+ u).
Proof.
  induction s as [|c s IH]; [done|]. by rewrite !app_cons_s, IH.
Qed.

Lemma split_nonempty (sep : ascii) (s : string) : Py.split sep s ≠ [].
Proof.
  destruct s as [|c s]; simpl; [done|].
  destruct (Ascii.eqb c sep); [done|]. by destruct (Py.split sep s).
Qed.

Lemma join_cons (sep x : string) (l : list string) :
  l ≠ [] → Py.join sep (x :: l) = x +:+ sep +:+ Py.join sep l.
Proof. by destruct l. Qed.

(** Joining what was split gives the string back. *)
Lemma join_split (sep : ascii) (s : string) :
  Py.join (String sep "") (Py.split sep s) = s.
Proof.
  induction s as [|c s IH]; simpl; [done|].
  destruct (Ascii.eqb_spec c sep) as [->|Hne].
  - rewrite join_cons by apply split_nonempty. by rewrite IH.
  - pose proof (split_nonempty sep s) as Hs.
    destruct (Py.split sep s) as [|x xs]; [done|].
    destruct xs as [|y ys]; simpl in *; [by rewrite IH|].
    by rewrite app_cons_s, IH.
Qed.

(** ** Alias resolution on aliases without a wildcard *)

Lemma done_resolve_literal (cur : list string) (segs res : list string) (i : nat) :
  Forall (λ seg, Py.contains "[*]" seg = false) segs →
  (foldl (Done.resolve_step cur) (res, i) segs).1 = res ++ segs.
Proof.
  intros H. revert res i.
  induction H as [|seg segs Hseg _ IH]; intros res i; simpl.
  - by rewrite app_nil_r.
  - rewrite Hseg, IH. by rewrite <-app_assoc.
Qed.

Lemma final_resolve_literal (cur : list string) (segs res : list string) (i : nat) :
  Forall (λ seg, Py.contains "[*]" seg = false) segs →
  (foldl (Final.replace_step cur) (res, i) segs).1 = res ++ segs.
Proof.
  intros H. revert res i.
  induction H as [|seg segs Hseg _ IH]; intros res i; simpl.
  - by rewrite app_nil_r.
  - rewrite Hseg, IH. by rewrite <-app_assoc.
Qed.

Lemma done_resolve_id (a current_path : string) :
  Forall (λ seg, Py.contains "[*]" seg = false) (Py.split "." a) →
  Done.resolve_alias_with_wildcards a current_path = a.
Proof.
  intros H. unfold Done.resolve_alias_with_wildcards.
  pose proof (done_resolve_literal (Py.split "." current_path) _ [] 0 H) as E.
  destruct (foldl _ _ _) as [r j]. simpl in E. subst r.
  apply (join_split ".").
Qed.

Lemma final_resolve_id (a current_path : string) :
  Forall (λ seg, Py.contains "[*]" seg = false) (Py.split "." a) →
  Final._parsing_replace_wildcard_with_index a current_path = a.
Proof.
  intros H. unfold Final._parsing_replace_wildcard_with_index.
  pose proof (final_resolve_literal (Py.split "." current_path) _ [] 0 H) as E.
  destruct (foldl _ _ _) as [r j]. simpl in E. subst r.
  apply (join_split ".").
Qed.


(** ** Pattern matching *)

Lemma is_digit_not_bracket (c : ascii) :
  Py.is_digit c = true → c ≠ "["%char ∧ c ≠ "]"%char ∧ c ≠ "*"%char.
Proof. intros H. repeat split; intros ->; discriminate. Qed.

Lemma span_digits_spec (s ds r : string) :
  Py.span_digits s = (ds, r) →
  s = ds +:+ r ∧ Spec.all_digits ds = true.
Proof.
  revert ds r. induction s as [|c s IH]; intros ds r; simpl.
  - by intros [= <- <-].
  - destruct (Py.is_digit c) eqn:Hc.
    + destruct (Py.span_digits s) as [ds' r'] eqn:E. intros [= <- <-].
      destruct (IH _ _ eq_refl) as [-> Hd]. simpl. by rewrite Hc, Hd.
    + by intros [= <- <-].
Qed.

Lemma span_digits_app (ds r : string) (c : ascii) :
  Spec.all_digits ds = true → Py.is_digit c = false →
  Py.span_digits (ds +:+ String c r) = (ds, String c r).
Proof.
  intros Hd Hc. induction ds as [|d ds IH]; simpl in *.
  - by rewrite Hc.
  - apply andb_true_iff in Hd as [Hd1 Hd2]. by rewrite Hd1, IH.
Qed.

(** [index_at] finds exactly a bracketed, non-empty run of digits. *)
Lemma index_at_Some (s ds r : string) :
  Py.index_at s = Some (ds, r) ↔
  s = String "[" (ds +:+ String "]" r) ∧ ds ≠ "" ∧ Spec.all_digits ds = true.
Proof.
  split.
  - destruct s as [|c s]; [done|]. unfold Py.index_at.
    destruct (decide (c = "["%char)) as [->|Hc].
    + destruct (Py.span_digits s) as [ds' r'] eqn:E.
      apply span_digits_spec in E as [-> Hd].
      destruct ds' as [|d ds']; [done|].
      destruct r' as [|c' r']; [done|].
      destruct (decide (c' = "]"%char)) as [->|Hc'].
      * by intros [= <- <-].
      * intros H. exfalso. revert H.
        by destruct c' as [[] [] [] [] [] [] [] []].
    + intros H. exfalso. revert H.
      by destruct c as [[] [] [] [] [] [] [] []].
  - intros (-> & Hne & Hd). unfold Py.index_at.
    rewrite span_digits_app by done. by destruct ds.
Qed.

Lemma length_app_s (s t : string) :
  String.length (s +:+ t) = String.length s + String.length t.
Proof. induction s as [|c s IH]; simpl; [done|]. by rewrite IH. Qed.

Lemma wildcard_indices_go_fuel (n : nat) (s : string) :
  (String.length s ≤ n)%nat →
  Spec.wildcard_indices_go n s = Spec.wildcard_indices s.
Proof.
  unfold Spec.wildcard_indices.
  revert s. induction (lt_wf n) as [n _ IH]; intros s Hle.
  destruct s as [|c s]; [by destruct n|].
  destruct n as [|n]; [simpl in Hle; lia|].
  cbn [String.length Spec.wildcard_indices_go].
  destruct (Py.index_at (String c s)) as [[ds r]|] eqn:E.
  - apply index_at_Some in E as ([= _ Hs] & Hne & Hd).
    assert (String.length r < String.length s)%nat as Hlt.
    { rewrite Hs, length_app_s. simpl. lia. }
    simpl in Hle.
    rewrite (IH n) by lia. rewrite (IH (String.length s)) by lia. done.
  - simpl in Hle. rewrite (IH n) by lia. done.
Qed.

Lemma wildcard_indices_nil : Spec.wildcard_indices "" = "".
Proof. reflexivity. Qed.

Lemma wildcard_indices_index (s ds r : string) :
  Py.index_at s = Some (ds, r) →
  Spec.wildcard_indices s = "[*]" +:+ Spec.wildcard_indices r.
Proof.
  intros E. pose proof E as E'. apply index_at_Some in E' as (-> & Hne & Hd).
  unfold Spec.wildcard_indices at 1. cbn [String.length Spec.wildcard_indices_go].
  rewrite E. rewrite wildcard_indices_go_fuel; [done|].
  rewrite length_app_s. simpl. lia.
Qed.

Lemma wildcard_indices_char (c : ascii) (s : string) :
  Py.index_at (String c s) = None →
  Spec.wildcard_indices (String c s) = String c (Spec.wildcard_indices s).
Proof.
  intros E. unfold Spec.wildcard_indices at 1.
  cbn [String.length Spec.wildcard_indices_go]. by rewrite E.
Qed.

Lemma escape_replace_wildcard (rest : string) :
  Py.escape_replace (String "[" (String "*" (String "]" rest))) =
  Py.AChar "[" :: Py.ADigits :: Py.AChar "]" :: Py.escape_replace rest.
Proof. reflexivity. Qed.

Lemma escape_replace_literal (c : ascii) (rest : string) :
  Py.startswith "[*]" (String c rest) = false →
  Py.escape_replace (String c rest) = Py.AChar c :: Py.escape_replace rest.
Proof.
  intros H. simpl in H.
  destruct (Ascii.eqb_spec "[" c) as [<-|Hc]; simpl in H.
  - destruct rest as [|c1 rest]; [done|].
    destruct (Ascii.eqb_spec "*" c1) as [<-|Hc1]; simpl in H.
    + destruct rest as [|c2 rest]; [done|].
      destruct (Ascii.eqb_spec "]" c2) as [<-|Hc2]; simpl in H; [done|].
      simpl. by destruct c2 as [[] [] [] [] [] [] [] []].
    + simpl. by destruct c1 as [[] [] [] [] [] [] [] []].
  - simpl. by destruct c as [[] [] [] [] [] [] [] []].
Qed.

(** Patterns are read three characters ahead; induction along that
    reading. *)
Lemma pattern_ind (P : string → Prop) :
  P "" →
  (∀ rest, P rest → P (String "[" (String "*" (String "]" rest)))) →
  (∀ c rest, Py.startswith "[*]" (String c rest) = false →
             P rest → P (String c rest)) →
  ∀ pattern, P pattern.
Proof.
  intros Hnil Hwild Hlit pattern.
  assert (∀ n p, (String.length p < n)%nat → P p) as H.
  { induction n as [|n IH]; intros p Hlen; [lia|].
    destruct p as [|c p]; [done|].
    destruct (Py.startswith "[*]" (String c p)) eqn:E.
    - cbn [Py.startswith] in E.
      destruct (Ascii.eqb_spec "[" c) as [<-|]; [|discriminate E].
      destruct p as [|c1 p]; [discriminate E|]. cbn [andb] in E.
      destruct (Ascii.eqb_spec "*" c1) as [<-|]; [|discriminate E].
      destruct p as [|c2 p]; [discriminate E|]. cbn [andb] in E.
      destruct (Ascii.eqb_spec "]" c2) as [<-|]; [|discriminate E].
      apply Hwild, IH. simpl in Hlen. lia.
    - apply Hlit; [done|]. apply IH. simpl in Hlen. lia. }
  apply (H (S (String.length pattern))). lia.
Qed.

Lemma fullmatch_digits (r : list Py.atom) (s : string) :
  Py.fullmatch (Py.ADigits :: r) s = true ↔
  ∃ ds u, s = ds +:+ u ∧ ds ≠ "" ∧ Spec.all_digits ds = true
          ∧ Py.fullmatch r u = true.
Proof.
  split.
  - induction s as [|d s IH]; [done|]. intros H.
    change (Py.is_digit d && (Py.fullmatch r s || Py.fullmatch (Py.ADigits :: r) s) = true) in H.
    apply andb_true_iff in H as [Hd H]. apply orb_true_iff in H as [H|H].
    + exists (String d ""), s. simpl. by rewrite Hd.
    + destruct (IH H) as (ds & u & -> & Hne & Hds & Hu).
      exists (String d ds), u. simpl. by rewrite Hd, Hds.
  - intros (ds & u & -> & Hne & Hds & Hu).
    induction ds as [|d ds IH]; [done|]. simpl in Hds.
    apply andb_true_iff in Hds as [Hd Hds].
    change (Py.is_digit d && (Py.fullmatch r (ds +:+ u)
             || Py.fullmatch (Py.ADigits :: r) (ds +:+ u)) = true).
    rewrite Hd, andb_true_l. destruct ds as [|d' ds].
    + by rewrite app_nil_l_s, Hu.
    + rewrite IH by done. apply orb_true_r.
Qed.

Lemma fullmatch_char (c : ascii) (r : list Py.atom) (s : string) :
  Py.fullmatch (Py.AChar c :: r) s = true ↔
  ∃ s', s = String c s' ∧ Py.fullmatch r s' = true.
Proof.
  simpl. destruct s as [|d s]; [split; [done|by intros (?&?&?)]|].
  rewrite andb_true_iff. split.
  - intros [Hc H]. apply Ascii.eqb_eq in Hc as ->. eauto.
  - intros (s' & [= -> ->] & H). by rewrite Ascii.eqb_refl.
Qed.

Lemma instantiates_digits (ds r p : string) :
  Spec.all_digits ds = true →
  Spec.instantiates (ds +:+ String "]" r) p →
  ∃ p', p = ds +:+ String "]" p' ∧ Spec.instantiates r p'.
Proof.
  revert p. induction ds as [|d ds IH]; intros p Hds H.
  - rewrite app_nil_l_s in H. inversion H; subst.
    eexists; split; [reflexivity|eassumption].
  - simpl in Hds. apply andb_true_iff in Hds as [Hd Hds].
    rewrite app_cons_s in H. inversion H; subst.
    + by apply is_digit_not_bracket in Hd as [? _].
    + match goal with
      | Hi : Spec.instantiates (ds +:+ _) _ |- _ =>
          destruct (IH _ Hds Hi) as (p' & -> & Hp')
      end.
      exists p'. by rewrite app_cons_s.
Qed.

(** What the regular expression of [path_matches] accepts. *)
Lemma path_matches_instantiates (path pattern : string) :
  path_matches path pattern = true ↔ Spec.instantiates path pattern.
Proof.
  unfold path_matches. revert path.
  induction pattern as [|rest IH|c rest Hc IH] using pattern_ind; intros path.
  - simpl. split.
    + destruct path; [constructor|done].
    + by inversion 1.
  - rewrite escape_replace_wildcard, fullmatch_char. split.
    + intros (s' & -> & H). apply fullmatch_digits in H as (ds & u & -> & Hne & Hds & H).
      apply fullmatch_char in H as (u' & -> & H). apply IH in H.
      by constructor.
    + inversion 1; subst.
      * eexists; split; [done|]. apply fullmatch_digits.
        exists ds, (String "]" path0). repeat split; try done.
        apply fullmatch_char. eexists; split; [done|]. by apply IH.
      * done.
  - rewrite escape_replace_literal by done. rewrite fullmatch_char. split.
    + intros (s' & -> & H). constructor; [done|]. by apply IH.
    + inversion 1; subst.
      * done.
      * eexists; split; [done|]. by apply IH.
Qed.

Lemma index_search_cons_None (c : ascii) (s : string) :
  Py.index_search (String c s) = None →
  Py.index_at (String c s) = None ∧ Py.index_search s = None.
Proof.
  cbn [Py.index_search].
  destruct (Py.index_at (String c s)) as [[ds r]|]; [done|]. by intros ->.
Qed.

Lemma index_search_at (s ds r : string) :
  Py.index_at s = Some (ds, r) → Py.index_search s = Some ds.
Proof.
  intros E. destruct s; [discriminate E|].
  cbn [Py.index_search]. by rewrite E.
Qed.

(** A pattern without a concrete index is the path with every index
    replaced, whenever the path is an instance of it. *)
Lemma instantiates_wildcard_indices (path pattern : string) :
  Spec.instantiates path pattern →
  Py.index_search pattern = None →
  Spec.wildcard_indices path = pattern.
Proof.
  induction 1 as [|ds path pattern Hne Hds Hi IH|c path pattern Hc Hi IH];
    intros Hno.
  - done.
  - rewrite (wildcard_indices_index _ ds path) by (by apply index_at_Some).
    apply index_search_cons_None in Hno as [_ Hno].
    apply index_search_cons_None in Hno as [_ Hno].
    apply index_search_cons_None in Hno as [_ Hno].
    by rewrite IH.
  - apply index_search_cons_None in Hno as [Hat Hno].
    destruct (Py.index_at (String c path)) as [[ds r]|] eqn:E.
    + exfalso. apply index_at_Some in E as ([= -> ->] & Hne & Hds).
      apply instantiates_digits in Hi as (p' & -> & _); [|done].
      assert (Py.index_at (String "[" (ds +:+ String "]" p')) = Some (ds, p'))
        as Hat' by (by apply index_at_Some).
      congruence.
    + rewrite wildcard_indices_char by done. by rewrite IH.
Qed.

Lemma contains_cons_false (sub : string) (c : ascii) (s : string) :
  Py.contains sub (String c s) = false →
  Py.startswith sub (String c s) = false ∧ Py.contains sub s = false.
Proof. cbn [Py.contains]. by intros [? ?]%orb_false_iff. Qed.

Lemma contains_app_false (sub s t : string) :
  Py.contains sub (s +:+ t) = false → Py.contains sub t = false.
Proof.
  induction s as [|c s IH]; [done|]. rewrite app_cons_s.
  intros [_ H]%contains_cons_false. auto.
Qed.

(** A path without ["[*]"] is an instance of its own generalisation. *)
Lemma wildcard_indices_instantiates (path : string) :
  Py.contains "[*]" path = false →
  Spec.instantiates path (Spec.wildcard_indices path).
Proof.
  assert (∀ n p, (String.length p < n)%nat → Py.contains "[*]" p = false →
                 Spec.instantiates p (Spec.wildcard_indices p)) as H.
  { induction n as [|n IH]; intros p Hlen Hp; [lia|].
    destruct p as [|c p]; [constructor|].
    destruct (Py.index_at (String c p)) as [[ds r]|] eqn:E.
    - rewrite (wildcard_indices_index _ _ _ E).
      apply index_at_Some in E as ([= -> ->] & Hne & Hds).
      constructor; [done..|]. apply IH.
      + simpl in Hlen. rewrite length_app_s in Hlen. simpl in Hlen. lia.
      + apply contains_cons_false in Hp as [_ Hp].
        apply contains_app_false in Hp.
        by apply contains_cons_false in Hp as [_ Hp].
    - rewrite wildcard_indices_char by done.
      pose proof Hp as [Hst Hp']%contains_cons_false.
      constructor; [|apply IH; [simpl in Hlen; lia|done]].
      (* the generalised tail cannot complete a wildcard that the path
         does not have *)
      destruct (Py.startswith "[*]" (String c (Spec.wildcard_indices p))) eqn:S1;
        [exfalso|done].
      cbn [Py.startswith] in S1, Hst.
      destruct (Ascii.eqb "[" c); [|discriminate S1]. cbn [andb] in S1, Hst.
      destruct p as [|c1 p]; [discriminate S1|].
      destruct (Py.index_at (String c1 p)) as [[ds1 r1]|] eqn:E1.
      { rewrite (wildcard_indices_index _ _ _ E1) in S1. discriminate S1. }
      rewrite wildcard_indices_char in S1 by done.
      destruct (Ascii.eqb "*" c1); [|discriminate S1]. cbn [andb] in S1, Hst.
      destruct p as [|c2 p]; [discriminate S1|].
      destruct (Py.index_at (String c2 p)) as [[ds2 r2]|] eqn:E2.
      { rewrite (wildcard_indices_index _ _ _ E2) in S1. discriminate S1. }
      rewrite wildcard_indices_char in S1 by done.
      destruct (Ascii.eqb "]" c2); [|discriminate S1]. discriminate Hst. }
  intros Hp. apply (H (S (String.length path))); [lia|done].
Qed.

Lemma split_inj (sep : ascii) (s t : string) :
  Py.split sep s = Py.split sep t → s = t.
Proof. intros H. by rewrite <-(join_split sep s), <-(join_split sep t), H. Qed.

(** C4, as amended.  [path_matches] (the one computation behind
    [path_matches] of [done.py] and [spec_based.py] and
    [_parsing_path_matches] of [final_rendition.py]) returns true exactly
    when the pattern, read left to right, is the path with some of its
    bracketed indices replaced by ["[*]"]: a wildcard accepts any non-empty
    run of digits, and every other character of the pattern, a concrete
    index such as ["[0]"] included, must be in the path as it is.
    For a concrete path (no ["[*]"] in it) and a pattern that has no
    concrete index, this is the same as: the path with every index replaced
    by ["[*]"] is segment for segment the pattern. *)
Theorem path_matches_spec (path pattern : string) :
  (path_matches path pattern = true ↔ Spec.instantiates path pattern) ∧
  (Py.contains "[*]" path = false →
   Py.index_search pattern = None →
   (path_matches path pattern = true ↔
    Py.split "." (Spec.wildcard_indices path) = Py.split "." pattern)).
Proof.
  split; [apply path_matches_instantiates|].
  intros Hpath Hpattern. rewrite path_matches_instantiates. split.
  - intros Hi. by rewrite (instantiates_wildcard_indices _ _ Hi Hpattern).
  - intros <-%split_inj. by apply wildcard_indices_instantiates.
Qed.

Lemma path_matches_spec_witness :
  Py.contains "[*]" "root.invoice_items[12]" = false ∧
  Py.index_search "root.invoice_items[*]" = None ∧
  (path_matches "root.invoice_items[12]" "root.invoice_items[*]" = true ↔
   Py.split "." (Spec.wildcard_indices "root.invoice_items[12]") =
   Py.split "." "root.invoice_items[*]").
Proof.
  split; [reflexivity|]. split; [reflexivity|].
  apply (proj2 (path_matches_spec "root.invoice_items[12]"
                  "root.invoice_items[*]")); reflexivity.
Defined.

(** C4 as it is worded fails on a pattern that carries a concrete index:
    ["root.a[0].b[*]"] matches ["root.a[0].b[1]"], whose generalisation is
    ["root.a[*].b[*]"]. *)
Lemma path_matches_concrete_index_counterexample :
  ¬ (path_matches "root.a[0].b[1]" "root.a[0].b[*]" = true ↔
     Py.split "." (Spec.wildcard_indices "root.a[0].b[1]") =
     Py.split "." "root.a[0].b[*]").
Proof. intros [H _]. specialize (H eq_refl). vm_compute in H. discriminate H. Qed.

(** C10, amended.  An alias none of whose segments holds ["[*]"] is resolved to
    itself, against any current path, by [resolve_alias_with_wildcards]
    ([done.py]) and by [_parsing_replace_wildcard_with_index]
    ([final_rendition.py]); so the value of such a field is what the index
    holds under the alias text, wherever extraction runs: for every field of
    [final_rendition.py], and in [done.py] for every field that is read
    through the index (its alias is not its own name). *)
Theorem wildcard_free_alias_identity (a path : string) :
  Forall (λ seg, Py.contains "[*]" seg = false) (Py.split "." a) →
  Done.resolve_alias_with_wildcards a path = a ∧
  Final._parsing_replace_wildcard_with_index a path = a ∧
  (∀ indexed_cache field_name has_wildcard,
     Final.field_value indexed_cache path (field_name, a, has_wildcard) =
     (field_name, Py.get VNull indexed_cache a)) ∧
  (∀ obj path_index field_name field_info,
     alias field_info = Some a → a ≠ field_name →
     Done.field_value obj path path_index (field_name, field_info) =
     (field_name, Py.get VNull path_index a)).
Proof.
  intros H. repeat split.
  - by apply done_resolve_id.
  - by apply final_resolve_id.
  - intros idx name hw. unfold Final.field_value.
    destruct hw; [|done]. by rewrite final_resolve_id.
  - intros obj idx name fi Ha Hne. unfold Done.field_value. rewrite Ha.
    destruct (String.eqb_spec a name); [done|]. by rewrite done_resolve_id.
Qed.

Lemma wildcard_free_alias_identity_witness :
  Done.resolve_alias_with_wildcards "root.geo.latitude"
    "root.invoice_items[2].transactions[0]" = "root.geo.latitude" ∧
  Final._parsing_replace_wildcard_with_index "root.geo.latitude"
    "root.invoice_items[2].transactions[0]" = "root.geo.latitude".
Proof.
  pose proof (wildcard_free_alias_identity "root.geo.latitude"
                "root.invoice_items[2].transactions[0]") as H.
  destruct H as (H1 & H2 & _).
  - repeat constructor.
  - exact (conj H1 H2).
Defined.

(** C10 as it is worded fails for [done.py]: a field whose alias is its own
    name is read from the node the extraction is at, not from the index. *)
Lemma wildcard_free_alias_counterexample :
  Done.resolve_alias_with_wildcards "a" "root" = "a" ∧
  Py.get VNull (<["a" := VNum 9]> ∅) "a" = VNum 9 ∧
  Done.field_value [("a", VNum 1)] "root" (<["a" := VNum 9]> ∅)
    ("a", mkField (Some "a") ExtraNone false) = ("a", VNum 1).
Proof. repeat split; vm_compute; reflexivity. Qed.

(** ** More on strings: prefixes, characters, decimal numbers *)

Lemma startswith_app (p t : string) : Py.startswith p (p +:+ t) = true.
Proof.
  induction p as [|c p IH]; [done|]. rewrite app_cons_s. simpl.
  by rewrite Ascii.eqb_refl.
Qed.

Lemma startswith_spec (p s : string) :
  Py.startswith p s = true ↔ ∃ t, s = p +:+ t.
Proof.
  split.
  - revert s. induction p as [|c p IH]; intros s H; [by exists s|].
    destruct s as [|d s]; [done|]. simpl in H.
    apply andb_true_iff in H as [->%Ascii.eqb_eq H].
    destruct (IH _ H) as [t ->]. by exists t.
  - intros [t ->]. apply startswith_app.
Qed.

Lemma contains_startswith (sub s : string) :
  Py.startswith sub s = true → Py.contains sub s = true.
Proof. intros H. destruct s; simpl in *; by rewrite H. Qed.

Lemma contains_app_r (sub s t : string) :
  Py.contains sub t = true → Py.contains sub (s +:+ t) = true.
Proof.
  intros H. induction s as [|c s IH]; [done|]. rewrite app_cons_s.
  cbn [Py.contains]. rewrite IH. apply orb_true_r.
Qed.

Lemma contains_app_l (sub s t : string) :
  Py.contains sub s = true → Py.contains sub (s +:+ t) = true.
Proof.
  induction s as [|c s IH]; intros H.
  - destruct sub; [by destruct t|done].
  - rewrite app_cons_s. cbn [Py.contains] in *.
    apply orb_true_iff in H as [H|H].
    + apply startswith_spec in H as [u Hu].
      replace (String c (s +:+ t)) with (sub +:+ (u +:+ t)).
      * by rewrite startswith_app.
      * by rewrite <-app_assoc_s, <-Hu.
    + rewrite IH by done. apply orb_true_r.
Qed.

(** A string without the character [c]. *)
Lemma contains_char_cons (c d : ascii) (s : string) :
  Py.contains (String c "") (String d s) = false ↔
  d ≠ c ∧ Py.contains (String c "") s = false.
Proof.
  cbn [Py.contains Py.startswith]. rewrite orb_false_iff, andb_true_r.
  rewrite Ascii.eqb_sym.
  destruct (Ascii.eqb_spec d c); intuition congruence.
Qed.

Lemma contains_char_app (c : ascii) (s t : string) :
  Py.contains (String c "") (s +:+ t) = false ↔
  Py.contains (String c "") s = false ∧ Py.contains (String c "") t = false.
Proof.
  induction s as [|d s IH].
  - rewrite app_nil_l_s. split; [by intros H; split|by intros [_ H]].
  - rewrite app_cons_s, !contains_char_cons, IH. tauto.
Qed.

Lemma split_app_sep (sep : ascii) (key t : string) :
  Py.contains (String sep "") key = false →
  Py.split sep (key +:+ String sep t) = key :: Py.split sep t.
Proof.
  induction key as [|c key IH]; intros H.
  - rewrite app_nil_l_s. simpl. by rewrite Ascii.eqb_refl.
  - apply contains_char_cons in H as [Hc H]. rewrite app_cons_s. simpl.
    rewrite IH by done. by destruct (Ascii.eqb_spec c sep).
Qed.

Lemma split_no_sep (sep : ascii) (key : string) :
  Py.contains (String sep "") key = false → Py.split sep key = [key].
Proof.
  induction key as [|c key IH]; intros H; [done|].
  apply contains_char_cons in H as [Hc H]. simpl. rewrite IH by done.
  by destruct (Ascii.eqb_spec c sep).
Qed.

(** [str n] is a non-empty run of digits, and tells [n]. *)
Lemma pretty_N_go_digits (x : N) (s : string) :
  Spec.all_digits s = true → Spec.all_digits (pretty_N_go x s) = true.
Proof.
  revert s. induction (N.lt_wf_0 x) as [x _ IH]; intros s Hs.
  destruct (decide (x = 0)%N) as [->|Hx]; [by rewrite pretty_N_go_0|].
  rewrite pretty_N_go_step by lia. apply IH.
  - apply N.div_lt; lia.
  - simpl. rewrite Hs, andb_true_r. unfold pretty_N_char.
    by repeat case_match.
Qed.

Lemma pretty_N_go_nonempty (x : N) (s : string) :
  s ≠ "" → pretty_N_go x s ≠ "".
Proof.
  revert s. induction (N.lt_wf_0 x) as [x _ IH]; intros s Hs.
  destruct (decide (x = 0)%N) as [->|Hx]; [by rewrite pretty_N_go_0|].
  rewrite pretty_N_go_step by lia. apply IH; [apply N.div_lt; lia|done].
Qed.

Lemma str_digits (n : nat) : Spec.all_digits (Py.str n) = true.
Proof.
  unfold Py.str, pretty, pretty_nat, pretty, pretty_N.
  case_decide; [done|]. by apply pretty_N_go_digits.
Qed.

Lemma str_nonempty (n : nat) : Py.str n ≠ "".
Proof.
  unfold Py.str, pretty, pretty_nat, pretty, pretty_N.
  case_decide; [done|].
  rewrite pretty_N_go_step by lia. by apply pretty_N_go_nonempty.
Qed.

Lemma str_inj (n m : nat) : Py.str n = Py.str m → n = m.
Proof. unfold Py.str. apply pretty_nat_inj. Qed.

Lemma all_digits_no_char (c : ascii) (ds : string) :
  Py.is_digit c = false → Spec.all_digits ds = true →
  Py.contains (String c "") ds = false.
Proof.
  intros Hc. induction ds as [|d ds IH]; [done|]. simpl.
  intros [Hd Hds]%andb_true_iff. apply contains_char_cons. split; [|auto].
  intros ->. congruence.
Qed.

(** ** Segments of a concrete path *)

Lemma indices_cons (n : nat) (ns : list nat) :
  Spec.indices (n :: ns) = String "[" (Py.str n +:+ String "]" (Spec.indices ns)).
Proof. reflexivity. Qed.

Lemma index_at_not_bracket (c : ascii) (s : string) :
  c ≠ "["%char → Py.index_at (String c s) = None.
Proof.
  intros Hc. unfold Py.index_at.
  by destruct c as [[] [] [] [] [] [] [] []].
Qed.

Lemma index_search_skip (key t : string) :
  Py.contains "[" key = false →
  Py.index_search (key +:+ t) = Py.index_search t.
Proof.
  induction key as [|c key IH]; intros H; [done|].
  apply contains_char_cons in H as [Hc H]. rewrite app_cons_s.
  cbn [Py.index_search]. rewrite index_at_not_bracket by done. auto.
Qed.

(** The two tests of the scanning loops succeed on a segment indexed under
    the key, and give its first index. *)
Lemma segment_hit (key : string) (n : nat) (seg : string) :
  Py.contains "[" key = false →
  Spec.indexed_under key n seg →
  Py.startswith (key +:+ "[") seg = true ∧
  Py.index_search seg = Some (Py.str n).
Proof.
  intros Hkey [ns ->]. split.
  - rewrite indices_cons.
    replace (key +:+ String "[" (Py.str n +:+ String "]" (Spec.indices ns)))
      with ((key +:+ "[") +:+ (Py.str n +:+ String "]" (Spec.indices ns)))
      by (by rewrite app_assoc_s).
    apply startswith_app.
  - rewrite index_search_skip by done. rewrite indices_cons.
    apply (index_search_at _ _ (Spec.indices ns)). apply index_at_Some.
    split; [done|]. split; [apply str_nonempty|apply str_digits].
Qed.

Lemma segment_prefix_key (key k : string) (ns : list nat) :
  Py.contains "[" key = false →
  Py.contains "[" k = false →
  Py.startswith (key +:+ "[") (k +:+ Spec.indices ns) = true →
  k = key ∧ ns ≠ [].
Proof.
  revert k. induction key as [|c key IH]; intros k Hkey Hk H.
  - rewrite app_nil_l_s in H. destruct k as [|d k].
    + rewrite app_nil_l_s in H. by destruct ns.
    + apply contains_char_cons in Hk as [Hd _]. rewrite app_cons_s in H.
      cbn [Py.startswith] in H. apply andb_true_iff in H as [Heq%Ascii.eqb_eq _]. by subst.
  - apply contains_char_cons in Hkey as [Hc Hkey]. rewrite app_cons_s in H.
    destruct k as [|d k].
    + rewrite app_nil_l_s in H. destruct ns as [|n ns]; [done|].
      rewrite indices_cons in H. cbn [Py.startswith] in H.
      apply andb_true_iff in H as [Heq%Ascii.eqb_eq _]. by subst.
    + apply contains_char_cons in Hk as [Hd Hk]. rewrite app_cons_s in H.
      cbn [Py.startswith] in H. apply andb_true_iff in H as [->%Ascii.eqb_eq H].
      destruct (IH _ Hkey Hk H) as [-> ?]. done.
Qed.

(** On a concrete segment the two tests succeed only if it is indexed under
    the key. *)
Lemma segment_test (key seg g : string) :
  Py.contains "[" key = false →
  Spec.concrete_segment seg →
  Py.startswith (key +:+ "[") seg = true →
  Py.index_search seg = Some g →
  ∃ n, Spec.indexed_under key n seg ∧ g = Py.str n.
Proof.
  intros Hkey (k & ns & Hk & ->) Hs Hg.
  destruct (segment_prefix_key _ _ _ Hkey Hk Hs) as [-> Hns].
  destruct ns as [|n ns]; [done|].
  assert (Spec.indexed_under key n (key +:+ Spec.indices (n :: ns))) as Hu
    by (by exists ns).
  exists n. split; [done|].
  destruct (segment_hit _ _ _ Hkey Hu) as [_ Hg']. congruence.
Qed.

Lemma wildcard_segment_contains (key : string) :
  Py.contains "[*]" (key +:+ "[*]") = true.
Proof. by apply contains_app_r. Qed.

Lemma wildcard_segment_key (key : string) :
  Py.contains "[" key = false →
  hd EmptyString (Py.split "[" (key +:+ "[*]")) = key.
Proof. intros H. by rewrite (split_app_sep "[" key "*]"). Qed.

(** ** The scanning loops *)

Lemma done_scan_spec (key : string) (rest : list string) (i : nat) :
  Py.contains "[" key = false →
  Forall Spec.concrete_segment rest →
  match Done.scan key rest i with
  | (Some g, i') =>
      ∃ k n seg, i' = S (i + k) ∧ rest !! k = Some seg ∧
        Spec.indexed_under key n seg ∧ g = Py.str n ∧
        ∀ k' seg' n', (k' < k)%nat → rest !! k' = Some seg' →
                      ¬ Spec.indexed_under key n' seg'
  | (None, i') =>
      i' = (i + length rest)%nat ∧
      ∀ k seg n, rest !! k = Some seg → ¬ Spec.indexed_under key n seg
  end.
Proof.
  intros Hkey Hrest. revert i.
  induction Hrest as [|seg rest Hseg _ IH]; intros i.
  - simpl. split; [lia|]. intros k seg n Hk. by rewrite lookup_nil in Hk.
  - assert ((∀ n, ¬ Spec.indexed_under key n seg) →
            match Done.scan key rest (S i) with
            | (Some g, i') =>
                ∃ k n seg0, i' = S (i + k) ∧ (seg :: rest) !! k = Some seg0 ∧
                  Spec.indexed_under key n seg0 ∧ g = Py.str n ∧
                  ∀ k' seg' n', (k' < k)%nat → (seg :: rest) !! k' = Some seg' →
                                ¬ Spec.indexed_under key n' seg'
            | (None, i') =>
                i' = (i + length (seg :: rest))%nat ∧
                ∀ k seg0 n, (seg :: rest) !! k = Some seg0 →
                            ¬ Spec.indexed_under key n seg0
            end) as Hstep.
    { intros Hmiss. specialize (IH (S i)).
      destruct (Done.scan key rest (S i)) as [[g'|] i'].
      - destruct IH as (k & n & seg0 & -> & Hk & Hu & -> & Hbefore).
        exists (S k), n, seg0.
        split; [lia|]. split; [done|]. split; [done|]. split; [done|].
        intros [|k'] seg' n' Hlt Hk'; simpl in Hk'.
        + injection Hk' as <-. apply Hmiss.
        + apply (Hbefore k'); [lia|done].
      - destruct IH as [-> Hall]. split; [simpl; lia|].
        intros [|k] seg' n Hk; simpl in Hk.
        + injection Hk as <-. apply Hmiss.
        + by apply (Hall k). }
    cbn [Done.scan].
    destruct (Py.startswith (key +:+ "[") seg) eqn:Hs;
      [destruct (Py.index_search seg) as [g|] eqn:Hg|].
    + destruct (segment_test _ _ _ Hkey Hseg Hs Hg) as (n & Hu & ->).
      exists 0, n, seg.
      split; [lia|]. split; [done|]. split; [done|]. split; [done|].
      intros; lia.
    + apply Hstep. intros n Hu.
      destruct (segment_hit _ _ _ Hkey Hu) as [_ H2]. congruence.
    + apply Hstep. intros n Hu.
      destruct (segment_hit _ _ _ Hkey Hu) as [H1 _]. congruence.
Qed.

Lemma final_scan_spec (key : string) (rest : list string) (i : nat) :
  Py.contains "[" key = false →
  Forall Spec.concrete_segment rest →
  match Final.scan key rest i with
  | Some (g, i') =>
      ∃ k n seg, i' = S (i + k) ∧ rest !! k = Some seg ∧
        Spec.indexed_under key n seg ∧ g = Py.str n ∧
        ∀ k' seg' n', (k' < k)%nat → rest !! k' = Some seg' →
                      ¬ Spec.indexed_under key n' seg'
  | None =>
      ∀ k seg n, rest !! k = Some seg → ¬ Spec.indexed_under key n seg
  end.
Proof.
  intros Hkey Hrest. revert i.
  induction Hrest as [|seg rest Hseg _ IH]; intros i.
  - simpl. intros k seg n Hk. by rewrite lookup_nil in Hk.
  - assert ((∀ n, ¬ Spec.indexed_under key n seg) →
            match Final.scan key rest (S i) with
            | Some (g, i') =>
                ∃ k n seg0, i' = S (i + k) ∧ (seg :: rest) !! k = Some seg0 ∧
                  Spec.indexed_under key n seg0 ∧ g = Py.str n ∧
                  ∀ k' seg' n', (k' < k)%nat → (seg :: rest) !! k' = Some seg' →
                                ¬ Spec.indexed_under key n' seg'
            | None =>
                ∀ k seg0 n, (seg :: rest) !! k = Some seg0 →
                            ¬ Spec.indexed_under key n seg0
            end) as Hstep.
    { intros Hmiss. specialize (IH (S i)).
      destruct (Final.scan key rest (S i)) as [[g' i']|].
      - destruct IH as (k & n & seg0 & -> & Hk & Hu & -> & Hbefore).
        exists (S k), n, seg0.
        split; [lia|]. split; [done|]. split; [done|]. split; [done|].
        intros [|k'] seg' n' Hlt Hk'; simpl in Hk'.
        + injection Hk' as <-. apply Hmiss.
        + apply (Hbefore k'); [lia|done].
      - intros [|k] seg' n Hk; simpl in Hk.
        + injection Hk as <-. apply Hmiss.
        + by apply (IH k). }
    cbn [Final.scan].
    destruct (Py.startswith (key +:+ "[") seg) eqn:Hs;
      [destruct (Py.index_search seg) as [g|] eqn:Hg|].
    + destruct (segment_test _ _ _ Hkey Hseg Hs Hg) as (n & Hu & ->).
      exists 0, n, seg.
      split; [lia|]. split; [done|]. split; [done|]. split; [done|].
      intros; lia.
    + apply Hstep. intros n Hu.
      destruct (segment_hit _ _ _ Hkey Hu) as [_ H2]. congruence.
    + apply Hstep. intros n Hu.
      destruct (segment_hit _ _ _ Hkey Hu) as [H1 _]. congruence.
Qed.

(** ** Alias resolution follows section 4.3 *)

Lemma done_fold_resolves (cur segs res : list string) (i : nat) :
  Forall Spec.concrete_segment cur →
  Forall Spec.alias_segment segs →
  ∃ out, (foldl (Done.resolve_step cur) (res, i) segs).1 = res ++ out
         ∧ Spec.resolves cur i segs out.
Proof.
  intros Hcur Hsegs. revert res i.
  induction Hsegs as [|seg segs Hseg _ IH]; intros res i.
  - exists []. split; [by rewrite app_nil_r|constructor].
  - cbn [foldl]. destruct Hseg as [Hlit|(key & Hkey & ->)].
    + unfold Done.resolve_step at 2. rewrite Hlit. case_decide as Hi.
      * destruct (IH (res ++ [seg]) (S i)) as (out & -> & Hout).
        exists (seg :: out). split; [by rewrite <-app_assoc|].
        by apply Spec.resolves_literal_advance.
      * destruct (IH (res ++ [seg]) i) as (out & -> & Hout).
        exists (seg :: out). split; [by rewrite <-app_assoc|].
        by apply Spec.resolves_literal_stay.
    + unfold Done.resolve_step at 2.
      rewrite wildcard_segment_contains, wildcard_segment_key by done.
      pose proof (done_scan_spec key (drop i cur) i Hkey
                    (Forall_drop _ _ _ Hcur)) as Hscan.
      destruct (Done.scan key (drop i cur) i) as [[g|] i'].
      * destruct Hscan as (k & n & seg0 & -> & Hk & Hu & -> & Hbefore).
        rewrite lookup_drop in Hk.
        destruct (IH (res ++ [key +:+ "[" +:+ Py.str n +:+ "]"]) (S (i + k)))
          as (out & -> & Hout).
        eexists (_ :: out). split; [by rewrite <-app_assoc|].
        apply (Spec.resolves_wildcard cur i (i + k) key n seg0);
          [done|lia|done|done| |done].
        intros j' seg' n' Hj Hj'. apply (Hbefore (j' - i)); [lia|].
        rewrite lookup_drop. by replace (i + (j' - i)) with j' by lia.
      * destruct Hscan as [-> Hall].
        destruct (IH (res ++ [key +:+ "[*]"]) (i + length (drop i cur)))
          as (out & -> & Hout).
        eexists (_ :: out). split; [by rewrite <-app_assoc|].
        apply (Spec.resolves_unresolved cur i (i + length (drop i cur)));
          [done| |lia|done].
        intros j seg n Hj Hseg. apply (Hall (j - i)).
        rewrite lookup_drop. by replace (i + (j - i)) with j by lia.
Qed.

Lemma final_fold_resolves (cur segs res : list string) (i : nat) :
  Forall Spec.concrete_segment cur →
  Forall Spec.alias_segment segs →
  ∃ out, (foldl (Final.replace_step cur) (res, i) segs).1 = res ++ out
         ∧ Spec.resolves cur i segs out.
Proof.
  intros Hcur Hsegs. revert res i.
  induction Hsegs as [|seg segs Hseg _ IH]; intros res i.
  - exists []. split; [by rewrite app_nil_r|constructor].
  - cbn [foldl]. destruct Hseg as [Hlit|(key & Hkey & ->)].
    + unfold Final.replace_step at 2. rewrite Hlit. case_decide as Hi.
      * destruct (IH (res ++ [seg]) (S i)) as (out & -> & Hout).
        exists (seg :: out). split; [by rewrite <-app_assoc|].
        by apply Spec.resolves_literal_advance.
      * destruct (IH (res ++ [seg]) i) as (out & -> & Hout).
        exists (seg :: out). split; [by rewrite <-app_assoc|].
        by apply Spec.resolves_literal_stay.
    + unfold Final.replace_step at 2.
      rewrite wildcard_segment_contains, wildcard_segment_key by done.
      pose proof (final_scan_spec key (drop i cur) i Hkey
                    (Forall_drop _ _ _ Hcur)) as Hscan.
      destruct (Final.scan key (drop i cur) i) as [[g i']|].
      * destruct Hscan as (k & n & seg0 & -> & Hk & Hu & -> & Hbefore).
        rewrite lookup_drop in Hk.
        destruct (IH (res ++ [key +:+ "[" +:+ Py.str n +:+ "]"]) (S (i + k)))
          as (out & -> & Hout).
        eexists (_ :: out). split; [by rewrite <-app_assoc|].
        apply (Spec.resolves_wildcard cur i (i + k) key n seg0);
          [done|lia|done|done| |done].
        intros j' seg' n' Hj Hj'. apply (Hbefore (j' - i)); [lia|].
        rewrite lookup_drop. by replace (i + (j' - i)) with j' by lia.
      * destruct (IH (res ++ [key +:+ "[*]"]) i) as (out & -> & Hout).
        eexists (_ :: out). split; [by rewrite <-app_assoc|].
        apply (Spec.resolves_unresolved cur i i); [done| |lia|done].
        intros j seg n Hj Hseg. apply (Hscan (j - i)).
        rewrite lookup_drop. by replace (i + (j - i)) with j by lia.
Qed.

Lemma done_resolve_resolves (a current_path : string) :
  Forall Spec.concrete_segment (Py.split "." current_path) →
  Forall Spec.alias_segment (Py.split "." a) →
  ∃ out, Done.resolve_alias_with_wildcards a current_path = Py.join "." out
         ∧ Spec.resolves (Py.split "." current_path) 0 (Py.split "." a) out.
Proof.
  intros Hcur Ha. unfold Done.resolve_alias_with_wildcards.
  destruct (done_fold_resolves _ _ [] 0 Hcur Ha) as (out & E & Hout).
  destruct (foldl _ _ _) as [r j]. simpl in E. subst r. by exists out.
Qed.

Lemma final_resolve_resolves (a current_path : string) :
  Forall Spec.concrete_segment (Py.split "." current_path) →
  Forall Spec.alias_segment (Py.split "." a) →
  ∃ out, Final._parsing_replace_wildcard_with_index a current_path
         = Py.join "." out
         ∧ Spec.resolves (Py.split "." current_path) 0 (Py.split "." a) out.
Proof.
  intros Hcur Ha. unfold Final._parsing_replace_wildcard_with_index.
  destruct (final_fold_resolves _ _ [] 0 Hcur Ha) as (out & E & Hout).
  destruct (foldl _ _ _) as [r j]. simpl in E. subst r. by exists out.
Qed.

(** ** The walk is its indexing followed by its extraction attempts *)

Lemma Value_ind_nested (P : Value → Prop) :
  P VNull →
  (∀ b, P (VBool b)) →
  (∀ n, P (VNum n)) →
  (∀ s, P (VStr s)) →
  (∀ elems, Forall P elems → P (VList elems)) →
  (∀ items, Forall (λ kv, P kv.2) items → P (VDict items)) →
  ∀ v, P v.
Proof.
  intros Hnull Hbool Hnum Hstr Hlist Hdict.
  fix IH 1. intros [| b | n | s | elems | items].
  - apply Hnull.
  - apply Hbool.
  - apply Hnum.
  - apply Hstr.
  - apply Hlist. induction elems as [|e elems IHe]; constructor; auto.
  - apply Hdict. induction items as [|[k v] items IHi]; constructor; auto.
Qed.

Lemma bind_Ok {X A B} (a : A) (k : A → res X B) : (Ok a ≫= k) = k a.
Proof. reflexivity. Qed.

Lemma bind_assoc_res {X A B C} (m : res X A) (f : A → res X B) (g : B → res X C) :
  (m ≫= f) ≫= g = m ≫= (λ a, f a ≫= g).
Proof. by destruct m. Qed.

Lemma replay_app {X A}
    (extract : list (string * Value) → string → gmap string Value → A → res X A)
    (evs1 evs2 : list Trace.event) (acc : A) :
  Trace.replay extract (evs1 ++ evs2) acc =
  Trace.replay extract evs1 acc ≫= Trace.replay extract evs2.
Proof.
  revert acc. induction evs1 as [|[[items path] idx] evs1 IH]; intros acc.
  - done.
  - simpl. destruct (extract items path idx acc) as [acc'|e]; simpl; [|done].
    apply IH.
Qed.

Section WalkReplay.
Context {X A : Type}.
Variable extract :
  list (string * Value) → string → gmap string Value → A → res X A.

Local Abbreviation walk_replay_at obj :=
  (∀ path idx acc,
     walk extract obj path idx acc =
     Trace.replay extract (Trace.events obj path idx) acc
       ≫= λ acc', Ok (Done._index_path obj path idx, acc')).

Lemma walk_items_replay (items : list (string * Value)) :
  Forall (λ kv, walk_replay_at kv.2) items →
  ∀ path idx acc,
    walk_items (walk extract) items path idx acc =
    Trace.replay extract (Trace.events_items Trace.events items path idx) acc
      ≫= λ acc', Ok (Done.index_items Done._index_path items path idx, acc').
Proof.
  induction 1 as [|[key value] items Hv _ IH]; intros path idx acc; [done|].
  cbn [walk_items Trace.events_items Done.index_items].
  destruct (is_container value).
  - rewrite (Hv _ _ _), replay_app, !bind_assoc_res.
    destruct (Trace.replay extract _ acc) as [acc1|e]; [|done].
    rewrite !bind_Ok. apply IH.
  - rewrite bind_Ok. apply IH.
Qed.

Lemma walk_elems_replay (elems : list Value) :
  Forall (λ e, walk_replay_at e) elems →
  ∀ index path idx acc,
    walk_elems (walk extract) elems index path idx acc =
    Trace.replay extract
      (Trace.events_elems Trace.events elems index path idx) acc
      ≫= λ acc', Ok (Done.index_elems Done._index_path elems index path idx,
                     acc').
Proof.
  induction 1 as [|item elems Hv _ IH]; intros index path idx acc; [done|].
  cbn [walk_elems Trace.events_elems Done.index_elems].
  destruct (is_container item).
  - rewrite (Hv _ _ _), replay_app, !bind_assoc_res.
    destruct (Trace.replay extract _ acc) as [acc1|e]; [|done].
    rewrite !bind_Ok. apply IH.
  - rewrite bind_Ok. apply IH.
Qed.

(** Whatever is called at the mapping nodes, a walk builds the index of
    [_index_path] and makes the calls of [Trace.events] in order; it
    raises what the first failing call raises. *)
Lemma walk_replay (obj : Value) : walk_replay_at obj.
Proof.
  induction obj as [| | | |elems IH|items IH] using Value_ind_nested;
    intros path idx acc; try done.
  - apply (walk_elems_replay _ IH).
  - cbn [walk Trace.events Done._index_path].
    rewrite (walk_items_replay _ IH), replay_app, bind_assoc_res.
    destruct (Trace.replay extract _ acc) as [acc1|e]; [|done].
    rewrite !bind_Ok. simpl.
    by destruct (extract items path _ acc1).
Qed.
End WalkReplay.

(** ** What the index holds *)

Lemma insert_keeps (k k' : string) (v : Value) (idx : gmap string Value) :
  is_Some (idx !! k') → is_Some (<[k := v]> idx !! k').
Proof. intros H. apply lookup_insert_is_Some. destruct (decide (k = k')); auto. Qed.

Lemma insert_has (k : string) (v : Value) (idx : gmap string Value) :
  is_Some (<[k := v]> idx !! k).
Proof. rewrite lookup_insert_eq. eauto. Qed.

Lemma index_items_mono_if (items : list (string * Value)) :
  Forall (λ kv, ∀ path idx k, is_Some (idx !! k) →
                is_Some (Done._index_path kv.2 path idx !! k)) items →
  ∀ path idx k, is_Some (idx !! k) →
    is_Some (Done.index_items Done._index_path items path idx !! k).
Proof.
  induction 1 as [|[key value] items Hv _ IH]; intros path idx k Hk; [done|].
  cbn [Done.index_items]. apply IH.
  destruct (is_container value); [apply Hv|]; by apply insert_keeps.
Qed.

Lemma index_elems_mono_if (elems : list Value) :
  Forall (λ e, ∀ path idx k, is_Some (idx !! k) →
               is_Some (Done._index_path e path idx !! k)) elems →
  ∀ index path idx k, is_Some (idx !! k) →
    is_Some (Done.index_elems Done._index_path elems index path idx !! k).
Proof.
  induction 1 as [|item elems Hv _ IH]; intros index path idx k Hk; [done|].
  cbn [Done.index_elems]. apply IH.
  destruct (is_container item); [apply Hv|]; by apply insert_keeps.
Qed.

(** Indexing only adds entries. *)
Lemma index_path_mono (obj : Value) (path : string)
    (idx : gmap string Value) (k : string) :
  is_Some (idx !! k) → is_Some (Done._index_path obj path idx !! k).
Proof.
  revert path idx k.
  induction obj as [| | | |elems IH|items IH] using Value_ind_nested;
    intros path idx k Hk; cbn [Done._index_path];
    try (by apply insert_keeps).
  - apply (index_elems_mono_if _ IH). by apply insert_keeps.
  - apply (index_items_mono_if _ IH). by apply insert_keeps.
Qed.

Lemma index_items_mono (items : list (string * Value)) (path : string)
    (idx : gmap string Value) (k : string) :
  is_Some (idx !! k) →
  is_Some (Done.index_items Done._index_path items path idx !! k).
Proof.
  apply index_items_mono_if, Forall_forall. intros kv _ p i k'.
  apply index_path_mono.
Qed.

Lemma index_elems_mono (elems : list Value) (index : nat) (path : string)
    (idx : gmap string Value) (k : string) :
  is_Some (idx !! k) →
  is_Some (Done.index_elems Done._index_path elems index path idx !! k).
Proof.
  apply index_elems_mono_if, Forall_forall. intros e _ p i k'.
  apply index_path_mono.
Qed.

Lemma index_path_self (obj : Value) (path : string) (idx : gmap string Value) :
  is_Some (Done._index_path obj path idx !! path).
Proof.
  destruct obj; cbn [Done._index_path]; try apply insert_has.
  - apply index_elems_mono, insert_has.
  - apply index_items_mono, insert_has.
Qed.

Lemma at_loc_scalar (v : Value) (steps : list Spec.step) (w : Value) :
  is_container v = false → Spec.at_loc v steps w → steps = [].
Proof. intros Hv H. by destruct H. Qed.

Lemma render_cons_key (path key : string) (steps : list Spec.step) :
  path +:+ Spec.render (Spec.SKey key :: steps) =
  (path +:+ "." +:+ key) +:+ Spec.render steps.
Proof. cbn [Spec.render Spec.render_step]. by rewrite !app_assoc_s. Qed.

Lemma render_cons_index (path : string) (index : nat) (steps : list Spec.step) :
  path +:+ Spec.render (Spec.SIdx index :: steps) =
  (path +:+ "[" +:+ Py.str index +:+ "]") +:+ Spec.render steps.
Proof. cbn [Spec.render Spec.render_step]. by rewrite !app_assoc_s. Qed.

Lemma render_nil (path : string) : path +:+ Spec.render [] = path.
Proof. apply app_nil_r_s. Qed.

Lemma index_items_covers (items : list (string * Value)) (key : string)
    (child w : Value) (steps : list Spec.step) :
  (key, child) ∈ items →
  Spec.at_loc child steps w →
  (∀ path idx,
     is_Some (Done._index_path child path idx !! (path +:+ Spec.render steps))) →
  ∀ path idx,
    is_Some (Done.index_items Done._index_path items path idx
             !! ((path +:+ "." +:+ key) +:+ Spec.render steps)).
Proof.
  intros Hin Hloc Hchild path. induction items as [|[k v] items IH]; intros idx.
  - by apply elem_of_nil in Hin.
  - cbn [Done.index_items]. apply elem_of_cons in Hin as [[= <- <-]|Hin].
    + apply index_items_mono. destruct (is_container child) eqn:Hc.
      * apply Hchild.
      * rewrite (at_loc_scalar _ _ _ Hc Hloc), render_nil. apply insert_has.
    + by apply IH.
Qed.

Lemma index_elems_covers (elems : list Value) (i : nat)
    (child w : Value) (steps : list Spec.step) :
  elems !! i = Some child →
  Spec.at_loc child steps w →
  (∀ path idx,
     is_Some (Done._index_path child path idx !! (path +:+ Spec.render steps))) →
  ∀ index path idx,
    is_Some (Done.index_elems Done._index_path elems index path idx
             !! ((path +:+ "[" +:+ Py.str (index + i) +:+ "]")
                 +:+ Spec.render steps)).
Proof.
  intros Hi Hloc Hchild. revert i Hi.
  induction elems as [|e elems IH]; intros i Hi index path idx; [done|].
  cbn [Done.index_elems]. destruct i as [|i]; simpl in Hi.
  - injection Hi as ->. rewrite Nat.add_0_r.
    apply index_elems_mono. destruct (is_container child) eqn:Hc.
    + apply Hchild.
    + rewrite (at_loc_scalar _ _ _ Hc Hloc), render_nil. apply insert_has.
  - replace (index + S i) with (S index + i) by lia. by apply IH.
Qed.

(** After indexing, every place of the document has its entry. *)
Lemma index_path_covers (obj w : Value) (steps : list Spec.step) :
  Spec.at_loc obj steps w →
  ∀ path idx,
    is_Some (Done._index_path obj path idx !! (path +:+ Spec.render steps)).
Proof.
  induction 1 as [v|items key child steps w Hin Hloc IH
                  |elems index child steps w Hi Hloc IH]; intros path idx.
  - rewrite render_nil. apply index_path_self.
  - rewrite render_cons_key. cbn [Done._index_path].
    by apply (index_items_covers items key child w).
  - rewrite render_cons_index. cbn [Done._index_path].
    by apply (index_elems_covers elems index child w steps Hi Hloc IH 0).
Qed.

(** ** What an extraction attempt sees *)

Lemma events_items_mono_if (items : list (string * Value)) :
  Forall (λ kv, ∀ path idx ev k, ev ∈ Trace.events kv.2 path idx →
                is_Some (idx !! k) → is_Some (ev.2 !! k)) items →
  ∀ path idx ev k, ev ∈ Trace.events_items Trace.events items path idx →
    is_Some (idx !! k) → is_Some (ev.2 !! k).
Proof.
  induction 1 as [|[key value] items Hv _ IH]; intros path idx ev k Hev Hk.
  - by apply elem_of_nil in Hev.
  - cbn [Trace.events_items] in Hev. destruct (is_container value).
    + apply elem_of_app in Hev as [Hev|Hev].
      * apply (Hv _ _ _ _ Hev). by apply insert_keeps.
      * apply (IH _ _ _ _ Hev). by apply index_path_mono, insert_keeps.
    + apply (IH _ _ _ _ Hev). by apply insert_keeps.
Qed.

Lemma events_elems_mono_if (elems : list Value) :
  Forall (λ e, ∀ path idx ev k, ev ∈ Trace.events e path idx →
               is_Some (idx !! k) → is_Some (ev.2 !! k)) elems →
  ∀ index path idx ev k,
    ev ∈ Trace.events_elems Trace.events elems index path idx →
    is_Some (idx !! k) → is_Some (ev.2 !! k).
Proof.
  induction 1 as [|item elems Hv _ IH]; intros index path idx ev k Hev Hk.
  - by apply elem_of_nil in Hev.
  - cbn [Trace.events_elems] in Hev. destruct (is_container item).
    + apply elem_of_app in Hev as [Hev|Hev].
      * apply (Hv _ _ _ _ Hev). by apply insert_keeps.
      * apply (IH _ _ _ _ _ Hev). by apply index_path_mono, insert_keeps.
    + apply (IH _ _ _ _ _ Hev). by apply insert_keeps.
Qed.

(** The index an attempt sees holds all that was there when the walk of the
    node began. *)
Lemma events_mono (obj : Value) (path : string) (idx : gmap string Value)
    (ev : Trace.event) (k : string) :
  ev ∈ Trace.events obj path idx →
  is_Some (idx !! k) → is_Some (ev.2 !! k).
Proof.
  revert path idx ev k.
  induction obj as [| | | |elems IH|items IH] using Value_ind_nested;
    intros path idx ev k Hev Hk; cbn [Trace.events] in Hev;
    try (by apply elem_of_nil in Hev).
  - apply (events_elems_mono_if _ IH _ _ _ _ _ Hev). by apply insert_keeps.
  - apply elem_of_app in Hev as [Hev|Hev].
    + apply (events_items_mono_if _ IH _ _ _ _ Hev). by apply insert_keeps.
    + apply list_elem_of_singleton in Hev as ->. simpl.
      by apply index_items_mono, insert_keeps.
Qed.

(** ... and the entry of the node itself. *)
Lemma events_self (obj : Value) (path : string) (idx : gmap string Value)
    (ev : Trace.event) :
  ev ∈ Trace.events obj path idx → is_Some (ev.2 !! path).
Proof.
  intros Hev. destruct obj; cbn [Trace.events] in Hev;
    try (by apply elem_of_nil in Hev).
  - eapply events_elems_mono_if; [|exact Hev|apply insert_has].
    apply Forall_forall. intros e _ p i ev' k. apply events_mono.
  - apply elem_of_app in Hev as [Hev|Hev].
    + eapply events_items_mono_if; [|exact Hev|apply insert_has].
      apply Forall_forall. intros e _ p i ev' k. apply events_mono.
    + apply list_elem_of_singleton in Hev as ->. simpl.
      apply index_items_mono, insert_has.
Qed.

Section EventPlace.
(** The attempt [ev], made in a walk that began at [obj] under [path]:
    it is at a mapping node of [obj], its path is the path of that node,
    and the index it is given holds the node, every node above it and every
    place below it. *)
Local Abbreviation event_ok obj path ev :=
  (∃ steps,
     Spec.at_loc obj steps (VDict ev.1.1) ∧
     ev.1.2 = path +:+ Spec.render steps ∧
     (∀ pre suf, steps = pre ++ suf →
                 is_Some (ev.2 !! (path +:+ Spec.render pre))) ∧
     (∀ ext w, Spec.at_loc (VDict ev.1.1) ext w →
               is_Some (ev.2 !! (ev.1.2 +:+ Spec.render ext)))).

Lemma events_items_place (items : list (string * Value)) :
  Forall (λ kv, ∀ path idx ev, ev ∈ Trace.events kv.2 path idx →
                event_ok kv.2 path ev) items →
  ∀ path idx ev, ev ∈ Trace.events_items Trace.events items path idx →
    ∃ key child, (key, child) ∈ items ∧
                 event_ok child (path +:+ "." +:+ key) ev.
Proof.
  induction 1 as [|[key value] items Hv _ IH]; intros path idx ev Hev.
  - by apply elem_of_nil in Hev.
  - cbn [Trace.events_items] in Hev.
    assert (∀ idx', ev ∈ Trace.events_items Trace.events items path idx' →
              ∃ key0 child, (key0, child) ∈ (key, value) :: items ∧
                event_ok child (path +:+ "." +:+ key0) ev) as Hrest.
    { intros idx' Hev'. destruct (IH _ _ _ Hev') as (k & c & Hin & Hok).
      exists k, c. split; [by apply elem_of_cons; right|done]. }
    destruct (is_container value); [|by eapply Hrest].
    apply elem_of_app in Hev as [Hev|Hev]; [|by eapply Hrest].
    exists key, value. split; [by apply elem_of_cons; left|].
    by apply Hv in Hev.
Qed.

Lemma events_elems_place (elems : list Value) :
  Forall (λ e, ∀ path idx ev, ev ∈ Trace.events e path idx →
               event_ok e path ev) elems →
  ∀ index path idx ev,
    ev ∈ Trace.events_elems Trace.events elems index path idx →
    ∃ i child, elems !! i = Some child ∧
               event_ok child (path +:+ "[" +:+ Py.str (index + i) +:+ "]") ev.
Proof.
  induction 1 as [|item elems Hv _ IH]; intros index path idx ev Hev.
  - by apply elem_of_nil in Hev.
  - cbn [Trace.events_elems] in Hev.
    assert (∀ idx', ev ∈ Trace.events_elems Trace.events elems (S index)
                           path idx' →
              ∃ i child, (item :: elems) !! i = Some child ∧
                event_ok child
                  (path +:+ "[" +:+ Py.str (index + i) +:+ "]") ev) as Hrest.
    { intros idx' Hev'. destruct (IH _ _ _ _ Hev') as (i & c & Hi & Hok).
      exists (S i), c. split; [done|].
      by replace (index + S i) with (S index + i) by lia. }
    destruct (is_container item); [|by eapply Hrest].
    apply elem_of_app in Hev as [Hev|Hev]; [|by eapply Hrest].
    exists 0, item. split; [done|]. rewrite Nat.add_0_r.
    by apply Hv in Hev.
Qed.

Lemma events_place (obj : Value) (path : string) (idx : gmap string Value)
    (ev : Trace.event) :
  ev ∈ Trace.events obj path idx → event_ok obj path ev.
Proof.
  revert path idx ev.
  induction obj as [| | | |elems IH|items IH] using Value_ind_nested;
    intros path idx ev Hev; pose proof (events_self _ _ _ _ Hev) as Hself;
    cbn [Trace.events] in Hev; try (by apply elem_of_nil in Hev).
  - apply (events_elems_place _ IH) in Hev
      as (i & child & Hi & steps & Hloc & HP & Hpre & Hsub).
    exists (Spec.SIdx i :: steps). split; [by econstructor|].
    split; [by rewrite render_cons_index|]. split; [|done].
    intros [|s pre] suf E.
    + by rewrite render_nil.
    + injection E as <- E. rewrite render_cons_index. by eapply Hpre.
  - apply elem_of_app in Hev as [Hev|Hev].
    + apply (events_items_place _ IH) in Hev
        as (key & child & Hin & steps & Hloc & HP & Hpre & Hsub).
      exists (Spec.SKey key :: steps). split; [by econstructor|].
      split; [by rewrite render_cons_key|]. split; [|done].
      intros [|s pre] suf E.
      * by rewrite render_nil.
      * injection E as <- E. rewrite render_cons_key. by eapply Hpre.
    + apply list_elem_of_singleton in Hev as ->. cbn [fst snd] in *.
      exists []. split; [constructor|]. split; [by rewrite render_nil|].
      split.
      * intros pre suf E. symmetry in E. apply app_eq_nil in E as [-> _].
        by rewrite render_nil.
      * intros ext w Hext.
        apply (index_path_covers (VDict items) w ext Hext path idx).
Qed.
End EventPlace.

(** C5.  A walk (the one text of [walk] in [done.py] and [_parsing_walk] in
    [final_rendition.py]) is the indexing of [_index_path] followed by its
    extraction attempts; and every attempt is made at a mapping node of the
    document, under that node's path, with an index that already holds an
    entry for the node, for every node above it up to the root of the walk,
    and for every place of the subtree below it.  This holds whatever is
    called at the nodes and whatever the index held before. *)
Theorem extraction_sees_ancestors_and_subtree {X A : Type}
    (extract : list (string * Value) → string → gmap string Value → A → res X A)
    (doc : Value) (root : string) (idx : gmap string Value) (acc : A) :
  walk extract doc root idx acc =
    (Trace.replay extract (Trace.events doc root idx) acc
       ≫= λ acc', Ok (Done._index_path doc root idx, acc')) ∧
  ∀ n items path idx',
    Trace.events doc root idx !! n = Some (items, path, idx') →
    ∃ steps,
      Spec.at_loc doc steps (VDict items) ∧
      path = root +:+ Spec.render steps ∧
      (∀ pre suf, steps = pre ++ suf →
                  is_Some (idx' !! (root +:+ Spec.render pre))) ∧
      (∀ ext w, Spec.at_loc (VDict items) ext w →
                is_Some (idx' !! (path +:+ Spec.render ext))).
Proof.
  split; [apply walk_replay|].
  intros n items path idx' Hn.
  apply (events_place doc root idx (items, path, idx')).
  by eapply list_elem_of_lookup_2.
Qed.

Lemma extraction_sees_ancestors_and_subtree_witness :
  ∃ ev, Trace.events Sample.small "root" ∅ !! 0 = Some ev ∧
    ∃ steps,
      Spec.at_loc Sample.small steps (VDict ev.1.1) ∧
      ev.1.2 = "root" +:+ Spec.render steps ∧
      (∀ pre suf, steps = pre ++ suf →
                  is_Some (ev.2 !! ("root" +:+ Spec.render pre))) ∧
      (∀ ext w, Spec.at_loc (VDict ev.1.1) ext w →
                is_Some (ev.2 !! (ev.1.2 +:+ Spec.render ext))).
Proof.
  eexists. split; [vm_compute; reflexivity|].
  eapply (proj2 (extraction_sees_ancestors_and_subtree
                   (X:=Empty_set) (A:=unit) (λ _ _ _ a, Ok a)
                   Sample.small "root" ∅ tt) 0).
  vm_compute. reflexivity.
Defined.

(** ** The results and errors of a walk: [done.py] *)

Section DoneOutcome.
Context {Row FE : Type}.
Variable validate : ModelCls → Record → FE + Row.

Lemma done_for_specs_spec (obj : list (string * Value)) (path : string)
    (idx : gmap string Value) (specs : list Done.ModelSpec)
    (R : gmap string (list Row)) (E : list (Error FE)) :
  (∀ spec, spec ∈ specs → is_Some (R !! Done.path_pattern spec)) →
  ∃ R',
    Done.for_specs validate obj path idx specs (R, E) =
      Ok (R', E ++ omap (Outcome.error_of validate)
                     (Outcome.attempts_at specs (obj, path, idx))) ∧
    ∀ t, R' !! t =
         (λ rows, rows ++ omap (Outcome.row_of validate t)
                            (Outcome.attempts_at specs (obj, path, idx)))
           <$> R !! t.
Proof.
  revert R E. induction specs as [|spec specs IH]; intros R E Hkeys.
  - exists R. split; [by rewrite app_nil_r|].
    intros t. destruct (R !! t); simpl; [by rewrite app_nil_r|done].
  - cbn [Done.for_specs]. unfold Done.extract_one.
    replace (Outcome.attempts_at (spec :: specs) (obj, path, idx))
      with (match Outcome.attempt_of (obj, path, idx) spec with
            | Some a => a :: Outcome.attempts_at specs (obj, path, idx)
            | None => Outcome.attempts_at specs (obj, path, idx)
            end) by done.
    unfold Outcome.attempt_of. cbn [fst snd].
    assert (∀ spec0, spec0 ∈ specs → is_Some (R !! Done.path_pattern spec0))
      as Hkeys' by (intros; apply Hkeys; by apply elem_of_cons; right).
    destruct (path_matches path (Done.path_pattern spec)) eqn:Hm.
    + destruct (Hkeys spec) as [rows Hrows]; [by apply elem_of_cons; left|].
      rewrite Hrows.
      set (data := Done._build_model_data obj path spec idx).
      cbn [omap list_omap]. unfold Outcome.error_of at 1. cbn [fst snd].
      destruct (validate (Done.model_cls spec) data) as [e|row] eqn:Hv.
      * rewrite bind_Ok.
        destruct (IH R (E ++ [mkError path (Done.path_pattern spec) e]) Hkeys')
          as (R' & -> & HR').
        exists R'. split; [by rewrite <-app_assoc|].
        intros t. rewrite HR'. unfold Outcome.row_of at 2. cbn [fst snd].
        rewrite Hv. by case_decide.
      * rewrite bind_Ok.
        destruct (IH (<[Done.path_pattern spec := rows ++ [row]]> R) E)
          as (R' & -> & HR').
        { intros spec0 Hin. apply lookup_insert_is_Some.
          destruct (decide (Done.path_pattern spec = Done.path_pattern spec0));
            auto. }
        exists R'. split; [done|].
        intros t. rewrite HR'. unfold Outcome.row_of at 2. cbn [fst snd].
        rewrite Hv. case_decide as Ht.
        -- subst t. rewrite lookup_insert_eq, Hrows. simpl.
           by rewrite <-app_assoc.
        -- by rewrite lookup_insert_ne.
    + rewrite bind_Ok. apply (IH R E Hkeys').
Qed.

Lemma done_replay_spec (specs : list Done.ModelSpec) (evs : list Trace.event)
    (R : gmap string (list Row)) (E : list (Error FE)) :
  (∀ spec, spec ∈ specs → is_Some (R !! Done.path_pattern spec)) →
  ∃ R',
    Trace.replay (Done._extract_models_at_path validate specs) evs (R, E) =
      Ok (R', E ++ omap (Outcome.error_of validate)
                     (Outcome.attempts specs evs)) ∧
    ∀ t, R' !! t =
         (λ rows, rows ++ omap (Outcome.row_of validate t)
                            (Outcome.attempts specs evs))
           <$> R !! t.
Proof.
  revert R E. induction evs as [|[[obj path] idx] evs IH]; intros R E Hkeys.
  - exists R. split; [by rewrite app_nil_r|].
    intros t. destruct (R !! t); simpl; [by rewrite app_nil_r|done].
  - cbn [Trace.replay].
    destruct (done_for_specs_spec obj path idx specs R E Hkeys)
      as (R1 & HR1eq & HR1).
    change (Done._extract_models_at_path validate specs obj path idx (R, E))
      with (Done.for_specs validate obj path idx specs (R, E)).
    rewrite HR1eq, bind_Ok.
    destruct (IH R1 (E ++ omap (Outcome.error_of validate)
                            (Outcome.attempts_at specs (obj, path, idx))))
      as (R' & -> & HR').
    { intros spec Hin. rewrite HR1. apply fmap_is_Some. auto. }
    exists R'. unfold Outcome.attempts. cbn [mbind list_bind].
    fold (Outcome.attempts specs evs).
    change (evs ≫= Outcome.attempts_at specs) with (Outcome.attempts specs evs).
    rewrite !omap_app. split; [by rewrite <-app_assoc|].
    intros t. rewrite HR', HR1. destruct (R !! t); simpl; [|done].
    by rewrite omap_app, app_assoc.
Qed.

Lemma done_empty_results (specs : list Done.ModelSpec) (t : string) :
  Done.empty_results (Row:=Row) specs !! t =
  if decide (t ∈ Done.path_pattern <$> specs) then Some [] else None.
Proof.
  unfold Done.empty_results.
  assert (∀ d : gmap string (list Row),
            foldl (λ d spec, <[Done.path_pattern spec := []]> d) d specs !! t =
            if decide (t ∈ Done.path_pattern <$> specs) then Some []
            else d !! t) as H.
  { induction specs as [|spec specs IH]; intros d.
    - cbn [foldl]. by rewrite decide_False by apply not_elem_of_nil.
    - cbn [foldl]. rewrite IH, fmap_cons.
      destruct (decide (t ∈ Done.path_pattern <$> specs)) as [Hin|Hin].
      + by rewrite decide_True by (by apply elem_of_cons; right).
      + destruct (decide (Done.path_pattern spec = t)) as [<-|Hne].
        * rewrite lookup_insert_eq.
          by rewrite decide_True by (by apply elem_of_cons; left).
        * rewrite lookup_insert_ne by done.
          rewrite decide_False; [done|].
          intros [?|?]%elem_of_cons; congruence. }
  rewrite H. by case_decide.
Qed.

(** [extract_model_data] returns, and what it returns is every record of
    the walk sorted by what the validator said of it. *)
Lemma done_extract_model_data_spec (doc : Value) (specs : list Done.ModelSpec) :
  ∃ R,
    Done.extract_model_data validate doc specs =
      Ok (R, omap (Outcome.error_of validate)
               (Outcome.attempts specs (Trace.events doc "root" ∅))) ∧
    ∀ t, R !! t =
         if decide (t ∈ Done.path_pattern <$> specs)
         then Some (omap (Outcome.row_of validate t)
                      (Outcome.attempts specs (Trace.events doc "root" ∅)))
         else None.
Proof.
  unfold Done.extract_model_data. rewrite walk_replay.
  destruct (done_replay_spec specs (Trace.events doc "root" ∅)
              (Done.empty_results specs) []) as (R & -> & HR).
  { intros spec Hin. rewrite done_empty_results.
    rewrite decide_True; [eauto|]. by apply list_elem_of_fmap_2. }
  exists R. split; [done|].
  intros t. rewrite HR, done_empty_results. by case_decide.
Qed.
End DoneOutcome.

(** ** The results and errors of a walk: [final_rendition.py] *)

Section FinalOutcome.
Context {Row FE : Type}.
Variable validate : ModelCls → Record → FE + Row.

Lemma final_for_specs_spec (c : Final.Compiled)
    (obj : list (string * Value)) (path : string)
    (idx : gmap string Value) (entries : list (string * Final.ModelSpec))
    (R : gmap string (list Row)) (E : list (Error FE)) :
  (∀ name spec, (name, spec) ∈ entries →
     is_Some (R !! name) ∧
     is_Some (Final.model_fields_cache c !! cls_name (Final.data_model spec)) ∧
     is_Some (Final.model_adapters c !! name)) →
  ∃ R',
    Final.for_specs validate c path idx entries (R, E) =
      Ok (R', E ++ omap (Outcome.ferror_of validate)
                     (omap (Outcome.fattempt_of c (obj, path, idx)) entries)) ∧
    ∀ t, R' !! t =
         (λ rows, rows ++ omap (Outcome.frow_of validate t)
                            (omap (Outcome.fattempt_of c (obj, path, idx))
                               entries))
           <$> R !! t.
Proof.
  revert R E. induction entries as [|[name spec] entries IH]; intros R E Hkeys.
  - exists R. split; [by rewrite app_nil_r|].
    intros t. destruct (R !! t); simpl; [by rewrite app_nil_r|done].
  - cbn [Final.for_specs]. unfold Final.extract_one.
    replace (omap (Outcome.fattempt_of c (obj, path, idx))
               ((name, spec) :: entries))
      with (match Outcome.fattempt_of c (obj, path, idx) (name, spec) with
            | Some a => a :: omap (Outcome.fattempt_of c (obj, path, idx)) entries
            | None => omap (Outcome.fattempt_of c (obj, path, idx)) entries
            end) by done.
    unfold Outcome.fattempt_of. cbn [fst snd].
    assert (∀ name0 spec0, (name0, spec0) ∈ entries →
              is_Some (R !! name0) ∧
              is_Some (Final.model_fields_cache c
                         !! cls_name (Final.data_model spec0)) ∧
              is_Some (Final.model_adapters c !! name0))
      as Hkeys' by (intros; apply Hkeys; by apply elem_of_cons; right).
    destruct (path_matches path (Final.json_path_pattern spec)) eqn:Hm.
    + destruct (Hkeys name spec) as ([rows Hrows] & [fields Hf] & [adapter Ha]);
        [by apply elem_of_cons; left|].
      unfold Final._parsing_build_model_data. rewrite Hf, bind_Ok, Ha, Hrows.
      cbn [mbind option_bind]. 
      set (data := map (Final.field_value idx path) fields).
      cbn [omap list_omap]. unfold Outcome.ferror_of at 1. cbn [fst snd].
      destruct (validate adapter data) as [e|row] eqn:Hv.
      * destruct (IH R (E ++ [mkError path name e]) Hkeys')
          as (R' & -> & HR').
        exists R'. split; [by rewrite <-app_assoc|].
        intros t. rewrite HR'. unfold Outcome.frow_of at 2. cbn [fst snd].
        rewrite Hv. by case_decide.
      * destruct (IH (<[name := rows ++ [row]]> R) E) as (R' & -> & HR').
        { intros name0 spec0 Hin. destruct (Hkeys' _ _ Hin) as (? & ? & ?).
          split; [|done]. apply lookup_insert_is_Some.
          destruct (decide (name = name0)); auto. }
        exists R'. split; [done|].
        intros t. rewrite HR'. unfold Outcome.frow_of at 2. cbn [fst snd].
        rewrite Hv. case_decide as Ht.
        -- subst t. rewrite lookup_insert_eq, Hrows. simpl.
           by rewrite <-app_assoc.
        -- by rewrite lookup_insert_ne.
    + apply (IH R E Hkeys').
Qed.

Lemma final_replay_spec (c : Final.Compiled) (evs : list Trace.event)
    (R : gmap string (list Row)) (E : list (Error FE)) :
  (∀ name spec, (name, spec) ∈ Final.model_specs c →
     is_Some (R !! name) ∧
     is_Some (Final.model_fields_cache c !! cls_name (Final.data_model spec)) ∧
     is_Some (Final.model_adapters c !! name)) →
  ∃ R',
    Trace.replay (Final._parsing_extract_models_at_path validate c) evs (R, E) =
      Ok (R', E ++ omap (Outcome.ferror_of validate) (Outcome.fattempts c evs)) ∧
    ∀ t, R' !! t =
         (λ rows, rows ++ omap (Outcome.frow_of validate t)
                            (Outcome.fattempts c evs))
           <$> R !! t.
Proof.
  revert R E. induction evs as [|[[obj path] idx] evs IH]; intros R E Hkeys.
  - exists R. split; [by rewrite app_nil_r|].
    intros t. destruct (R !! t); simpl; [by rewrite app_nil_r|done].
  - cbn [Trace.replay].
    destruct (final_for_specs_spec c obj path idx (Final.model_specs c) R E Hkeys)
      as (R1 & HR1eq & HR1).
    change (Final._parsing_extract_models_at_path validate c obj path idx (R, E))
      with (Final.for_specs validate c path idx (Final.model_specs c) (R, E)).
    rewrite HR1eq, bind_Ok.
    change (omap (Outcome.fattempt_of c (obj, path, idx)) (Final.model_specs c))
      with (Outcome.fattempts_at c (obj, path, idx)) in *.
    destruct (IH R1 (E ++ omap (Outcome.ferror_of validate)
                            (Outcome.fattempts_at c (obj, path, idx))))
      as (R' & -> & HR').
    { intros name spec Hin. destruct (Hkeys _ _ Hin) as (? & ? & ?).
      split; [|done]. rewrite HR1. by apply fmap_is_Some. }
    exists R'. unfold Outcome.fattempts. cbn [mbind list_bind].
    change (evs ≫= Outcome.fattempts_at c) with (Outcome.fattempts c evs).
    rewrite !omap_app. split; [by rewrite <-app_assoc|].
    intros t. rewrite HR', HR1. destruct (R !! t); simpl; [|done].
    by rewrite omap_app, app_assoc.
Qed.

Lemma final_empty_results (c : Final.Compiled) (t : string) :
  Final.empty_results (Row:=Row) c !! t =
  if decide (t ∈ (Final.model_specs c).*1) then Some [] else None.
Proof.
  unfold Final.empty_results.
  assert (∀ (l : list (string * Final.ModelSpec)) (d : gmap string (list Row)),
            foldl (λ d entry, <[entry.1 := []]> d) d l !! t =
            if decide (t ∈ l.*1) then Some [] else d !! t) as H.
  { induction l as [|[name spec] l IH]; intros d.
    - cbn [foldl]. by rewrite decide_False by apply not_elem_of_nil.
    - cbn [foldl]. rewrite IH, fmap_cons. cbn [fst].
      destruct (decide (t ∈ l.*1)) as [Hin|Hin].
      + by rewrite decide_True by (by apply elem_of_cons; right).
      + destruct (decide (name = t)) as [<-|Hne].
        * rewrite lookup_insert_eq.
          by rewrite decide_True by (by apply elem_of_cons; left).
        * rewrite lookup_insert_ne by done.
          rewrite decide_False; [done|].
          intros [?|?]%elem_of_cons; congruence. }
  rewrite H. by case_decide.
Qed.
End FinalOutcome.

(** ** What [__init__] builds *)

Lemma dict_set_keys {V} (k : string) (v : V) (d : list (string * V)) :
  (Final.dict_set k v d).*1 = if decide (k ∈ d.*1) then d.*1 else d.*1 ++ [k].
Proof.
  induction d as [|[k' v'] d IH]; [done|].
  cbn [Final.dict_set]. rewrite fmap_cons. cbn [fst].
  destruct (String.eqb_spec k' k) as [->|Hne].
  - by rewrite decide_True by (by apply elem_of_cons; left).
  - rewrite fmap_cons, IH. cbn [fst]. destruct (decide (k ∈ d.*1)).
    + by rewrite decide_True by (by apply elem_of_cons; right).
    + rewrite decide_False; [done|]. intros [?|?]%elem_of_cons; congruence.
Qed.

Lemma dict_set_NoDup {V} (k : string) (v : V) (d : list (string * V)) :
  NoDup d.*1 → NoDup (Final.dict_set k v d).*1.
Proof.
  intros H. rewrite dict_set_keys. case_decide; [done|].
  apply NoDup_app. split; [done|]. split; [|apply NoDup_singleton].
  intros x Hx ->%list_elem_of_singleton. done.
Qed.

Lemma dict_set_elem {V} (k : string) (v : V) (d : list (string * V))
    (n : string) (s : V) :
  NoDup d.*1 →
  (n, s) ∈ Final.dict_set k v d ↔ (n = k ∧ s = v) ∨ (n ≠ k ∧ (n, s) ∈ d).
Proof.
  induction d as [|[k' v'] d IH]; intros Hd.
  - cbn [Final.dict_set]. rewrite list_elem_of_singleton. split.
    + intros [= -> ->]. by left.
    + intros [[-> ->]|[_ H]]; [done|by apply elem_of_nil in H].
  - rewrite fmap_cons in Hd. apply NoDup_cons in Hd as [Hk' Hd]. cbn [fst] in Hk'.
    cbn [Final.dict_set]. destruct (String.eqb_spec k' k) as [->|Hne].
    + rewrite !elem_of_cons. split.
      * intros [[= -> ->]|Hin]; [by left|]. right. split; [|by right].
        intros ->. apply Hk'. apply list_elem_of_fmap. by exists (k, s).
      * intros [[-> ->]|[Hn [[= ? ?]|Hin]]]; [by left|done|by right].
    + rewrite !elem_of_cons, (IH Hd). split.
      * intros [[= -> ->]|[[-> ->]|[Hn Hin]]]; [right|by left|right]; auto.
      * intros [[-> ->]|[Hn [[= -> ->]|Hin]]]; auto.
  Qed.

Section InitOk.
Context {FE : Type}.

Lemma compile_one_ok (c c' : Final.Compiled) (m : ModelCls) :
  Outcome.compiled_ok FE c →
  Final.compile_one (FE:=FE) c m = Ok c' →
  Outcome.compiled_ok FE c'.
Proof.
  intros [Hnd Hall]. unfold Final.compile_one.
  destruct (Final.collect_fields (model_fields m) []) as [fields|e] eqn:Hf;
    [|done].
  rewrite bind_Ok.
  destruct (match map (λ f, f.1.2) (filter (λ f, f.2 = true) fields) with
            | [] => _ | _ :: _ => _ end) as [pattern|e] eqn:Hp; [|done].
  rewrite bind_Ok. intros [= <-]. split; cbn [Final.model_specs].
  - by apply dict_set_NoDup.
  - intros name spec Hin. apply dict_set_elem in Hin; [|done].
    destruct Hin as [[-> ->]|[Hne Hin]];
      cbn [Final.model_adapters Final.model_fields_cache
           Final.data_model Final.json_path_pattern].
    + split; [done|]. split; [by rewrite lookup_insert_eq|].
      exists fields. split; [done|]. split; [by rewrite lookup_insert_eq|].
      rewrite <-Hp. unfold Outcome.pattern_of.
      by destruct (map _ (filter _ fields)).
    + destruct (Hall _ _ Hin) as (Hname & Ha & fields' & Hc & Hcache & Hpat).
      split; [done|]. split; [by rewrite lookup_insert_ne|].
      exists fields'. split; [done|]. split; [by rewrite lookup_insert_ne|done].
Qed.

Lemma create_specs_ok (c c' : Final.Compiled) (data_models : list ModelCls) :
  Outcome.compiled_ok FE c →
  Final._model_specs_create_specs_and_adapters (FE:=FE) c data_models = Ok c' →
  Outcome.compiled_ok FE c'.
Proof.
  revert c. induction data_models as [|m ms IH]; intros c Hc.
  - by intros [= <-].
  - cbn [Final._model_specs_create_specs_and_adapters].
    destruct (Final.compile_one c m) as [c1|e] eqn:H1; [|done].
    rewrite bind_Ok. apply IH. by eapply compile_one_ok.
Qed.

Lemma empty_compiled_ok : Outcome.compiled_ok FE (Final.mkCompiled [] ∅ ∅).
Proof.
  split; [constructor|]. intros name spec Hin. by apply elem_of_nil in Hin.
Qed.
End InitOk.

(** ** [_parsing_walk], [parse] and [parse_batch] *)

Section FinalParse.
Context {Row FE : Type}.
Variable validate : ModelCls → Record → FE + Row.

Local Abbreviation keys_ok self :=
  (∀ name spec, (name, spec) ∈ Final.model_specs (Final.compiled self) →
     is_Some (Final.results self !! name)).

Lemma compiled_ok_lookups (c : Final.Compiled) (R : gmap string (list Row)) :
  Outcome.compiled_ok FE c →
  (∀ name spec, (name, spec) ∈ Final.model_specs c → is_Some (R !! name)) →
  ∀ name spec, (name, spec) ∈ Final.model_specs c →
    is_Some (R !! name) ∧
    is_Some (Final.model_fields_cache c !! cls_name (Final.data_model spec)) ∧
    is_Some (Final.model_adapters c !! name).
Proof.
  intros [_ Hall] HR name spec Hin.
  destruct (Hall _ _ Hin) as (Hname & Ha & fields & _ & Hc & _).
  split; [by eapply HR|]. rewrite <-Hname. eauto.
Qed.

(** A walk on a parser that [__init__] made raises nothing; it adds the
    entries of the document to the index that is there, the failures to
    the errors that are there and the rows to the results that are
    there. *)
Lemma final_walk_spec (self : Final.JSONParser (Row:=Row) (FE:=FE)) (doc : Value) :
  Outcome.compiled_ok FE (Final.compiled self) →
  keys_ok self →
  ∃ R',
    Final._parsing_walk validate self doc =
      (Final.mkParser (Final.compiled self) R'
         (Final.errors self ++
          omap (Outcome.ferror_of validate)
            (Outcome.fattempts (Final.compiled self)
               (Trace.events doc "root" (Final.indexed_cache self))))
         (Done._index_path doc "root" (Final.indexed_cache self)),
       None) ∧
    ∀ t, R' !! t =
         (λ rows, rows ++
            omap (Outcome.frow_of validate t)
              (Outcome.fattempts (Final.compiled self)
                 (Trace.events doc "root" (Final.indexed_cache self))))
           <$> Final.results self !! t.
Proof.
  intros Hc Hk. unfold Final._parsing_walk. rewrite walk_replay.
  destruct (final_replay_spec validate (Final.compiled self)
              (Trace.events doc "root" (Final.indexed_cache self))
              (Final.results self) (Final.errors self))
    as (R' & -> & HR'); [by apply compiled_ok_lookups|].
  rewrite bind_Ok. by exists R'.
Qed.

Lemma final_batch_loop_spec (docs : list Value)
    (self : Final.JSONParser (Row:=Row) (FE:=FE)) :
  Outcome.compiled_ok FE (Final.compiled self) →
  keys_ok self →
  ∃ R',
    Final.batch_loop validate self docs =
      (Final.mkParser (Final.compiled self) R'
         (Final.errors self ++
          omap (Outcome.ferror_of validate)
            (Outcome.fattempts (Final.compiled self)
               (Trace.events_batch docs (Final.indexed_cache self))))
         (Trace.index_batch docs (Final.indexed_cache self)),
       None) ∧
    ∀ t, R' !! t =
         (λ rows, rows ++
            omap (Outcome.frow_of validate t)
              (Outcome.fattempts (Final.compiled self)
                 (Trace.events_batch docs (Final.indexed_cache self))))
           <$> Final.results self !! t.
Proof.
  revert self. induction docs as [|doc docs IH]; intros self Hc Hk.
  - exists (Final.results self). cbn [Final.batch_loop Trace.events_batch
      Trace.index_batch]. split.
    + destruct self. cbn. by rewrite app_nil_r.
    + intros t. cbn. destruct (Final.results self !! t); simpl;
        [by rewrite app_nil_r|done].
  - cbn [Final.batch_loop Trace.events_batch Trace.index_batch].
    destruct (final_walk_spec self doc Hc Hk) as (R1 & -> & HR1).
    destruct (IH (Final.mkParser (Final.compiled self) R1
                    (Final.errors self ++
                     omap (Outcome.ferror_of validate)
                       (Outcome.fattempts (Final.compiled self)
                          (Trace.events doc "root" (Final.indexed_cache self))))
                    (Done._index_path doc "root" (Final.indexed_cache self))))
      as (R' & -> & HR'); [done|..].
    { intros name spec Hin. cbn. rewrite HR1. apply fmap_is_Some. by eapply Hk. }
    cbn [Final.compiled Final.errors Final.indexed_cache Final.results] in *.
    exists R'. unfold Outcome.fattempts. rewrite bind_app, !omap_app.
    split; [by rewrite <-app_assoc|].
    intros t. rewrite HR', HR1.
    destruct (Final.results self !! t); simpl; [|done].
    by rewrite omap_app, app_assoc.
Qed.

Lemma final_reset_keys (self : Final.JSONParser (Row:=Row) (FE:=FE))
    (E : list (Error FE)) (idx : gmap string Value) :
  keys_ok (Final.mkParser (Row:=Row) (Final.compiled self)
             (Final.empty_results (Final.compiled self)) E idx).
Proof.
  intros name spec Hin. cbn in *. rewrite final_empty_results.
  rewrite decide_True; [eauto|]. apply list_elem_of_fmap. by exists (name, spec).
Qed.

(** [parse]: the index is that of the document alone, the results are the
    rows of its records, the errors are those the parser already had and
    then those of its records; and [parse] raises them when there are
    any. *)
Lemma final_parse_spec (self : Final.JSONParser (Row:=Row) (FE:=FE)) (doc : Value) :
  Outcome.compiled_ok FE (Final.compiled self) →
  let A := Outcome.fattempts (Final.compiled self) (Trace.events doc "root" ∅) in
  let E := Final.errors self ++ omap (Outcome.ferror_of validate) A in
  ∃ R',
    (∀ t, R' !! t =
          if decide (t ∈ (Final.model_specs (Final.compiled self)).*1)
          then Some (omap (Outcome.frow_of validate t) A) else None) ∧
    Final.parse validate self doc =
      (Final.mkParser (Final.compiled self) R' E (Done._index_path doc "root" ∅),
       match E with
       | [] => Ok R'
       | _ :: _ => Raise (ValueErrorOf E)
       end).
Proof.
  intros Hc A E. unfold Final.parse.
  cbn [Final.clear_index_cache Final.compiled Final.errors Final.indexed_cache].
  destruct (final_walk_spec
              (Final.mkParser (Final.compiled self)
                 (Final.empty_results (Final.compiled self))
                 (Final.errors self) ∅) doc Hc
              (final_reset_keys self _ _)) as (R' & -> & HR').
  cbn [Final.compiled Final.errors Final.indexed_cache Final.results] in *.
  exists R'. split.
  - intros t. rewrite HR', final_empty_results. by case_decide.
  - fold A. fold E. by destruct E.
Qed.

(** [parse_batch] never raises: it returns the rows of all the documents,
    each walked on the index the documents before it left (and what the
    index held before the call). *)
Lemma final_parse_batch_spec (self : Final.JSONParser (Row:=Row) (FE:=FE))
    (docs : list Value) :
  Outcome.compiled_ok FE (Final.compiled self) →
  let A := Outcome.fattempts (Final.compiled self)
             (Trace.events_batch docs (Final.indexed_cache self)) in
  ∃ R',
    (∀ t, R' !! t =
          if decide (t ∈ (Final.model_specs (Final.compiled self)).*1)
          then Some (omap (Outcome.frow_of validate t) A) else None) ∧
    Final.parse_batch validate self docs =
      (Final.mkParser (Final.compiled self) R'
         (Final.errors self ++ omap (Outcome.ferror_of validate) A)
         (Trace.index_batch docs (Final.indexed_cache self)),
       Ok R').
Proof.
  intros Hc A. unfold Final.parse_batch.
  cbn [Final.clear_batch_results Final.compiled Final.errors
       Final.indexed_cache].
  destruct (final_batch_loop_spec docs
              (Final.mkParser (Final.compiled self)
                 (Final.empty_results (Final.compiled self))
                 (Final.errors self) (Final.indexed_cache self)) Hc
              (final_reset_keys self _ _)) as (R' & -> & HR').
  cbn [Final.compiled Final.errors Final.indexed_cache Final.results] in *.
  exists R'. split; [|done].
  intros t. rewrite HR', final_empty_results. by case_decide.
Qed.

Lemma init_compiled_ok (data_models : list ModelCls)
    (self : Final.JSONParser (Row:=Row) (FE:=FE)) :
  Final.__init__ data_models = Ok self →
  Outcome.compiled_ok FE (Final.compiled self) ∧
  Final.results self = ∅ ∧ Final.errors self = [] ∧
  Final.indexed_cache self = ∅.
Proof.
  unfold Final.__init__.
  destruct (Final._model_specs_create_specs_and_adapters _ data_models)
    as [c|e] eqn:Hc; [|done].
  rewrite bind_Ok. intros [= <-]. split; [|done]. cbn.
  eapply create_specs_ok; [apply empty_compiled_ok|done].
Qed.
End FinalParse.

(** ** Where the rows come from *)

Section Rows.
Context {Row FE : Type}.
Variable validate : ModelCls → Record → FE + Row.

Lemma done_row_origin (specs : list Done.ModelSpec) (evs : list Trace.event)
    (t : string) (row : Row) :
  row ∈ omap (Outcome.row_of validate t) (Outcome.attempts specs evs) →
  ∃ path spec items idx,
    spec ∈ specs ∧ Done.path_pattern spec = t ∧
    (items, path, idx) ∈ evs ∧
    path_matches path (Done.path_pattern spec) = true ∧
    validate (Done.model_cls spec)
      (Done._build_model_data items path spec idx) = inr row.
Proof.
  intros (a & Ha & Hrow)%list_elem_of_omap.
  apply list_elem_of_bind in Ha as ([[items path] idx] & Ha & Hev).
  apply list_elem_of_omap in Ha as (spec & Hspec & Ha).
  unfold Outcome.attempt_of in Ha. cbn [fst snd] in Ha.
  destruct (path_matches path (Done.path_pattern spec)) eqn:Hm; [|done].
  injection Ha as <-. unfold Outcome.row_of in Hrow. cbn [fst snd] in Hrow.
  case_decide as Ht; [|done].
  destruct (validate _ _) as [e|row'] eqn:Hv; [done|]. injection Hrow as ->.
  by exists path, spec, items, idx.
Qed.

Lemma final_row_origin (c : Final.Compiled) (evs : list Trace.event)
    (t : string) (row : Row) :
  Outcome.compiled_ok FE c →
  row ∈ omap (Outcome.frow_of validate t) (Outcome.fattempts c evs) →
  ∃ path spec items idx data,
    (t, spec) ∈ Final.model_specs c ∧
    (items, path, idx) ∈ evs ∧
    path_matches path (Final.json_path_pattern spec) = true ∧
    Final._parsing_build_model_data (FE:=FE) c idx path spec = Ok data ∧
    validate (Final.data_model spec) data = inr row.
Proof.
  intros [_ Hall] (a & Ha & Hrow)%list_elem_of_omap.
  apply list_elem_of_bind in Ha as ([[items path] idx] & Ha & Hev).
  apply list_elem_of_omap in Ha as ([name spec] & Hspec & Ha).
  unfold Outcome.fattempt_of in Ha. cbn [fst snd] in Ha.
  destruct (path_matches path (Final.json_path_pattern spec)) eqn:Hm; [|done].
  destruct (Hall _ _ Hspec) as (Hname & Hadapter & fields & _ & Hcache & _).
  rewrite <-Hname, Hcache, Hadapter in Ha. cbn in Ha. injection Ha as <-.
  unfold Outcome.frow_of in Hrow. cbn [fst snd] in Hrow.
  case_decide as Ht; [|done]. subst t.
  destruct (validate _ _) as [e|row'] eqn:Hv; [done|]. injection Hrow as ->.
  exists path, spec, items, idx, (map (Final.field_value idx path) fields).
  split; [done|]. split; [done|]. split; [done|]. split; [|done].
  unfold Final._parsing_build_model_data. by rewrite <-Hname, Hcache.
Qed.
End Rows.

(** C7.  Every row in the results was assembled at a mapping node whose
    path matches the pattern of the row's table, and is what the validator
    made of the record assembled there: in what [extract_model_data]
    ([done.py]) returns, where a table is named by its pattern; and in the
    results of a parser made by [__init__] ([final_rendition.py]) after
    [parse] and after [parse_batch], where the node is one of the document,
    or of one of the documents of the batch. *)
Theorem rows_only_at_matching_paths {Row FE : Type}
    (validate : ModelCls → Record → FE + Row) :
  (∀ doc specs R E t rows row,
     Done.extract_model_data validate doc specs = Ok (R, E) →
     R !! t = Some rows → row ∈ rows →
     ∃ path spec items idx,
       spec ∈ specs ∧ Done.path_pattern spec = t ∧
       (items, path, idx) ∈ Trace.events doc "root" ∅ ∧
       path_matches path (Done.path_pattern spec) = true ∧
       validate (Done.model_cls spec)
         (Done._build_model_data items path spec idx) = inr row) ∧
  (∀ data_models (self0 self : Final.JSONParser (Row:=Row) (FE:=FE)) doc t rows row,
     Final.__init__ data_models = Ok self0 →
     Final.compiled self = Final.compiled self0 →
     Final.results (Final.parse validate self doc).1 !! t = Some rows →
     row ∈ rows →
     ∃ path spec items idx data,
       (t, spec) ∈ Final.model_specs (Final.compiled self) ∧
       (items, path, idx) ∈ Trace.events doc "root" ∅ ∧
       path_matches path (Final.json_path_pattern spec) = true ∧
       Final._parsing_build_model_data (FE:=FE) (Final.compiled self) idx path spec
         = Ok data ∧
       validate (Final.data_model spec) data = inr row) ∧
  (∀ data_models (self0 self : Final.JSONParser (Row:=Row) (FE:=FE)) docs t rows row,
     Final.__init__ data_models = Ok self0 →
     Final.compiled self = Final.compiled self0 →
     Final.results (Final.parse_batch validate self docs).1 !! t = Some rows →
     row ∈ rows →
     ∃ path spec items idx data,
       (t, spec) ∈ Final.model_specs (Final.compiled self) ∧
       (items, path, idx)
         ∈ Trace.events_batch docs (Final.indexed_cache self) ∧
       path_matches path (Final.json_path_pattern spec) = true ∧
       Final._parsing_build_model_data (FE:=FE) (Final.compiled self) idx path spec
         = Ok data ∧
       validate (Final.data_model spec) data = inr row).
Proof.
  split; [|split].
  - intros doc specs R E t rows row Hx Ht Hrow.
    destruct (done_extract_model_data_spec validate doc specs) as (R0 & HR0 & Hl).
    rewrite HR0 in Hx. injection Hx as <- <-.
    rewrite Hl in Ht. case_decide; [|done]. injection Ht as <-.
    by apply done_row_origin in Hrow.
  - intros data_models self0 self doc t rows row Hinit Hc Ht Hrow.
    apply init_compiled_ok in Hinit as [Hok _]. rewrite <-Hc in Hok.
    destruct (final_parse_spec validate self doc Hok) as (R' & Hl & Hp).
    rewrite Hp in Ht. cbn in Ht. rewrite Hl in Ht.
    case_decide; [|done]. injection Ht as <-.
    by apply final_row_origin in Hrow.
  - intros data_models self0 self docs t rows row Hinit Hc Ht Hrow.
    apply init_compiled_ok in Hinit as [Hok _]. rewrite <-Hc in Hok.
    destruct (final_parse_batch_spec validate self docs Hok) as (R' & Hl & Hp).
    rewrite Hp in Ht. cbn in Ht. rewrite Hl in Ht.
    case_decide; [|done]. injection Ht as <-.
    by apply final_row_origin in Hrow.
Qed.

Lemma rows_only_at_matching_paths_witness :
  ∃ self : Final.JSONParser (Row:=Record) (FE:=list string),
    Final.__init__ [Sample.Invoice; Sample.InvoiceItem] = Ok self ∧
    ∃ rows row,
      Final.results (Final.parse Sample.validate self Sample.invoice).1
        !! "InvoiceItem" = Some rows ∧
      row ∈ rows ∧
      ∃ path spec items idx data,
        ("InvoiceItem", spec) ∈ Final.model_specs (Final.compiled self) ∧
        (items, path, idx) ∈ Trace.events Sample.invoice "root" ∅ ∧
        path_matches path (Final.json_path_pattern spec) = true ∧
        Final._parsing_build_model_data (FE:=list string)
          (Final.compiled self) idx path spec = Ok data ∧
        Sample.validate (Final.data_model spec) data = inr row.
Proof.
  eexists. split; [vm_compute; reflexivity|].
  eexists. eexists. split; [vm_compute; reflexivity|].
  split; [apply list_elem_of_here|].
  eapply (proj1 (proj2 (rows_only_at_matching_paths Sample.validate))
            [Sample.Invoice; Sample.InvoiceItem] _ _ Sample.invoice
            "InvoiceItem").
  - vm_compute. reflexivity.
  - reflexivity.
  - vm_compute. reflexivity.
  - apply list_elem_of_here.
Defined.

(** C1, as amended.  Validation failures are collected while the walk goes
    on: the records a walk assembles do not depend on the validator, every
    one of them gives either a row or an error entry, and no call raises
    because of the walk.  [extract_model_data] ([done.py]) returns the
    results and the errors together.  On a parser made by [__init__] that
    holds no errors, [parse] ([final_rendition.py]) walks the whole document
    and then raises [ValueError] carrying the failures of the call when
    there are any, and returns the results alone when there are none.
    [parse_batch] returns the results alone and does not raise; on such a
    parser with an empty index, a batch of one document gives the rows and
    the failures that [parse] collects, the failures being left in the
    parser's error list. *)
Theorem validation_failures_are_collected {Row FE : Type}
    (validate : ModelCls → Record → FE + Row) :
  (∀ doc specs,
     let A := Outcome.attempts specs (Trace.events doc "root" ∅) in
     ∃ R,
       Done.extract_model_data validate doc specs =
         Ok (R, omap (Outcome.error_of validate) A) ∧
       ∀ t, R !! t =
            if decide (t ∈ Done.path_pattern <$> specs)
            then Some (omap (Outcome.row_of validate t) A) else None) ∧
  (∀ data_models (self0 self : Final.JSONParser (Row:=Row) (FE:=FE)) doc,
     Final.__init__ data_models = Ok self0 →
     Final.compiled self = Final.compiled self0 →
     Final.errors self = [] →
     let A := Outcome.fattempts (Final.compiled self)
                (Trace.events doc "root" ∅) in
     let E := omap (Outcome.ferror_of validate) A in
     ∃ R',
       (∀ t, R' !! t =
             if decide (t ∈ (Final.model_specs (Final.compiled self)).*1)
             then Some (omap (Outcome.frow_of validate t) A) else None) ∧
       Final.errors (Final.parse validate self doc).1 = E ∧
       (Final.parse validate self doc).2 =
         match E with
         | [] => Ok R'
         | _ :: _ => Raise (ValueErrorOf E)
         end) ∧
  (∀ data_models (self0 self : Final.JSONParser (Row:=Row) (FE:=FE)) docs,
     Final.__init__ data_models = Ok self0 →
     Final.compiled self = Final.compiled self0 →
     (Final.parse_batch validate self docs).2 =
       Ok (Final.results (Final.parse_batch validate self docs).1)) ∧
  (∀ data_models (self0 self : Final.JSONParser (Row:=Row) (FE:=FE)) doc,
     Final.__init__ data_models = Ok self0 →
     Final.compiled self = Final.compiled self0 →
     Final.errors self = [] →
     Final.indexed_cache self = ∅ →
     let A := Outcome.fattempts (Final.compiled self)
                (Trace.events doc "root" ∅) in
     ∃ R',
       (∀ t, R' !! t =
             if decide (t ∈ (Final.model_specs (Final.compiled self)).*1)
             then Some (omap (Outcome.frow_of validate t) A) else None) ∧
       Final.errors (Final.parse_batch validate self [doc]).1 =
         omap (Outcome.ferror_of validate) A ∧
       (Final.parse_batch validate self [doc]).2 = Ok R').
Proof.
  split; [|split; [|split]].
  - intros doc specs. apply done_extract_model_data_spec.
  - intros data_models self0 self doc Hinit Hc He.
    apply init_compiled_ok in Hinit as [Hok _]. rewrite <-Hc in Hok.
    destruct (final_parse_spec validate self doc Hok) as (R' & HR' & ->).
    rewrite He. exists R'. by cbn.
  - intros data_models self0 self docs Hinit Hc.
    apply init_compiled_ok in Hinit as [Hok _]. rewrite <-Hc in Hok.
    by destruct (final_parse_batch_spec validate self docs Hok)
      as (R' & HR' & ->).
  - intros data_models self0 self doc Hinit Hc He Hidx.
    apply init_compiled_ok in Hinit as [Hok _]. rewrite <-Hc in Hok.
    destruct (final_parse_batch_spec validate self [doc] Hok)
      as (R' & HR' & ->).
    rewrite He, Hidx in *. cbn [Trace.events_batch] in *.
    rewrite app_nil_r in *. exists R'. by cbn.
Qed.

Lemma validation_failures_are_collected_witness :
  ∃ self : Final.JSONParser (Row:=Record) (FE:=list string),
    Final.__init__ [Sample.Invoice; Sample.InvoiceItem;
                    Sample.InvoiceItemTransaction] = Ok self ∧
    ∃ R',
      Final.errors (Final.parse_batch Sample.validate self [Sample.invoice]).1 =
        omap (Outcome.ferror_of Sample.validate)
          (Outcome.fattempts (Final.compiled self)
             (Trace.events Sample.invoice "root" ∅)) ∧
      (Final.parse_batch Sample.validate self [Sample.invoice]).2 = Ok R'.
Proof.
  eexists. split; [vm_compute; reflexivity|].
  destruct (proj2 (proj2 (proj2
              (validation_failures_are_collected Sample.validate)))
              [Sample.Invoice; Sample.InvoiceItem; Sample.InvoiceItemTransaction]
              _ _ Sample.invoice ltac:(vm_compute; reflexivity) eq_refl
              eq_refl eq_refl)
    as (R' & _ & H).
  exists R'. exact H.
Defined.

(** C1 as it is worded fails for [parse]: one transaction of the sample
    invoice has no amount, and the call raises. *)
Lemma parse_raises_counterexample :
  ∃ (self : Final.JSONParser (Row:=Record) (FE:=list string)) errors,
    Final.__init__ [Sample.Invoice; Sample.InvoiceItem;
                    Sample.InvoiceItemTransaction] = Ok self ∧
    (Final.parse Sample.validate self Sample.invoice).2
      = Raise (ValueErrorOf errors) ∧
    errors = [mkError "root.invoice_items[0].transactions[1]"
                "InvoiceItemTransaction" ["amount"]].
Proof.
  eexists. eexists. split; [vm_compute; reflexivity|].
  split; [vm_compute; reflexivity|reflexivity].
Qed.

(** C2 does not hold of the code.  [parse_batch] never empties the index:
    the second document of the batch below has neither [total_amount] nor
    [geo], and its row is filled with those of the first document, where a
    [parse] of it alone reports the three fields missing.  And nothing
    empties the error list: after that failed [parse], a [parse] of a
    document with nothing wrong raises the old error. *)
Lemma index_and_errors_outlive_a_call :
  ∃ self : Final.JSONParser (Row:=Record) (FE:=list string),
    Final.__init__ [Sample.Invoice] = Ok self ∧
    (∃ R, (Final.parse_batch Sample.validate self
             [Sample.good_invoice; Sample.bare_invoice]).2 = Ok R ∧
          R !! "Invoice" =
            Some [[("id", VStr "INV-2"); ("total_amount", VNum 3);
                   ("latitude", VNum 1); ("longitude", VNum 2)];
                  [("id", VStr "INV-3"); ("total_amount", VNum 3);
                   ("latitude", VNum 1); ("longitude", VNum 2)]]) ∧
    (Final.parse Sample.validate self Sample.bare_invoice).2 =
      Raise (ValueErrorOf
               [mkError "root" "Invoice"
                  ["total_amount"; "latitude"; "longitude"]]) ∧
    (Final.parse Sample.validate
       (Final.parse Sample.validate self Sample.bare_invoice).1
       Sample.good_invoice).2 =
      Raise (ValueErrorOf
               [mkError "root" "Invoice"
                  ["total_amount"; "latitude"; "longitude"]]).
Proof.
  eexists. split; [vm_compute; reflexivity|].
  split; [|split]; [|vm_compute; reflexivity..].
  eexists. split; vm_compute; reflexivity.
Qed.

(** ** Where the entries of the index come from *)

Lemma index_items_origin_if (items : list (string * Value)) :
  Forall (λ kv, ∀ path idx k v, Done._index_path kv.2 path idx !! k = Some v →
                idx !! k = Some v ∨
                ∃ steps, Spec.at_loc kv.2 steps v ∧ k = path +:+ Spec.render steps)
         items →
  ∀ path idx k v,
    Done.index_items Done._index_path items path idx !! k = Some v →
    idx !! k = Some v ∨
    ∃ key child steps, (key, child) ∈ items ∧ Spec.at_loc child steps v ∧
                       k = (path +:+ "." +:+ key) +:+ Spec.render steps.
Proof.
  induction 1 as [|[key value] items Hv _ IH]; intros path idx k v Hk; [by left|].
  cbn [Done.index_items] in Hk. apply IH in Hk as [Hk|(key' & c & st & Hin & Hl & ->)].
  - assert (<[path +:+ "." +:+ key := value]> idx !! k = Some v →
            idx !! k = Some v ∨
            ∃ key0 child steps, (key0, child) ∈ (key, value) :: items ∧
              Spec.at_loc child steps v ∧
              k = (path +:+ "." +:+ key0) +:+ Spec.render steps) as Hins.
    { intros [[<- <-]|[_ ?]]%lookup_insert_Some; [right|by left].
      exists key, value, []. split; [by apply elem_of_cons; left|].
      split; [constructor|]. by rewrite render_nil. }
    destruct (is_container value); [|by apply Hins].
    apply Hv in Hk as [Hk|(st & Hl & ->)]; [by apply Hins|].
    right. exists key, value, st. split; [by apply elem_of_cons; left|done].
  - right. exists key', c, st. split; [by apply elem_of_cons; right|done].
Qed.

Lemma index_elems_origin_if (elems : list Value) :
  Forall (λ e, ∀ path idx k v, Done._index_path e path idx !! k = Some v →
               idx !! k = Some v ∨
               ∃ steps, Spec.at_loc e steps v ∧ k = path +:+ Spec.render steps)
         elems →
  ∀ index path idx k v,
    Done.index_elems Done._index_path elems index path idx !! k = Some v →
    idx !! k = Some v ∨
    ∃ i child steps, elems !! i = Some child ∧ Spec.at_loc child steps v ∧
                     k = (path +:+ "[" +:+ Py.str (index + i) +:+ "]")
                         +:+ Spec.render steps.
Proof.
  induction 1 as [|item elems Hv _ IH]; intros index path idx k v Hk; [by left|].
  cbn [Done.index_elems] in Hk.
  apply IH in Hk as [Hk|(i & c & st & Hi & Hl & ->)].
  - assert (<[path +:+ "[" +:+ Py.str index +:+ "]" := item]> idx !! k = Some v →
            idx !! k = Some v ∨
            ∃ i child steps, (item :: elems) !! i = Some child ∧
              Spec.at_loc child steps v ∧
              k = (path +:+ "[" +:+ Py.str (index + i) +:+ "]")
                  +:+ Spec.render steps) as Hins.
    { intros [[<- <-]|[_ ?]]%lookup_insert_Some; [right|by left].
      exists 0, item, []. split; [done|].
      split; [constructor|]. by rewrite render_nil, Nat.add_0_r. }
    destruct (is_container item); [|by apply Hins].
    apply Hv in Hk as [Hk|(st & Hl & ->)]; [by apply Hins|].
    right. exists 0, item, st. split; [done|]. by rewrite Nat.add_0_r.
  - right. exists (S i), c, st. split; [done|]. split; [done|].
    by replace (index + S i) with (S index + i) by lia.
Qed.

(** An entry of the index after a walk was there before, or is a place of
    the document under its path. *)
Lemma index_path_origin (obj : Value) (path : string)
    (idx : gmap string Value) (k : string) (v : Value) :
  Done._index_path obj path idx !! k = Some v →
  idx !! k = Some v ∨
  ∃ steps, Spec.at_loc obj steps v ∧ k = path +:+ Spec.render steps.
Proof.
  revert path idx k v.
  assert (∀ (o : Value) path (idx : gmap string Value) k v,
            <[path := o]> idx !! k = Some v →
            idx !! k = Some v ∨
            ∃ steps, Spec.at_loc o steps v ∧ k = path +:+ Spec.render steps)
    as Hins.
  { intros o path idx k v [[<- <-]|[_ ?]]%lookup_insert_Some; [right|by left].
    exists []. split; [constructor|]. by rewrite render_nil. }
  induction obj as [| | | |elems IH|items IH] using Value_ind_nested;
    intros path idx k v Hk; cbn [Done._index_path] in Hk;
    try (by apply Hins).
  - apply (index_elems_origin_if _ IH) in Hk
      as [Hk|(i & c & st & Hi & Hl & ->)]; [by apply Hins|].
    right. exists (Spec.SIdx i :: st). split; [by econstructor|].
    by rewrite render_cons_index.
  - apply (index_items_origin_if _ IH) in Hk
      as [Hk|(key & c & st & Hin & Hl & ->)]; [by apply Hins|].
    right. exists (Spec.SKey key :: st). split; [by econstructor|].
    by rewrite render_cons_key.
Qed.

(** ** Keys and paths *)

Lemma all_keys_at (p : string → bool) (doc v : Value) (steps : list Spec.step) :
  Spec.all_keys p doc = true →
  Spec.at_loc doc steps v →
  Spec.all_keys p v = true ∧
  Forall (λ s, match s with Spec.SKey key => p key = true | _ => True end) steps.
Proof.
  intros Hdoc Hloc. induction Hloc as [v|items key child steps v Hin _ IH
                                       |elems index child steps v Hi _ IH].
  - by split.
  - cbn [Spec.all_keys] in Hdoc. rewrite forallb_forall in Hdoc.
    apply list_elem_of_In, Hdoc in Hin. cbn [fst snd] in Hin.
    apply andb_true_iff in Hin as [Hk Hc].
    destruct (IH Hc) as [? ?]. split; [done|by constructor].
  - cbn [Spec.all_keys] in Hdoc. rewrite forallb_forall in Hdoc.
    apply list_elem_of_lookup_2, list_elem_of_In, Hdoc in Hi.
    destruct (IH Hi) as [? ?]. split; [done|by constructor].
Qed.

Lemma render_no_char (c : ascii) (steps : list Spec.step) :
  Py.is_digit c = false → c ≠ "."%char → c ≠ "["%char → c ≠ "]"%char →
  Forall (λ s, match s with
               | Spec.SKey key => Py.contains (String c "") key = false
               | _ => True
               end) steps →
  Py.contains (String c "") (Spec.render steps) = false.
Proof.
  intros Hd H1 H2 H3. induction 1 as [|[key|i] steps Hs _ IH]; [done|..];
    cbn [Spec.render Spec.render_step].
  - rewrite app_assoc_s. change ("." +:+ key +:+ Spec.render steps)
      with (String "." (key +:+ Spec.render steps)).
    apply contains_char_cons. split; [done|]. by apply contains_char_app.
  - rewrite !app_assoc_s.
    change ("[" +:+ Py.str i +:+ "]" +:+ Spec.render steps)
      with (String "[" (Py.str i +:+ String "]" (Spec.render steps))).
    apply contains_char_cons. split; [done|]. apply contains_char_app.
    split; [apply all_digits_no_char; [done|apply str_digits]|].
    by apply contains_char_cons.
Qed.

Lemma contains_wildcard_star (s : string) :
  Py.contains "[*]" s = true → Py.contains "*" s = true.
Proof.
  induction s as [|c s IH]; [done|]. cbn [Py.contains].
  intros [H|H]%orb_true_iff.
  - apply startswith_spec in H as [t Ht]. injection Ht as -> ->.
    apply orb_true_r.
  - rewrite (IH H). apply orb_true_r.
Qed.

Lemma contains_join (sub sep seg : string) (out : list string) :
  seg ∈ out → Py.contains sub seg = true →
  Py.contains sub (Py.join sep out) = true.
Proof.
  intros Hin Hseg. induction out as [|x out IH]; [by apply elem_of_nil in Hin|].
  apply elem_of_cons in Hin as [->|Hin].
  - destruct out as [|y out]; [done|]. rewrite join_cons by done.
    by apply contains_app_l.
  - destruct out as [|y out]; [by apply elem_of_nil in Hin|].
    rewrite join_cons by done. apply contains_app_r, contains_app_r. auto.
Qed.

(** No path with a [*] in it is in the index of a document whose keys have
    none. *)
Lemma index_no_star (doc : Value) (k : string) :
  Spec.all_keys Spec.no_star doc = true →
  Py.contains "*" k = true →
  Done._index_path doc "root" ∅ !! k = None.
Proof.
  intros Hdoc Hk. destruct (Done._index_path doc "root" ∅ !! k) as [v|] eqn:E;
    [exfalso|done].
  apply index_path_origin in E as [E|(steps & Hloc & ->)]; [done|].
  destruct (all_keys_at _ _ _ _ Hdoc Hloc) as [_ Hsteps].
  assert (Py.contains "*" ("root" +:+ Spec.render steps) = false) as Hno;
    [|congruence].
  apply contains_char_app. split; [done|].
  apply render_no_char; [done..|].
  eapply Forall_impl; [exact Hsteps|]. intros [key|i]; [|done].
  unfold Spec.no_star. by intros ->%negb_true_iff.
Qed.

(** C3, amended.  For an alias whose segments are literal or of the form [key[*]],
    and a concrete current path, [resolve_alias_with_wildcards] ([done.py])
    and [_parsing_replace_wildcard_with_index] ([final_rendition.py]) join
    with ["."] the segments that section 4.3 describes: a literal segment is
    copied, the cursor moving on only past the very same segment of the
    current path; a wildcard [key[*]] becomes [key[n]] for the index [n] of
    the first segment at or after the cursor that is indexed under [key],
    the cursor moving past that segment; when no such segment is left the
    wildcard stays as it is.  A resolved path with such a wildcard left in
    it is in no index of a document whose keys have no [*], and
    [path_index.get] gives [None] for it. *)
Theorem alias_resolution_follows_the_cursor (a current_path : string) :
  Forall Spec.concrete_segment (Py.split "." current_path) →
  Forall Spec.alias_segment (Py.split "." a) →
  (∃ out, Done.resolve_alias_with_wildcards a current_path = Py.join "." out
          ∧ Spec.resolves (Py.split "." current_path) 0 (Py.split "." a) out) ∧
  (∃ out, Final._parsing_replace_wildcard_with_index a current_path
          = Py.join "." out
          ∧ Spec.resolves (Py.split "." current_path) 0 (Py.split "." a) out) ∧
  (∀ out key doc,
     (key +:+ "[*]") ∈ out →
     Spec.all_keys Spec.no_star doc = true →
     Py.get VNull (Done._index_path doc "root" ∅) (Py.join "." out) = VNull).
Proof.
  intros Hcur Ha. split; [by apply done_resolve_resolves|].
  split; [by apply final_resolve_resolves|].
  intros out key doc Hin Hdoc. unfold Py.get.
  rewrite index_no_star; [done|done|].
  apply contains_wildcard_star. eapply contains_join; [exact Hin|].
  apply wildcard_segment_contains.
Qed.

Lemma alias_resolution_follows_the_cursor_witness :
  (∃ out, Done.resolve_alias_with_wildcards
            "root.invoice_items[*].transactions[*].amount"
            "root.invoice_items[2].transactions[0]" = Py.join "." out
          ∧ Spec.resolves (Py.split "." "root.invoice_items[2].transactions[0]") 0
              (Py.split "." "root.invoice_items[*].transactions[*].amount") out) ∧
  (∃ out, Final._parsing_replace_wildcard_with_index
            "root.invoice_items[*].transactions[*].amount"
            "root.invoice_items[2].transactions[0]" = Py.join "." out
          ∧ Spec.resolves (Py.split "." "root.invoice_items[2].transactions[0]") 0
              (Py.split "." "root.invoice_items[*].transactions[*].amount") out) ∧
  (∀ out key doc,
     (key +:+ "[*]") ∈ out →
     Spec.all_keys Spec.no_star doc = true →
     Py.get VNull (Done._index_path doc "root" ∅) (Py.join "." out) = VNull).
Proof.
  apply (alias_resolution_follows_the_cursor
           "root.invoice_items[*].transactions[*].amount"
           "root.invoice_items[2].transactions[0]").
  - change (Forall Spec.concrete_segment
              ["root"; "invoice_items[2]"; "transactions[0]"]).
    apply List.Forall_cons; [exists "root", []; split; reflexivity|].
    apply List.Forall_cons; [exists "invoice_items", [2]; split; reflexivity|].
    apply List.Forall_cons; [exists "transactions", [0]; split; reflexivity|].
    apply List.Forall_nil.
  - change (Forall Spec.alias_segment
              ["root"; "invoice_items[*]"; "transactions[*]"; "amount"]).
    apply List.Forall_cons; [left; reflexivity|].
    apply List.Forall_cons;
      [right; exists "invoice_items"; split; reflexivity|].
    apply List.Forall_cons;
      [right; exists "transactions"; split; reflexivity|].
    apply List.Forall_cons; [left; reflexivity|].
    apply List.Forall_nil.
Defined.

(** C3 as it is worded fails in two ways.  A wildcard that found no segment
    stays in the path, and the path is looked up as it is: in a document
    that has the key ["c[*]"] the lookup of [root.c[*].y] gives the value
    under that key, not an absent value.  And a segment that carries two
    wildcards is given one index only: [root.m[*][*].x] against
    [root.m[2][3]] becomes [root.m[2].x]. *)
Lemma alias_resolution_counterexample :
  Done.resolve_alias_with_wildcards "root.c[*].y" "root.a[0]" = "root.c[*].y" ∧
  Final._parsing_replace_wildcard_with_index "root.c[*].y" "root.a[0]"
    = "root.c[*].y" ∧
  Py.get VNull (Done._index_path Sample.starred "root" ∅)
    (Done.resolve_alias_with_wildcards "root.c[*].y" "root.a[0]") = VNum 7 ∧
  Py.get VNull (Done._index_path Sample.starred "root" ∅)
    (Final._parsing_replace_wildcard_with_index "root.c[*].y" "root.a[0]")
    = VNum 7 ∧
  Done.resolve_alias_with_wildcards "root.m[*][*].x" "root.m[2][3]"
    = "root.m[2].x" ∧
  Final._parsing_replace_wildcard_with_index "root.m[*][*].x" "root.m[2][3]"
    = "root.m[2].x".
Proof. repeat split; vm_compute; reflexivity. Qed.

(** ** Paths tell places apart *)

Lemma app_inv_head_s (p s t : string) : p +:+ s = p +:+ t → s = t.
Proof. induction p as [|c p IH]; [done|]. rewrite !app_cons_s. intros [= H]. auto. Qed.

Lemma plain_spec (key : string) :
  Spec.plain key = true ↔
  Py.contains "." key = false ∧ Py.contains "[" key = false.
Proof.
  unfold Spec.plain. rewrite andb_true_iff, !negb_true_iff. tauto.
Qed.

Lemma plain_cons (c : ascii) (key : string) :
  Spec.plain (String c key) = true ↔
  c ≠ "."%char ∧ c ≠ "["%char ∧ Spec.plain key = true.
Proof. rewrite !plain_spec, !contains_char_cons. tauto. Qed.

Lemma no_bracket_no_wildcard (s : string) :
  Py.contains "[" s = false → Py.contains "[*]" s = false.
Proof.
  induction s as [|c s IH]; [done|]. intros [Hc Hs]%contains_char_cons.
  cbn [Py.contains Py.startswith]. rewrite (IH Hs), orb_false_r.
  apply andb_false_iff. left. rewrite Ascii.eqb_sym. by apply Ascii.eqb_neq.
Qed.

(** What follows a key or an index in a rendered path: nothing, or text
    that begins with [.] or [[]. *)
Lemma render_headed (steps : list Spec.step) :
  Spec.render steps = "" ∨
  ∃ r, Spec.render steps = String "." r ∨ Spec.render steps = String "[" r.
Proof.
  destruct steps as [|[key|i] steps]; [by left|right..];
    cbn [Spec.render Spec.render_step].
  - exists (key +:+ Spec.render steps). by left.
  - exists ((Py.str i +:+ "]") +:+ Spec.render steps). by right.
Qed.

Lemma key_delim_inj (k k' R R' : string) :
  Spec.plain k = true → Spec.plain k' = true →
  (R = "" ∨ ∃ r, R = String "." r ∨ R = String "[" r) →
  (R' = "" ∨ ∃ r, R' = String "." r ∨ R' = String "[" r) →
  k +:+ R = k' +:+ R' → k = k' ∧ R = R'.
Proof.
  revert k'. induction k as [|c k IH]; intros [|d k'] Hk Hk' HR HR' E.
  - by rewrite !app_nil_l_s in E.
  - rewrite app_nil_l_s, app_cons_s in E.
    apply plain_cons in Hk' as (H1 & H2 & _).
    destruct HR as [->|[r [->| ->]]]; [done|..]; injection E as <- _; done.
  - rewrite app_nil_l_s, app_cons_s in E.
    apply plain_cons in Hk as (H1 & H2 & _).
    destruct HR' as [->|[r [->| ->]]]; [done|..]; injection E as -> _; done.
  - rewrite !app_cons_s in E. injection E as -> E.
    apply plain_cons in Hk as (_ & _ & Hk). apply plain_cons in Hk' as (_ & _ & Hk').
    destruct (IH _ Hk Hk' HR HR' E) as [-> ->]. done.
Qed.

Lemma digits_delim_inj (ds ds' R R' : string) :
  Spec.all_digits ds = true → Spec.all_digits ds' = true →
  ds +:+ String "]" R = ds' +:+ String "]" R' → ds = ds' ∧ R = R'.
Proof.
  revert ds'. induction ds as [|c ds IH]; intros [|d ds'] Hd Hd' E.
  - rewrite !app_nil_l_s in E. by injection E as ->.
  - rewrite app_nil_l_s, app_cons_s in E. injection E as <- _.
    cbn [Spec.all_digits] in Hd'. done.
  - rewrite app_nil_l_s, app_cons_s in E. injection E as -> _.
    cbn [Spec.all_digits] in Hd. done.
  - rewrite !app_cons_s in E. injection E as -> E.
    cbn [Spec.all_digits] in Hd, Hd'.
    apply andb_true_iff in Hd as [_ Hd]. apply andb_true_iff in Hd' as [_ Hd'].
    destruct (IH _ Hd Hd' E) as [-> ->]. done.
Qed.

(** Two places with plain keys that render alike are the same place. *)
Lemma render_inj (steps steps' : list Spec.step) :
  Forall (λ s, match s with Spec.SKey key => Spec.plain key = true | _ => True end)
         steps →
  Forall (λ s, match s with Spec.SKey key => Spec.plain key = true | _ => True end)
         steps' →
  Spec.render steps = Spec.render steps' → steps = steps'.
Proof.
  intros H. revert steps'.
  induction H as [|s steps Hs _ IH]; intros steps' H' E.
  - destruct H' as [|[key|i] steps' _ _]; [done|..];
      cbn [Spec.render Spec.render_step] in E; discriminate E.
  - destruct H' as [|s' steps' Hs' H'].
    { destruct s; cbn [Spec.render Spec.render_step] in E; discriminate E. }
    destruct s as [key|i], s' as [key'|i'];
      cbn [Spec.render Spec.render_step] in E; try discriminate E.
    + injection E as E.
      destruct (key_delim_inj _ _ _ _ Hs Hs' (render_headed steps)
                  (render_headed steps') E) as [-> E'].
      by rewrite (IH _ H' E').
    + injection E as E. rewrite !app_assoc_s in E.
      destruct (digits_delim_inj _ _ _ _ (str_digits i) (str_digits i') E)
        as [->%str_inj E'].
      by rewrite (IH _ H' E').
Qed.

(** ** A place holds one value *)

Lemma distinct_keys_items (items : list (string * Value)) :
  Spec.distinct_keys (VDict items) →
  (∀ key v v', (key, v) ∈ items → (key, v') ∈ items → v = v') ∧
  (∀ key v, (key, v) ∈ items → Spec.distinct_keys v).
Proof.
  cbn [Spec.distinct_keys]. intros [Hnd Hall]. split.
  - clear Hall. induction items as [|[k w] items IH]; intros key v v' Hv Hv'.
    { by apply elem_of_nil in Hv. }
    cbn [map fst] in Hnd. apply NoDup_cons in Hnd as [Hk Hnd].
    assert (∀ u, (k, u) ∈ items → False) as Hfresh.
    { intros u Hu. apply Hk. apply list_elem_of_In, in_map_iff.
      exists (k, u). split; [done|]. by apply list_elem_of_In. }
    apply elem_of_cons in Hv as [Hv|Hv];
      apply elem_of_cons in Hv' as [Hv'|Hv']; simplify_eq.
    + done.
    + by destruct (Hfresh _ Hv').
    + by destruct (Hfresh _ Hv).
    + by eapply IH.
  - clear Hnd. induction items as [|[k w] items IH]; intros key v Hv.
    { by apply elem_of_nil in Hv. }
    destruct Hall as [Hw Hall].
    apply elem_of_cons in Hv as [Hv|Hv]; [by simplify_eq|by eapply IH].
Qed.

Lemma distinct_keys_elems (elems : list Value) (i : nat) (v : Value) :
  Spec.distinct_keys (VList elems) → elems !! i = Some v → Spec.distinct_keys v.
Proof.
  cbn [Spec.distinct_keys]. revert i.
  induction elems as [|e elems IH]; intros i Hall Hi; [done|].
  destruct Hall as [He Hall]. destruct i as [|i]; simpl in Hi.
  - by injection Hi as <-.
  - by eapply IH.
Qed.

Lemma at_loc_functional (doc v v' : Value) (steps : list Spec.step) :
  Spec.distinct_keys doc →
  Spec.at_loc doc steps v → Spec.at_loc doc steps v' → v = v'.
Proof.
  intros Hd H. revert v'.
  induction H as [v|items key child steps v Hin _ IH
                  |elems index child steps v Hi _ IH]; intros v' H'.
  - by inversion H'.
  - inversion H' as [|items' key' child' steps' w Hin' Hloc'|]; subst.
    destruct (distinct_keys_items _ Hd) as [Hfun Hsub].
    rewrite <-(Hfun _ _ _ Hin Hin') in Hloc'.
    apply IH; [by eapply Hsub|done].
  - inversion H' as [| |elems' index' child' steps' w Hi' Hloc']; subst.
    rewrite Hi in Hi'. injection Hi' as <-.
    apply IH; [by eapply distinct_keys_elems|done].
Qed.

(** ** The index gives the value at the place *)

(** In the index of a document with plain and distinct keys, the entry
    under the path of a place is the value at that place. *)
Lemma index_lookup_at (doc v : Value) (steps : list Spec.step) (path : string) :
  Spec.all_keys Spec.plain doc = true →
  Spec.distinct_keys doc →
  Spec.at_loc doc steps v →
  Done._index_path doc path ∅ !! (path +:+ Spec.render steps) = Some v.
Proof.
  intros Hk Hd Hloc.
  destruct (index_path_covers _ _ _ Hloc path ∅) as [w Hw]. rewrite Hw.
  apply index_path_origin in Hw as [Hw|(steps' & Hloc' & E)]; [done|].
  apply app_inv_head_s in E.
  destruct (all_keys_at _ _ _ _ Hk Hloc) as [_ Hs].
  destruct (all_keys_at _ _ _ _ Hk Hloc') as [_ Hs'].
  apply (render_inj _ _ Hs Hs') in E. subst steps'.
  f_equal. by eapply at_loc_functional.
Qed.

(** The same for the index that an extraction attempt is given. *)
Lemma events_items_origin_if (items : list (string * Value)) :
  Forall (λ kv, ∀ path idx ev k v, ev ∈ Trace.events kv.2 path idx →
                ev.2 !! k = Some v →
                idx !! k = Some v ∨
                ∃ steps, Spec.at_loc kv.2 steps v ∧ k = path +:+ Spec.render steps)
         items →
  ∀ path idx ev k v,
    ev ∈ Trace.events_items Trace.events items path idx →
    ev.2 !! k = Some v →
    idx !! k = Some v ∨
    ∃ key child steps, (key, child) ∈ items ∧ Spec.at_loc child steps v ∧
                       k = (path +:+ "." +:+ key) +:+ Spec.render steps.
Proof.
  induction 1 as [|[key value] items Hv _ IH]; intros path idx ev k v Hev Hk.
  { by apply elem_of_nil in Hev. }
  cbn [Trace.events_items] in Hev.
  assert (∀ st, Spec.at_loc value st v →
                k = (path +:+ "." +:+ key) +:+ Spec.render st →
            idx !! k = Some v ∨
            ∃ key0 child steps, (key0, child) ∈ (key, value) :: items ∧
              Spec.at_loc child steps v ∧
              k = (path +:+ "." +:+ key0) +:+ Spec.render steps) as Hhere.
  { intros st Hl E. right. exists key, value, st.
    split; [by apply elem_of_cons; left|done]. }
  assert (<[path +:+ "." +:+ key := value]> idx !! k = Some v →
          idx !! k = Some v ∨
          ∃ key0 child steps, (key0, child) ∈ (key, value) :: items ∧
            Spec.at_loc child steps v ∧
            k = (path +:+ "." +:+ key0) +:+ Spec.render steps) as Hins.
  { intros [[<- <-]|[_ ?]]%lookup_insert_Some; [|by left].
    apply (Hhere []); [constructor|by rewrite render_nil]. }
  assert (∀ idx',
            (idx' !! k = Some v →
             idx !! k = Some v ∨
             ∃ key0 child steps, (key0, child) ∈ (key, value) :: items ∧
               Spec.at_loc child steps v ∧
               k = (path +:+ "." +:+ key0) +:+ Spec.render steps) →
            ev ∈ Trace.events_items Trace.events items path idx' →
            idx !! k = Some v ∨
            ∃ key0 child steps, (key0, child) ∈ (key, value) :: items ∧
              Spec.at_loc child steps v ∧
              k = (path +:+ "." +:+ key0) +:+ Spec.render steps) as Hrest.
  { intros idx' Hidx' Hev'.
    destruct (IH _ _ _ _ _ Hev' Hk) as [H|(k0 & c & st & Hin & Hl & E)].
    - by apply Hidx'.
    - right. exists k0, c, st. split; [by apply elem_of_cons; right|done]. }
  destruct (is_container value).
  - apply elem_of_app in Hev as [Hev|Hev].
    + destruct (Hv _ _ _ _ _ Hev Hk) as [H|(st & Hl & E)];
        [by apply Hins|by apply (Hhere st)].
    + eapply Hrest; [|exact Hev]. intros H.
      apply index_path_origin in H as [H|(st & Hl & E)];
        [by apply Hins|by apply (Hhere st)].
  - eapply Hrest; [|exact Hev]. apply Hins.
Qed.

Lemma events_elems_origin_if (elems : list Value) :
  Forall (λ e, ∀ path idx ev k v, ev ∈ Trace.events e path idx →
               ev.2 !! k = Some v →
               idx !! k = Some v ∨
               ∃ steps, Spec.at_loc e steps v ∧ k = path +:+ Spec.render steps)
         elems →
  ∀ index path idx ev k v,
    ev ∈ Trace.events_elems Trace.events elems index path idx →
    ev.2 !! k = Some v →
    idx !! k = Some v ∨
    ∃ i child steps, elems !! i = Some child ∧ Spec.at_loc child steps v ∧
                     k = (path +:+ "[" +:+ Py.str (index + i) +:+ "]")
                         +:+ Spec.render steps.
Proof.
  induction 1 as [|item elems Hv _ IH]; intros index path idx ev k v Hev Hk.
  { by apply elem_of_nil in Hev. }
  cbn [Trace.events_elems] in Hev.
  assert (∀ st, Spec.at_loc item st v →
                k = (path +:+ "[" +:+ Py.str index +:+ "]") +:+ Spec.render st →
            idx !! k = Some v ∨
            ∃ i child steps, (item :: elems) !! i = Some child ∧
              Spec.at_loc child steps v ∧
              k = (path +:+ "[" +:+ Py.str (index + i) +:+ "]")
                  +:+ Spec.render steps) as Hhere.
  { intros st Hl E. right. exists 0, item, st.
    split; [done|]. by rewrite Nat.add_0_r. }
  assert (<[path +:+ "[" +:+ Py.str index +:+ "]" := item]> idx !! k = Some v →
          idx !! k = Some v ∨
          ∃ i child steps, (item :: elems) !! i = Some child ∧
            Spec.at_loc child steps v ∧
            k = (path +:+ "[" +:+ Py.str (index + i) +:+ "]")
                +:+ Spec.render steps) as Hins.
  { intros [[<- <-]|[_ ?]]%lookup_insert_Some; [|by left].
    apply (Hhere []); [constructor|by rewrite render_nil]. }
  assert (∀ idx',
            (idx' !! k = Some v →
             idx !! k = Some v ∨
             ∃ i child steps, (item :: elems) !! i = Some child ∧
               Spec.at_loc child steps v ∧
               k = (path +:+ "[" +:+ Py.str (index + i) +:+ "]")
                   +:+ Spec.render steps) →
            ev ∈ Trace.events_elems Trace.events elems (S index) path idx' →
            idx !! k = Some v ∨
            ∃ i child steps, (item :: elems) !! i = Some child ∧
              Spec.at_loc child steps v ∧
              k = (path +:+ "[" +:+ Py.str (index + i) +:+ "]")
                  +:+ Spec.render steps) as Hrest.
  { intros idx' Hidx' Hev'.
    destruct (IH _ _ _ _ _ _ Hev' Hk) as [H|(i & c & st & Hi & Hl & E)].
    - by apply Hidx'.
    - right. exists (S i), c, st. split; [done|]. split; [done|].
      by replace (index + S i) with (S index + i) by lia. }
  destruct (is_container item).
  - apply elem_of_app in Hev as [Hev|Hev].
    + destruct (Hv _ _ _ _ _ Hev Hk) as [H|(st & Hl & E)];
        [by apply Hins|by apply (Hhere st)].
    + eapply Hrest; [|exact Hev]. intros H.
      apply index_path_origin in H as [H|(st & Hl & E)];
        [by apply Hins|by apply (Hhere st)].
  - eapply Hrest; [|exact Hev]. apply Hins.
Qed.

(** An entry of the index that an attempt is given was there when the walk
    began, or is a place of the document under its path. *)
Lemma events_origin (obj : Value) (path : string) (idx : gmap string Value)
    (ev : Trace.event) (k : string) (v : Value) :
  ev ∈ Trace.events obj path idx →
  ev.2 !! k = Some v →
  idx !! k = Some v ∨
  ∃ steps, Spec.at_loc obj steps v ∧ k = path +:+ Spec.render steps.
Proof.
  revert path idx ev k v.
  assert (∀ (o : Value) path (idx : gmap string Value) k v,
            <[path := o]> idx !! k = Some v →
            idx !! k = Some v ∨
            ∃ steps, Spec.at_loc o steps v ∧ k = path +:+ Spec.render steps)
    as Hins.
  { intros o path idx k v [[<- <-]|[_ ?]]%lookup_insert_Some; [right|by left].
    exists []. split; [constructor|]. by rewrite render_nil. }
  induction obj as [| | | |elems IH|items IH] using Value_ind_nested;
    intros path idx ev k v Hev Hk; cbn [Trace.events] in Hev;
    try (by apply elem_of_nil in Hev).
  - destruct (events_elems_origin_if _ IH _ _ _ _ _ _ Hev Hk)
      as [H|(i & c & st & Hi & Hl & ->)]; [by apply Hins|].
    right. exists (Spec.SIdx i :: st). split; [by econstructor|].
    by rewrite render_cons_index.
  - apply elem_of_app in Hev as [Hev|Hev].
    + destruct (events_items_origin_if _ IH _ _ _ _ _ Hev Hk)
        as [H|(key & c & st & Hin & Hl & ->)]; [by apply Hins|].
      right. exists (Spec.SKey key :: st). split; [by econstructor|].
      by rewrite render_cons_key.
    + apply list_elem_of_singleton in Hev as ->. cbn [snd] in Hk.
      by apply (index_path_origin (VDict items)) in Hk.
Qed.

Lemma at_loc_app (a b c : Value) (pre ext : list Spec.step) :
  Spec.at_loc a pre b → Spec.at_loc b ext c → Spec.at_loc a (pre ++ ext) c.
Proof.
  intros H Hext. induction H as [v|items key child steps v Hin _ IH
                                 |elems index child steps v Hi _ IH].
  - done.
  - cbn [app]. econstructor; [exact Hin|auto].
  - cbn [app]. econstructor; [exact Hi|auto].
Qed.

Lemma render_app (pre ext : list Spec.step) :
  Spec.render (pre ++ ext) = Spec.render pre +:+ Spec.render ext.
Proof.
  induction pre as [|s pre IH]; [done|].
  cbn [app Spec.render]. by rewrite IH, app_assoc_s.
Qed.

(** At an attempt of the walk of a document with plain and distinct keys,
    the entry under the path of a place below the node is the value at that
    place. *)
Lemma event_lookup_at (doc w : Value) (ev : Trace.event) (ext : list Spec.step) :
  Spec.all_keys Spec.plain doc = true →
  Spec.distinct_keys doc →
  ev ∈ Trace.events doc "root" ∅ →
  Spec.at_loc (VDict ev.1.1) ext w →
  ev.2 !! (ev.1.2 +:+ Spec.render ext) = Some w.
Proof.
  intros Hk Hd Hev Hext.
  destruct (events_place _ _ _ _ Hev) as (steps & Hloc & HP & _ & Hsub).
  destruct (Hsub _ _ Hext) as [u Hu]. rewrite Hu. f_equal.
  apply (events_origin _ _ _ _ _ _ Hev) in Hu as [Hu|(steps' & Hloc' & E)];
    [done|].
  pose proof (at_loc_app _ _ _ _ _ Hloc Hext) as Hfull.
  rewrite HP, app_assoc_s, <-render_app in E. apply app_inv_head_s in E.
  destruct (all_keys_at _ _ _ _ Hk Hfull) as [_ Hs].
  destruct (all_keys_at _ _ _ _ Hk Hloc') as [_ Hs'].
  apply (render_inj _ _ Hs Hs') in E. subst steps'.
  by eapply at_loc_functional.
Qed.

(** ** A wildcard alias resolved at a node under its array *)

Lemma done_step_literal (cur res : list string) (i : nat) (seg : string) :
  Py.contains "[*]" seg = false →
  Done.resolve_step cur (res, i) seg =
    (res ++ [seg], if decide (cur !! i = Some seg) then S i else i).
Proof. intros H. unfold Done.resolve_step. by rewrite H. Qed.

Lemma final_step_literal (cur res : list string) (i : nat) (seg : string) :
  Py.contains "[*]" seg = false →
  Final.replace_step cur (res, i) seg =
    (res ++ [seg], if decide (cur !! i = Some seg) then S i else i).
Proof. intros H. unfold Final.replace_step. by rewrite H. Qed.

Lemma done_step_hit (cur res : list string) (i n : nat) (key seg : string) :
  Py.contains "[" key = false →
  cur !! i = Some seg →
  Spec.indexed_under key n seg →
  Done.resolve_step cur (res, i) (key +:+ "[*]") =
    (res ++ [key +:+ "[" +:+ Py.str n +:+ "]"], S i).
Proof.
  intros Hkey Hi Hu. unfold Done.resolve_step.
  rewrite wildcard_segment_contains, wildcard_segment_key by done.
  rewrite (drop_S _ _ _ Hi). cbn [Done.scan].
  destruct (segment_hit _ _ _ Hkey Hu) as [-> ->]. done.
Qed.

Lemma final_step_hit (cur res : list string) (i n : nat) (key seg : string) :
  Py.contains "[" key = false →
  cur !! i = Some seg →
  Spec.indexed_under key n seg →
  Final.replace_step cur (res, i) (key +:+ "[*]") =
    (res ++ [key +:+ "[" +:+ Py.str n +:+ "]"], S i).
Proof.
  intros Hkey Hi Hu. unfold Final.replace_step.
  rewrite wildcard_segment_contains, wildcard_segment_key by done.
  rewrite (drop_S _ _ _ Hi). cbn [Final.scan].
  destruct (segment_hit _ _ _ Hkey Hu) as [-> ->]. done.
Qed.

Lemma split_under_key (a b : string) (i : nat) :
  Spec.plain a = true → Spec.plain b = true →
  Py.split "." ("root." +:+ a +:+ "[*]." +:+ b) = ["root"; a +:+ "[*]"; b] ∧
  Py.split "." ("root." +:+ a +:+ "[" +:+ Py.str i +:+ "]") =
    ["root"; a +:+ "[" +:+ Py.str i +:+ "]"].
Proof.
  intros [Ha1 Ha2]%plain_spec [Hb1 Hb2]%plain_spec. split.
  - change ("root." +:+ a +:+ "[*]." +:+ b)
      with ("root" +:+ String "." (a +:+ "[*]." +:+ b)).
    rewrite split_app_sep by done.
    replace (a +:+ "[*]." +:+ b) with ((a +:+ "[*]") +:+ String "." b)
      by (by rewrite app_assoc_s).
    rewrite split_app_sep, split_no_sep; [done|done|].
    by apply contains_char_app.
  - change ("root." +:+ a +:+ "[" +:+ Py.str i +:+ "]")
      with ("root" +:+ String "." (a +:+ String "[" (Py.str i +:+ "]"))).
    rewrite split_app_sep by done. rewrite split_no_sep; [done|].
    apply contains_char_app. split; [done|].
    apply contains_char_cons. split; [done|].
    apply contains_char_app. split; [|done].
    apply all_digits_no_char; [done|apply str_digits].
Qed.

(** The alias [root.a[*].b] resolved at the node [root.a[i]] is the path of
    the member [b] of that node. *)
Lemma resolve_under_key (a b : string) (i : nat) :
  Spec.plain a = true → Spec.plain b = true →
  Done.resolve_alias_with_wildcards
    ("root." +:+ a +:+ "[*]." +:+ b) ("root." +:+ a +:+ "[" +:+ Py.str i +:+ "]")
  = "root" +:+ Spec.render [Spec.SKey a; Spec.SIdx i; Spec.SKey b] ∧
  Final._parsing_replace_wildcard_with_index
    ("root." +:+ a +:+ "[*]." +:+ b) ("root." +:+ a +:+ "[" +:+ Py.str i +:+ "]")
  = "root" +:+ Spec.render [Spec.SKey a; Spec.SIdx i; Spec.SKey b].
Proof.
  intros Ha Hb.
  destruct (split_under_key a b i Ha Hb) as [Halias Hcur].
  apply plain_spec in Ha as [_ Ha]. apply plain_spec in Hb as [_ Hb].
  assert (Spec.indexed_under a i (a +:+ "[" +:+ Py.str i +:+ "]")) as Hu
    by (by exists []).
  assert (Py.join "." ["root"; a +:+ "[" +:+ Py.str i +:+ "]"; b] =
          "root" +:+ Spec.render [Spec.SKey a; Spec.SIdx i; Spec.SKey b]) as Hjoin.
  { cbn [Py.join Spec.render Spec.render_step].
    by rewrite !app_assoc_s, app_nil_r_s. }
  split.
  - unfold Done.resolve_alias_with_wildcards. rewrite Halias, Hcur.
    cbn [foldl]. rewrite done_step_literal by done.
    rewrite decide_True by done.
    erewrite done_step_hit; [|exact Ha|reflexivity|exact Hu].
    rewrite done_step_literal by (by apply no_bracket_no_wildcard).
    exact Hjoin.
  - unfold Final._parsing_replace_wildcard_with_index. rewrite Halias, Hcur.
    cbn [foldl]. rewrite final_step_literal by done.
    rewrite decide_True by done.
    erewrite final_step_hit; [|exact Ha|reflexivity|exact Hu].
    rewrite final_step_literal by (by apply no_bracket_no_wildcard).
    exact Hjoin.
Qed.

Lemma at_loc_split (doc v : Value) (pre ext : list Spec.step) :
  Spec.at_loc doc (pre ++ ext) v →
  ∃ mid, Spec.at_loc doc pre mid ∧ Spec.at_loc mid ext v.
Proof.
  revert doc. induction pre as [|s pre IH]; intros doc H.
  - exists doc. split; [constructor|done].
  - cbn [app] in H.
    inversion H as [|items key child steps w Hin Hloc
                    |elems index child steps w Hi Hloc]; subst.
    + destruct (IH _ Hloc) as (mid & H1 & H2).
      exists mid. split; [by econstructor|done].
    + destruct (IH _ Hloc) as (mid & H1 & H2).
      exists mid. split; [by econstructor|done].
Qed.

Lemma contains_wildcard_under_key (a b : string) :
  Py.contains "[*]" ("root." +:+ a +:+ "[*]." +:+ b) = true.
Proof.
  apply (contains_app_r "[*]" "root."), contains_app_r.
  by apply (contains_app_l "[*]" "[*]" ("." +:+ b)).
Qed.

(** C6, amended.  Let every key of the document be plain (neither [.] nor
    [[] in it) and the keys of each mapping distinct, and let [v] be the
    value at [a[i].b].  Then the alias [root.a[*].b], resolved against the
    path [root.a[i]] by [resolve_alias_with_wildcards] or by
    [_parsing_replace_wildcard_with_index] and looked up in the index of the
    walk of the document, gives [v]: in the index as the walk leaves it, and
    in the index that the extraction at the node [root.a[i]] is given, so
    that the field of that alias in the data of [_build_model_data] and of
    [_parsing_build_model_data] is [v]. *)
Theorem wildcard_alias_round_trip (doc v : Value) (a b : string) (i : nat) :
  Spec.all_keys Spec.plain doc = true →
  Spec.distinct_keys doc →
  Spec.at_loc doc [Spec.SKey a; Spec.SIdx i; Spec.SKey b] v →
  let alias_path := "root." +:+ a +:+ "[*]." +:+ b in
  let path := "root." +:+ a +:+ "[" +:+ Py.str i +:+ "]" in
  Py.get VNull (Done._index_path doc "root" ∅)
    (Done.resolve_alias_with_wildcards alias_path path) = v ∧
  Py.get VNull (Done._index_path doc "root" ∅)
    (Final._parsing_replace_wildcard_with_index alias_path path) = v ∧
  ∀ items idx field_name,
    (items, path, idx) ∈ Trace.events doc "root" ∅ →
    (∀ pk cpk, field_name ≠ alias_path →
       Done.field_value items path idx
         (field_name, mkField (Some alias_path) pk cpk) = (field_name, v)) ∧
    Final.field_value idx path
      (field_name, alias_path, Py.contains "[*]" alias_path) = (field_name, v).
Proof.
  intros Hk Hd Hloc alias_path path.
  destruct (all_keys_at _ _ _ _ Hk Hloc) as [_ Hsteps].
  assert (Spec.plain a = true) as Ha by (by inversion Hsteps).
  assert (Spec.plain b = true) as Hb.
  { inversion Hsteps as [|? ? _ H1]. inversion H1 as [|? ? _ H2].
    by inversion H2. }
  destruct (resolve_under_key a b i Ha Hb) as [HD HF].
  fold alias_path path in HD, HF.
  pose proof (index_lookup_at _ _ _ "root" Hk Hd Hloc) as Hfull.
  split; [by rewrite HD; unfold Py.get; rewrite Hfull|].
  split; [by rewrite HF; unfold Py.get; rewrite Hfull|].
  intros items idx field_name Hev.
  assert (idx !! ("root" +:+ Spec.render [Spec.SKey a; Spec.SIdx i; Spec.SKey b])
          = Some v) as Hidx.
  { destruct (events_place _ _ _ _ Hev) as (steps & Hnode & HP & _).
    cbn [fst snd] in Hnode, HP.
    assert (path = "root" +:+ Spec.render [Spec.SKey a; Spec.SIdx i]) as Hpath.
    { unfold path. cbn [Spec.render Spec.render_step].
      by rewrite !app_assoc_s, app_nil_r_s. }
    destruct (at_loc_split doc v [Spec.SKey a; Spec.SIdx i] [Spec.SKey b] Hloc)
      as (mid & Hmid & Hext).
    rewrite Hpath in HP. apply app_inv_head_s in HP.
    destruct (all_keys_at _ _ _ _ Hk Hnode) as [_ Hs].
    destruct (all_keys_at _ _ _ _ Hk Hmid) as [_ Hs'].
    apply (render_inj _ _ Hs' Hs) in HP. subst steps.
    rewrite (at_loc_functional _ _ _ _ Hd Hmid Hnode) in Hext.
    pose proof (event_lookup_at doc v (items, path, idx) [Spec.SKey b]
                  Hk Hd Hev Hext) as Hlook.
    cbn [fst snd] in Hlook. rewrite Hpath, app_assoc_s, <-render_app in Hlook.
    exact Hlook. }
  split.
  - intros pk cpk Hne. unfold Done.field_value. cbn [alias].
    destruct (String.eqb_spec alias_path field_name) as [E|_]; [by subst|].
    by rewrite HD; unfold Py.get; rewrite Hidx.
  - pose proof (contains_wildcard_under_key a b) as Hc. fold alias_path in Hc.
    unfold Final.field_value. rewrite Hc.
    by rewrite HF; unfold Py.get; rewrite Hidx.
Qed.

Lemma wildcard_alias_round_trip_witness :
  Py.get VNull (Done._index_path Sample.invoice "root" ∅)
    (Done.resolve_alias_with_wildcards
       ("root." +:+ "invoice_items" +:+ "[*]." +:+ "sku")
       ("root." +:+ "invoice_items" +:+ "[" +:+ Py.str 1 +:+ "]"))
  = VStr "s2".
Proof.
  refine (proj1 (wildcard_alias_round_trip Sample.invoice (VStr "s2")
                   "invoice_items" "sku" 1 _ _ _)).
  - reflexivity.
  - cbn [Spec.distinct_keys Sample.invoice map fst snd].
    repeat split; apply (bool_decide_unpack _); vm_compute; exact I.
  - eapply Spec.at_key; [apply list_elem_of_lookup_2 with (i := 3); reflexivity|].
    eapply Spec.at_index; [reflexivity|].
    eapply Spec.at_key; [apply list_elem_of_lookup_2 with (i := 1); reflexivity|].
    constructor.
Defined.

(** C6 as it is worded fails in two ways.  The index of a walk is keyed by
    paths that begin with [root], so the alias [a[*].b] resolved against
    [a[3]] finds nothing in it.  And with the alias and the path anchored at
    [root], a document that has, beside [a], the key ["a[3].b"] gives the
    value of that key, not the one stored at [a[3].b]. *)
Lemma wildcard_alias_round_trip_counterexample :
  Spec.distinct_keys Sample.collision ∧
  Spec.at_loc Sample.collision [Spec.SKey "a"; Spec.SIdx 3; Spec.SKey "b"] (VNum 1) ∧
  Py.get VNull (Done._index_path Sample.collision "root" ∅)
    (Done.resolve_alias_with_wildcards "a[*].b" "a[3]") = VNull ∧
  Py.get VNull (Done._index_path Sample.collision "root" ∅)
    (Final._parsing_replace_wildcard_with_index "a[*].b" "a[3]") = VNull ∧
  Py.get VNull (Done._index_path Sample.collision "root" ∅)
    (Done.resolve_alias_with_wildcards "root.a[*].b" "root.a[3]") = VNum 2 ∧
  Py.get VNull (Done._index_path Sample.collision "root" ∅)
    (Final._parsing_replace_wildcard_with_index "root.a[*].b" "root.a[3]") = VNum 2.
Proof.
  split.
  { cbn [Spec.distinct_keys Sample.collision map fst snd].
    repeat split; apply (bool_decide_unpack _); vm_compute; exact I. }
  split.
  { eapply Spec.at_key; [apply list_elem_of_lookup_2 with (i := 0); reflexivity|].
    eapply Spec.at_index; [reflexivity|].
    eapply Spec.at_key; [apply list_elem_of_lookup_2 with (i := 0); reflexivity|].
    constructor. }
  repeat split; vm_compute; reflexivity.
Qed.

(** ** The attachment pattern of a table *)

Lemma split_length (sep : ascii) (s : string) :
  length (Py.split sep s) = S (Py.count sep s).
Proof.
  induction s as [|c s IH]; [done|]. cbn [Py.split Py.count].
  destruct (Ascii.eqb c sep).
  - cbn [length]. by rewrite IH.
  - destruct (Py.split sep s) as [|x xs] eqn:E; [by destruct (split_nonempty sep s)|].
    cbn [length] in *. lia.
Qed.

Lemma base_of_key_base (seg : string) : Final.base_of seg = Spec.key_base seg.
Proof.
  unfold Final.base_of, Spec.key_base.
  destruct (Py.contains "[" seg) eqn:E; [done|].
  by rewrite split_no_sep.
Qed.

(** [max(xs, key=key)] is the first of the largest. *)
Lemma max_loop_spec {T} (key : T → nat) (xs l1 l2 : list T) (b : T) :
  (∀ q, q ∈ l1 → (key q < key b)%nat) →
  (∀ q, q ∈ l2 → (key q ≤ key b)%nat) →
  ∃ l1' l2',
    l1 ++ b :: l2 ++ xs =
      l1' ++ foldl (λ best y, if Nat.ltb (key best) (key y) then y else best) b xs
          :: l2' ∧
    (∀ q, q ∈ l1' →
       (key q < key (foldl (λ best y, if Nat.ltb (key best) (key y)
                                      then y else best) b xs))%nat) ∧
    (∀ q, q ∈ l2' →
       (key q ≤ key (foldl (λ best y, if Nat.ltb (key best) (key y)
                                      then y else best) b xs))%nat).
Proof.
  revert l1 l2 b. induction xs as [|y xs IH]; intros l1 l2 b H1 H2.
  - exists l1, l2. by rewrite app_nil_r.
  - cbn [foldl]. destruct (Nat.ltb_spec (key b) (key y)) as [Hlt|Hge].
    + destruct (IH (l1 ++ b :: l2) [] y) as (l1' & l2' & E & H1' & H2').
      * intros q [Hq | [-> | Hq]%elem_of_cons]%elem_of_app;
          [specialize (H1 _ Hq)|..|specialize (H2 _ Hq)]; lia.
      * intros q Hq. by apply elem_of_nil in Hq.
      * exists l1', l2'. split; [|done]. rewrite <-E.
        by rewrite <-app_assoc.
    + destruct (IH l1 (l2 ++ [y]) b) as (l1' & l2' & E & H1' & H2').
      * done.
      * intros q [Hq | ->%list_elem_of_singleton]%elem_of_app; [by apply H2|lia].
      * exists l1', l2'. split; [|done]. rewrite <-E.
        by rewrite <-app_assoc.
Qed.

Lemma max_by_spec {T} (key : T → nat) (xs : list T) :
  xs ≠ [] →
  ∃ p l1 l2, Final.max_by key xs = Some p ∧ xs = l1 ++ p :: l2 ∧
    (∀ q, q ∈ l1 → (key q < key p)%nat) ∧
    (∀ q, q ∈ l2 → (key q ≤ key p)%nat).
Proof.
  destruct xs as [|x xs]; [done|]. intros _. cbn [Final.max_by].
  destruct (max_loop_spec key xs [] [] x) as (l1 & l2 & E & H1 & H2).
  - intros q Hq. by apply elem_of_nil in Hq.
  - intros q Hq. by apply elem_of_nil in Hq.
  - eexists _, l1, l2. split; [done|]. split; [exact E|done].
Qed.

(** [min(xs)] is below every element and is one of them. *)
Lemma min_loop_spec (xs : list nat) (x : nat) :
  (foldl Nat.min x xs ≤ x)%nat ∧
  Forall (λ y, (foldl Nat.min x xs ≤ y)%nat) xs ∧
  foldl Nat.min x xs ∈ x :: xs.
Proof.
  revert x. induction xs as [|y xs IH]; intros x.
  - split; [done|]. split; [constructor|]. by apply elem_of_cons; left.
  - cbn [foldl]. destruct (IH (Nat.min x y)) as (H1 & H2 & H3).
    split; [lia|]. split; [constructor; [lia|done]|].
    apply elem_of_cons in H3 as [H3|H3].
    + rewrite H3. destruct (Nat.min_spec x y) as [[_ ->]|[_ ->]].
      * by apply elem_of_cons; left.
      * apply elem_of_cons; right. by apply elem_of_cons; left.
    + apply elem_of_cons; right. by apply elem_of_cons; right.
Qed.

Lemma min_of_spec (xs : list nat) :
  xs ≠ [] →
  ∃ m, Final.min_of xs = Some m ∧ m ∈ xs ∧ ∀ y, y ∈ xs → (m ≤ y)%nat.
Proof.
  destruct xs as [|x xs]; [done|]. intros _. cbn [Final.min_of].
  destruct (min_loop_spec xs x) as (H1 & H2 & H3).
  eexists. split; [done|]. split; [done|].
  intros y [->|Hy]%elem_of_cons; [done|].
  by apply (proj1 (Forall_forall _ _) H2).
Qed.

Section CommonPrefix.
Context {FE : Type}.

(** [[segments[index] for segments in path_segments]] raises nothing when
    every list is long enough. *)
Lemma column_spec (index : nat) (path_segments : list (list string)) :
  (∀ segs, segs ∈ path_segments → (index < length segs)%nat) →
  ∃ col, Final.column (FE:=FE) index path_segments = Ok col ∧
         Forall2 (λ segs seg, segs !! index = Some seg) path_segments col.
Proof.
  induction path_segments as [|segs rest IH]; intros Hlen.
  - exists []. split; [done|constructor].
  - destruct IH as (col & E & Hcol).
    { intros s Hs. apply Hlen. by apply elem_of_cons; right. }
    destruct (lookup_lt_is_Some_2 segs index) as [seg Hseg].
    { apply Hlen. by apply elem_of_cons; left. }
    exists (seg :: col). split; [|by constructor].
    cbn [Final.column foldr]. fold (Final.column (FE:=FE) index rest).
    by rewrite E, bind_Ok, Hseg.
Qed.

(** The test of the loop: every segment of the column has the base name of
    the first. *)
Lemma all_match_spec (first_segment : string) (col : list string) :
  forallb
    (λ seg,
       if Py.contains "[" seg
       then String.eqb (hd EmptyString (Py.split "[" seg))
                       (Final.base_of first_segment)
       else String.eqb seg (Final.base_of first_segment)) col = true
  ↔ ∀ seg, seg ∈ col → Spec.key_base seg = Spec.key_base first_segment.
Proof.
  rewrite forallb_forall. split.
  - intros H seg Hin. apply list_elem_of_In, H in Hin.
    rewrite <-!base_of_key_base. unfold Final.base_of at 1.
    destruct (Py.contains "[" seg); by apply String.eqb_eq.
  - intros H seg Hin. apply list_elem_of_In, H in Hin.
    rewrite <-!base_of_key_base in Hin. unfold Final.base_of at 1 in Hin.
    destruct (Py.contains "[" seg); by apply String.eqb_eq.
Qed.

Lemma agree_at_column (first : list string) (rest : list (list string))
    (index : nat) (first_segment : string) (col : list string) :
  Forall2 (λ segs seg, segs !! index = Some seg) (first :: rest)
          (first_segment :: col) →
  Spec.agree_at (first :: rest) index ↔
  ∀ seg, seg ∈ first_segment :: col →
         Spec.key_base seg = Spec.key_base first_segment.
Proof.
  intros Hcol. pose proof Hcol as Hcol'.
  apply Forall2_cons in Hcol' as [Hfirst _].
  unfold Spec.agree_at. cbn [head mbind option_bind]. split.
  - intros (fs & Hfs & Hall) seg Hseg.
    assert (fs = first_segment) as -> by congruence.
    apply list_elem_of_lookup in Hseg as [i Hi].
    destruct (Forall2_lookup_r _ _ _ _ _ Hcol Hi) as (segs & Hsegs & Hs).
    apply list_elem_of_lookup_2 in Hsegs.
    destruct (Hall _ Hsegs) as (seg' & Hs' & Hb). congruence.
  - intros Hall. exists first_segment. split; [done|].
    intros segs Hsegs. apply list_elem_of_lookup in Hsegs as [i Hi].
    destruct (Forall2_lookup_l _ _ _ _ _ Hcol Hi) as (seg & Hseg & Hs).
    exists seg. split; [done|]. apply Hall.
    by eapply list_elem_of_lookup_2.
Qed.

(** The loop of [_model_specs_find_deepest_common_path_pattern] raises
    nothing and leaves the deepest common prefix. *)
Lemma common_loop_spec (first : list string) (rest : list (list string))
    (n index : nat) (acc : list string) :
  (∀ segs, segs ∈ first :: rest → (n + index ≤ length segs)%nat) →
  (∃ segs, segs ∈ first :: rest ∧ length segs = (n + index)%nat) →
  acc = take index first →
  (∀ j, (j < index)%nat → Spec.agree_at (first :: rest) j) →
  ∃ common,
    Final.common_loop (FE:=FE) (first :: rest) n index acc = Ok common ∧
    Spec.deepest_common_prefix (first :: rest) common.
Proof.
  revert index acc. induction n as [|n IH]; intros index acc Hlen Hmin Hacc Hagree.
  - assert (length acc = index) as Hl.
    { rewrite Hacc, length_take. apply Nat.min_l.
      apply (Hlen first). by apply elem_of_cons; left. }
    exists acc. split; [done|]. split; [|split].
    + exists first. split; [done|]. by rewrite Hl.
    + by rewrite Hl.
    + rewrite Hl. intros (fs & _ & Hall).
      destruct Hmin as (segs & Hin & Hsegs).
      destruct (Hall _ Hin) as (seg & Hseg & _).
      apply lookup_lt_Some in Hseg. simpl in Hsegs. lia.
  - cbn [Final.common_loop].
    destruct (column_spec index (first :: rest)) as (col & E & Hcol).
    { intros segs Hin. specialize (Hlen _ Hin). lia. }
    rewrite E, bind_Ok.
    destruct col as [|first_segment col]; [by apply Forall2_nil_inv_r in Hcol|].
    pose proof (agree_at_column _ _ _ _ _ Hcol) as Hiff.
    rewrite <-all_match_spec in Hiff.
    pose proof Hcol as Hcol'. apply Forall2_cons in Hcol' as [Hfirst _].
    assert (length acc = index) as Hl.
    { rewrite Hacc, length_take. apply Nat.min_l.
      apply lookup_lt_Some in Hfirst. lia. }
    destruct (forallb _ (first_segment :: col)) eqn:Hall.
    + apply IH.
      * intros segs Hin. specialize (Hlen _ Hin). lia.
      * destruct Hmin as (segs & Hin & Hsegs). exists segs.
        split; [done|lia].
      * rewrite Hacc. symmetry. by apply take_S_r.
      * intros j Hj. destruct (decide (j = index)) as [->|Hne].
        -- by apply Hiff.
        -- apply Hagree. lia.
    + exists acc. split; [done|]. split; [|split].
      * exists first. split; [done|]. by rewrite Hl.
      * by rewrite Hl.
      * rewrite Hl. intros Hag. apply Hiff in Hag. congruence.
Qed.

Lemma common_path_pattern_spec (aliases : list string) :
  aliases ≠ [] →
  ∃ common,
    Spec.deepest_common_prefix
      (map (λ a, Py.split "." (Final.alias_prefix a)) aliases) common ∧
    Final._model_specs_find_deepest_common_path_pattern (FE:=FE) aliases =
      Ok (match common with
          | [] => "root"
          | _ => Py.join "." common
          end).
Proof.
  intros Hne. unfold Final._model_specs_find_deepest_common_path_pattern.
  rewrite <-(map_map Final.alias_prefix (Py.split ".")).
  set (paths := map (Py.split ".") (map Final.alias_prefix aliases)).
  destruct (min_of_spec (map length paths)) as (m & -> & Hm & Hle).
  { subst paths. by destruct aliases. }
  destruct paths as [|first rest] eqn:Hp; [by destruct aliases|].
  destruct (common_loop_spec first rest m 0 []) as (common & -> & Hcommon).
  - intros segs Hin. rewrite Nat.add_0_r. apply Hle.
    apply list_elem_of_In, in_map, list_elem_of_In, Hin.
  - apply list_elem_of_In, in_map_iff in Hm as (segs & Hl & Hin).
    exists segs. split; [by apply list_elem_of_In|lia].
  - done.
  - intros j Hj. lia.
  - exists common. by rewrite bind_Ok.
Qed.
End CommonPrefix.

Section Fields.
Context {FE : Type}.

(** The field loop of [_model_specs_create_specs_and_adapters] ends
    without an exception only if every field has an alias; the aliases it
    collects are those of the fields, in their order, each with its
    wildcard flag. *)
Lemma collect_fields_spec (fs : list (string * FieldInfo))
    (acc fields : list (string * string * bool)) :
  Final.collect_fields (FE:=FE) fs acc = Ok fields →
  Forall (λ f, is_Some (alias f.2)) fs ∧
  map (λ f, f.1.2) fields = map (λ f, f.1.2) acc ++ omap (λ f, alias f.2) fs ∧
  (Forall (λ f, f.2 = Py.contains "[*]" f.1.2) acc →
   Forall (λ f, f.2 = Py.contains "[*]" f.1.2) fields).
Proof.
  revert acc. induction fs as [|[field_name field_info] fs IH]; intros acc.
  - intros [= <-]. split; [constructor|]. by rewrite app_nil_r.
  - cbn [Final.collect_fields].
    destruct (alias field_info) as [a|] eqn:Ha; [|done].
    intros H. destruct (IH _ H) as (Hall & Hmap & Hflags).
    split; [constructor; [by cbn [snd]; rewrite Ha|done]|].
    split.
    + rewrite Hmap, map_app. cbn [map fst snd omap list_omap].
      rewrite Ha. by rewrite <-app_assoc.
    + intros Hacc. apply Hflags. apply Forall_app. split; [done|].
      by constructor.
Qed.

Lemma collect_fields_missing (fs : list (string * FieldInfo))
    (acc : list (string * string * bool)) :
  (∃ f, f ∈ fs ∧ alias f.2 = None) →
  ∃ msg, Final.collect_fields (FE:=FE) fs acc = Raise (ValueError msg).
Proof.
  revert acc. induction fs as [|[field_name field_info] fs IH];
    intros acc (f & Hin & Hf).
  - by apply elem_of_nil in Hin.
  - cbn [Final.collect_fields].
    destruct (alias field_info) as [a|] eqn:Ha; [|by eexists].
    apply IH. exists f. split; [|done].
    apply elem_of_cons in Hin as [->|Hin]; [|done].
    cbn [snd] in Hf. congruence.
Qed.

Lemma wildcard_aliases_filter (fields : list (string * string * bool)) :
  Forall (λ f, f.2 = Py.contains "[*]" f.1.2) fields →
  map (λ f, f.1.2) (filter (λ f, f.2 = true) fields) =
  filter (λ a, Py.contains "[*]" a = true) (map (λ f, f.1.2) fields).
Proof.
  induction 1 as [|f fields Hf _ IH]; [done|].
  cbn [map]. rewrite !filter_cons. rewrite <-Hf.
  destruct (decide (f.2 = true)); cbn [map]; by rewrite IH.
Qed.

(** The pattern computed from the fields of a table. *)
Lemma pattern_of_spec (fs : list (string * FieldInfo))
    (fields : list (string * string * bool)) (pattern : string) :
  Final.collect_fields (FE:=FE) fs [] = Ok fields →
  Outcome.pattern_of (FE:=FE) fields = Ok pattern →
  let aliases := omap (λ f, alias f.2) fs in
  let wildcard_aliases := filter (λ a, Py.contains "[*]" a = true) aliases in
  Forall (λ f, is_Some (alias f.2)) fs ∧
  fs ≠ [] ∧
  (wildcard_aliases ≠ [] →
   ∃ l1 l2,
     map Final.alias_prefix wildcard_aliases = l1 ++ pattern :: l2 ∧
     (∀ q, q ∈ l1 →
        (length (Py.split "." q) < length (Py.split "." pattern))%nat) ∧
     (∀ q, q ∈ l2 →
        (length (Py.split "." q) ≤ length (Py.split "." pattern))%nat)) ∧
  (wildcard_aliases = [] →
   ∃ common,
     Spec.deepest_common_prefix
       (map (λ a, Py.split "." (Final.alias_prefix a)) aliases) common ∧
     pattern = match common with
               | [] => "root"
               | _ => Py.join "." common
               end).
Proof.
  intros Hc Hp aliases wildcard_aliases.
  destruct (collect_fields_spec _ _ _ Hc) as (Hall & Hmap & Hflags).
  cbn [map app] in Hmap. fold aliases in Hmap.
  specialize (Hflags (Forall_nil_2 _)).
  unfold Outcome.pattern_of in Hp.
  rewrite (wildcard_aliases_filter _ Hflags), Hmap in Hp.
  fold wildcard_aliases in Hp.
  split; [done|].
  destruct wildcard_aliases as [|w ws] eqn:Hw.
  - assert (aliases ≠ []) as Hne.
    { intros E. rewrite E in Hp. done. }
    split; [intros ->; by apply Hne|]. split; [done|]. intros _.
    destruct (common_path_pattern_spec (FE:=FE) aliases Hne)
      as (common & Hcommon & E).
    exists common. split; [done|]. congruence.
  - split; [intros ->; done|]. split; [|done]. intros _.
    unfold Final._model_specs_find_deepest_wildcard_path in Hp.
    destruct (max_by_spec (Py.count ".") (map Final.alias_prefix (w :: ws)))
      as (p & l1 & l2 & E & Hl & H1 & H2); [done|].
    rewrite E in Hp. injection Hp as <-.
    exists l1, l2. split; [done|]. split.
    + intros q Hq. rewrite !split_length. specialize (H1 _ Hq). lia.
    + intros q Hq. rewrite !split_length. specialize (H2 _ Hq). lia.
Qed.
End Fields.

Lemma count_zero (c : ascii) (s : string) :
  Py.count c s = 0 ↔ Py.contains (String c "") s = false.
Proof.
  induction s as [|d s IH]; [done|].
  rewrite contains_char_cons, <-IH. cbn [Py.count].
  destruct (Ascii.eqb_spec d c); split; try lia; intuition congruence.
Qed.

Lemma alias_prefix_head (a : string) :
  Py.contains "." a = true → Py.startswith "." a = false →
  ∃ c t, Final.alias_prefix a = String c t ∧ c ≠ "."%char.
Proof.
  intros Hdot Hstart. destruct a as [|c s]; [done|].
  assert (c ≠ "."%char) as Hc.
  { intros ->. by cbn in Hstart. }
  pose proof (split_length "." (String c s)) as Hlen.
  assert (Py.count "." (String c s) ≠ 0) as Hcount.
  { intros E. apply count_zero in E. congruence. }
  unfold Final.alias_prefix, Py.but_last. revert Hlen.
  cbn [Py.split]. destruct (Ascii.eqb_spec c ".") as [->|_]; [done|].
  destruct (Py.split "." s) as [|x [|y ys]]; cbn [length]; [lia..|].
  intros _. exists c.
  change (removelast (String c x :: y :: ys))
    with (String c x :: removelast (y :: ys)).
  destruct (removelast (y :: ys)) as [|z zs]; [by exists x|].
  rewrite join_cons by done. rewrite app_cons_s. by eexists.
Qed.

(** C8, amended.  In a parser made by [JSONParser.__init__], every table
    has an alias on each of its fields and has at least one field, and its
    attachment pattern is this.  If some alias holds [[*]], the pattern is
    the prefix (the alias without its last segment) of one of those aliases
    that has the most segments, the first of them in the order of the
    fields.  Otherwise, when the aliases are dotted paths that begin with a
    key (each has a [.] and none begins with one), it is the deepest common
    prefix of the prefixes of all the aliases, joined with [.]: segments of
    the first alias, as long as at that position every prefix has a segment
    with the same base name, and ["root"] when not even the first segments
    agree; it is never empty. *)
Theorem attachment_pattern_rule {Row FE : Type} (data_models : list ModelCls)
    (self : Final.JSONParser (Row:=Row) (FE:=FE))
    (name : string) (spec : Final.ModelSpec) :
  Final.__init__ data_models = Ok self →
  (name, spec) ∈ Final.model_specs (Final.compiled self) →
  let aliases := omap (λ f, alias f.2) (model_fields (Final.data_model spec)) in
  let wildcard_aliases := filter (λ a, Py.contains "[*]" a = true) aliases in
  let pattern := Final.json_path_pattern spec in
  Forall (λ f, is_Some (alias f.2)) (model_fields (Final.data_model spec)) ∧
  model_fields (Final.data_model spec) ≠ [] ∧
  (wildcard_aliases ≠ [] →
   ∃ l1 l2,
     map Final.alias_prefix wildcard_aliases = l1 ++ pattern :: l2 ∧
     (∀ q, q ∈ l1 →
        (length (Py.split "." q) < length (Py.split "." pattern))%nat) ∧
     (∀ q, q ∈ l2 →
        (length (Py.split "." q) ≤ length (Py.split "." pattern))%nat)) ∧
  (wildcard_aliases = [] →
   Forall (λ a, Py.contains "." a = true ∧ Py.startswith "." a = false)
          aliases →
   ∃ common,
     Spec.deepest_common_prefix
       (map (λ a, Py.split "." (Final.alias_prefix a)) aliases) common ∧
     pattern = match common with
               | [] => "root"
               | _ => Py.join "." common
               end ∧
     pattern ≠ "").
Proof.
  intros Hinit Hin aliases wildcard_aliases pattern.
  destruct (init_compiled_ok _ _ Hinit) as [[_ Hok] _].
  destruct (Hok _ _ Hin) as (_ & _ & fields & Hc & _ & Hp).
  destruct (pattern_of_spec _ _ _ Hc Hp) as (H1 & H2 & H3 & H4).
  split; [done|]. split; [done|]. split; [done|].
  intros Hw Hdotted. destruct (H4 Hw) as (common & Hcommon & Hpat).
  fold aliases in Hcommon. fold pattern in Hpat.
  exists common. split; [done|]. split; [done|].
  rewrite Hpat. destruct common as [|x l]; [done|].
  destruct Hcommon as ((first & Hfirst & Htake) & _ & _).
  destruct aliases as [|a0 rest]; [done|].
  apply Forall_cons in Hdotted as [[Hdot Hstart] _].
  destruct (alias_prefix_head a0 Hdot Hstart) as (c & t & Hpre & Hc').
  cbn [map head] in Hfirst. injection Hfirst as <-.
  rewrite Hpre in Htake. cbn [Py.split length] in Htake.
  destruct (Ascii.eqb_spec c ".") as [->|_]; [done|].
  destruct (Py.split "." t) as [|y ys]; cbn [take] in Htake;
    injection Htake as -> _;
    (destruct l as [|z zs]; [done|by rewrite join_cons, app_cons_s]).
Qed.

Lemma attachment_pattern_rule_witness :
  ∃ (self : Final.JSONParser (Row:=Record) (FE:=list string)) spec,
    Final.__init__ [Sample.Invoice; Sample.InvoiceItemTransaction] = Ok self ∧
    Final.model_specs (Final.compiled self) !! 1
      = Some ("InvoiceItemTransaction", spec) ∧
    Final.json_path_pattern spec = "root.invoice_items[*].transactions[*]" ∧
    model_fields (Final.data_model spec) ≠ [].
Proof.
  eexists. eexists. split; [vm_compute; reflexivity|].
  split; [vm_compute; reflexivity|]. split; [reflexivity|].
  refine (proj1 (proj2 (attachment_pattern_rule (Row:=Record) (FE:=list string)
                          [Sample.Invoice; Sample.InvoiceItemTransaction]
                          _ "InvoiceItemTransaction" _ _ _))).
  - vm_compute. reflexivity.
  - apply list_elem_of_lookup_2 with (i := 1). reflexivity.
Defined.

(** C8 as it is worded fails for [infer_model_specs] of [spec_based.py],
    which takes the prefix of the primary-key alias where there is one: a
    table with the key [root.id] and a field under [root.items[*]] is
    attached at ["root"], where [final_rendition.py] attaches it at
    [root.items[*]]. *)
Lemma attachment_pattern_counterexample :
  (∃ spec, SpecBased.infer_model_specs (FE:=list string)
             [("Tagged", Sample.Tagged)] = Ok [spec] ∧
           SpecBased.path_pattern spec = "root") ∧
  (∃ (self : Final.JSONParser (Row:=Record) (FE:=list string)) spec,
     Final.__init__ [Sample.Tagged] = Ok self ∧
     Final.model_specs (Final.compiled self) = [("Tagged", spec)] ∧
     Final.json_path_pattern spec = "root.items[*]").
Proof.
  split.
  - eexists. split; vm_compute; reflexivity.
  - eexists. eexists. split; [vm_compute; reflexivity|].
    split; vm_compute; reflexivity.
Qed.

(** ** Schemas that [__init__] refuses *)

Section Refusal.
Context {FE : Type}.

Lemma collect_fields_raises (fs : list (string * FieldInfo))
    (acc : list (string * string * bool)) (e : exn FE) :
  Final.collect_fields fs acc = Raise e → ∃ msg, e = ValueError msg.
Proof.
  revert acc. induction fs as [|[field_name field_info] fs IH]; intros acc.
  - done.
  - cbn [Final.collect_fields]. destruct (alias field_info); [apply IH|].
    intros [= <-]. by eexists.
Qed.

(** Compiling one table gives a spec or raises a [ValueError]; an
    [IndexError] from the column of segments cannot occur. *)
Lemma compile_one_cases (c : Final.Compiled) (m : ModelCls) :
  (∃ c', Final.compile_one (FE:=FE) c m = Ok c') ∨
  (∃ msg, Final.compile_one (FE:=FE) c m = Raise (ValueError msg)).
Proof.
  unfold Final.compile_one.
  destruct (Final.collect_fields (model_fields m) []) as [fields|e] eqn:Hf.
  - rewrite bind_Ok.
    destruct (map (λ f, f.1.2) (filter (λ f, f.2 = true) fields))
      as [|w ws] eqn:Hw.
    + destruct (map (λ f, f.1.2) fields) as [|a aliases] eqn:Ha.
      * right. by eexists.
      * destruct (common_path_pattern_spec (FE:=FE) (a :: aliases))
          as (common & _ & ->); [done|].
        rewrite bind_Ok. left. by eexists.
    + unfold Final._model_specs_find_deepest_wildcard_path.
      destruct (max_by_spec (Py.count ".") (map Final.alias_prefix (w :: ws)))
        as (p & _ & _ & -> & _); [done|].
      rewrite bind_Ok. left. by eexists.
  - destruct (collect_fields_raises _ _ _ Hf) as [msg ->].
    right. by exists msg.
Qed.

Lemma compile_one_invalid (c : Final.Compiled) (m : ModelCls) :
  model_fields m = [] ∨ (∃ f, f ∈ model_fields m ∧ alias f.2 = None) →
  ∃ msg, Final.compile_one (FE:=FE) c m = Raise (ValueError msg).
Proof.
  intros [Hempty|Hmissing]; unfold Final.compile_one.
  - rewrite Hempty. cbn [Final.collect_fields]. rewrite bind_Ok.
    by eexists.
  - destruct (collect_fields_missing (FE:=FE) _ [] Hmissing) as [msg ->].
    by exists msg.
Qed.

Lemma create_specs_invalid (c : Final.Compiled) (data_models : list ModelCls) :
  (∃ m, m ∈ data_models ∧
        (model_fields m = [] ∨ ∃ f, f ∈ model_fields m ∧ alias f.2 = None)) →
  ∃ msg, Final._model_specs_create_specs_and_adapters (FE:=FE) c data_models
         = Raise (ValueError msg).
Proof.
  revert c. induction data_models as [|m0 ms IH]; intros c (m & Hin & Hbad).
  - by apply elem_of_nil in Hin.
  - cbn [Final._model_specs_create_specs_and_adapters].
    apply elem_of_cons in Hin as [->|Hin].
    + destruct (compile_one_invalid c m0 Hbad) as [msg ->]. by exists msg.
    + destruct (compile_one_cases c m0) as [[c' ->]|[msg ->]];
        [|by exists msg].
      rewrite bind_Ok. apply IH. by exists m.
Qed.
End Refusal.

(** C9, amended.  [JSONParser.__init__] raises a [ValueError], and so
    makes no parser, no table spec and no walk, whenever one of the schemas
    it is given has no field or has a field without alias. *)
Theorem invalid_schema_is_refused {Row FE : Type} (data_models : list ModelCls) :
  (∃ m, m ∈ data_models ∧
        (model_fields m = [] ∨ ∃ f, f ∈ model_fields m ∧ alias f.2 = None)) →
  ∃ msg, Final.__init__ (Row:=Row) (FE:=FE) data_models = Raise (ValueError msg).
Proof.
  intros Hbad. unfold Final.__init__.
  destruct (create_specs_invalid (FE:=FE) (Final.mkCompiled [] ∅ ∅)
              data_models Hbad) as [msg ->].
  by exists msg.
Qed.

Lemma invalid_schema_is_refused_witness :
  ∃ msg, Final.__init__ (Row:=Record) (FE:=list string)
           [Sample.Invoice; Sample.Unaliased] = Raise (ValueError msg).
Proof.
  apply (invalid_schema_is_refused [Sample.Invoice; Sample.Unaliased]).
  exists Sample.Unaliased. split.
  - apply list_elem_of_lookup_2 with (i := 1). reflexivity.
  - right. exists ("note", mkField None ExtraNone false). split; [|reflexivity].
    apply list_elem_of_lookup_2 with (i := 1). reflexivity.
Defined.

(** C9 as it is worded fails for [infer_model_specs] of [spec_based.py]:
    it passes over a field without alias and gives a schema without fields
    the pattern ["root"]; it raises for neither. *)
Lemma invalid_schema_counterexample :
  SpecBased.infer_model_specs (FE:=list string)
    [("Empty", Sample.Empty); ("Unaliased", Sample.Unaliased)] =
  Ok [SpecBased.mkSpec Sample.Empty "root" None;
      SpecBased.mkSpec Sample.Unaliased "root" None].
Proof. vm_compute. reflexivity. Qed.

(** * Further properties of the code *)

(** ** The index of a walk: [_index_path] of [done.py] *)

(** X1.  Walked from the empty index, [_index_path] leaves an entry under
    exactly the paths of the places of the document: the path the walk
    began with, followed by [.key] for each mapping entered and [[i]] for
    each list entered. *)
Theorem index_holds_exactly_the_places (doc : Value) (path k : string) :
  is_Some (Done._index_path doc path ∅ !! k) ↔
  ∃ steps v, Spec.at_loc doc steps v ∧ k = path +:+ Spec.render steps.
Proof.
  split.
  - intros [v Hv]. apply index_path_origin in Hv as [Hv|(steps & Hloc & E)].
    + by rewrite lookup_empty in Hv.
    + by exists steps, v.
  - intros (steps & v & Hloc & ->). by eapply index_path_covers.
Qed.

(** X2.  [_index_path] writes only under the paths of the places of the
    value it walks: an entry of the index under any other key is after the
    walk what it was before, and a key that was absent stays absent.  (So
    in [parse_batch], which walks each document on the index the one before
    left, what an earlier document had and a later one lacks is still
    there.) *)
Theorem index_keeps_what_it_does_not_visit (obj : Value) (path k : string)
    (idx : gmap string Value) :
  (∀ steps v, Spec.at_loc obj steps v → k ≠ path +:+ Spec.render steps) →
  Done._index_path obj path idx !! k = idx !! k.
Proof.
  intros Hk. destruct (Done._index_path obj path idx !! k) as [v|] eqn:E.
  - apply index_path_origin in E as [E|(steps & Hloc & ->)]; [done|].
    by destruct (Hk _ _ Hloc).
  - destruct (idx !! k) as [w|] eqn:E'; [|done].
    destruct (index_path_mono obj path idx k) as [u Hu]; [by eexists|].
    congruence.
Qed.

Lemma index_keeps_what_it_does_not_visit_witness :
  Done._index_path Sample.bare_invoice "root"
    (Done._index_path Sample.good_invoice "root" ∅) !! "root.total_amount"
  = Done._index_path Sample.good_invoice "root" ∅ !! "root.total_amount".
Proof.
  apply (index_keeps_what_it_does_not_visit Sample.bare_invoice "root"
           "root.total_amount").
  intros steps v Hloc E.
  inversion Hloc as [|items key child st w Hin Hchild|]; subst.
  - discriminate E.
  - apply list_elem_of_singleton in Hin. injection Hin as -> ->.
    inversion Hchild; subst. discriminate E.
Defined.

(** ** The two resolvers *)

Lemma scan_agree (key : string) (rest : list string) (i : nat) :
  Final.scan key rest i =
  match Done.scan key rest i with
  | (Some g, j) => Some (g, j)
  | (None, _) => None
  end.
Proof.
  revert i. induction rest as [|seg rest IH]; intros i; [done|].
  cbn [Final.scan Done.scan].
  destruct (Py.startswith (key +:+ "[") seg); [|apply IH].
  destruct (Py.index_search seg); [done|apply IH].
Qed.

Lemma done_fold_extends (cur segs res : list string) (i : nat) :
  ∃ more, (foldl (Done.resolve_step cur) (res, i) segs).1 = res ++ more.
Proof.
  revert res i. induction segs as [|seg segs IH]; intros res i.
  - exists []. by rewrite app_nil_r.
  - cbn [foldl]. unfold Done.resolve_step at 2.
    destruct (Py.contains "[*]" seg);
      [destruct (Done.scan _ _ i) as [[g|] j]|];
      match goal with
      | |- context [foldl _ (res ++ [?x], ?j) segs] =>
          destruct (IH (res ++ [x]) j) as [more ->];
          exists (x :: more); by rewrite <-app_assoc
      end.
Qed.

Lemma final_fold_extends (cur segs res : list string) (i : nat) :
  ∃ more, (foldl (Final.replace_step cur) (res, i) segs).1 = res ++ more.
Proof.
  revert res i. induction segs as [|seg segs IH]; intros res i.
  - exists []. by rewrite app_nil_r.
  - cbn [foldl]. unfold Final.replace_step at 2.
    destruct (Py.contains "[*]" seg);
      [destruct (Final.scan _ _ i) as [[g j]|]|];
      match goal with
      | |- context [foldl _ (res ++ [?x], ?j) segs] =>
          destruct (IH (res ++ [x]) j) as [more ->];
          exists (x :: more); by rewrite <-app_assoc
      end.
Qed.

(** As long as no scan has failed the two loops are in the same state. *)
Lemma folds_agree (cur segs res : list string) (i : nat) :
  Forall (λ s, Py.contains "[*]" s = false)
         (foldl (Done.resolve_step cur) (res, i) segs).1
  ∨ Forall (λ s, Py.contains "[*]" s = false)
           (foldl (Final.replace_step cur) (res, i) segs).1 →
  foldl (Final.replace_step cur) (res, i) segs =
  foldl (Done.resolve_step cur) (res, i) segs.
Proof.
  revert res i. induction segs as [|seg segs IH]; intros res i H; [done|].
  cbn [foldl] in *.
  destruct (Py.contains "[*]" seg) eqn:Hw.
  - unfold Done.resolve_step at 2, Final.replace_step at 2.
    unfold Done.resolve_step at 2 in H. unfold Final.replace_step at 2 in H.
    rewrite Hw in *. rewrite scan_agree in *.
    destruct (Done.scan _ (drop i cur) i) as [[g|] j]; [by apply IH|].
    exfalso.
    destruct (done_fold_extends cur segs (res ++ [seg]) j) as [m1 E1].
    destruct (final_fold_extends cur segs (res ++ [seg]) i) as [m2 E2].
    rewrite E1, E2 in H.
    assert (Forall (λ s, Py.contains "[*]" s = false) (res ++ [seg])) as Hbad.
    { destruct H as [H|H]; by apply Forall_app in H as [H _]. }
    apply Forall_app in Hbad as [_ Hbad]. rewrite Forall_singleton in Hbad.
    congruence.
  - unfold Done.resolve_step at 2, Final.replace_step at 2.
    unfold Done.resolve_step at 2 in H. unfold Final.replace_step at 2 in H.
    rewrite Hw in *. by apply IH.
Qed.

Lemma join_no_wildcard (out : list string) :
  Py.contains "[*]" (Py.join "." out) = false →
  Forall (λ s, Py.contains "[*]" s = false) out.
Proof.
  intros H. apply Forall_forall. intros seg Hin.
  destruct (Py.contains "[*]" seg) eqn:E; [|done].
  by rewrite (contains_join "[*]" "." seg out Hin E) in H.
Qed.

(** X3.  [resolve_alias_with_wildcards] of [done.py] and
    [_parsing_replace_wildcard_with_index] of [final_rendition.py] give the
    same path whenever one of them gives a path without [[*]]: they can
    differ only after a wildcard that found no segment, where [done.py]
    leaves its cursor at the end of the current path and
    [final_rendition.py] leaves it where it was. *)
Theorem resolvers_agree_when_resolved (alias_path current_path : string) :
  Py.contains "[*]" (Done.resolve_alias_with_wildcards alias_path current_path)
    = false
  ∨ Py.contains "[*]"
      (Final._parsing_replace_wildcard_with_index alias_path current_path)
    = false →
  Final._parsing_replace_wildcard_with_index alias_path current_path =
  Done.resolve_alias_with_wildcards alias_path current_path.
Proof.
  unfold Done.resolve_alias_with_wildcards,
    Final._parsing_replace_wildcard_with_index.
  intros H.
  rewrite (folds_agree (Py.split "." current_path) (Py.split "." alias_path) [] 0);
    [done|].
  destruct (foldl (Done.resolve_step _) _ _) as [d jd].
  destruct (foldl (Final.replace_step _) _ _) as [f jf].
  cbn [fst]. destruct H as [H|H]; [left|right]; by apply join_no_wildcard.
Qed.

Lemma resolvers_agree_when_resolved_witness :
  Final._parsing_replace_wildcard_with_index
    "root.invoice_items[*].transactions[*].amount"
    "root.invoice_items[2].transactions[0]" =
  Done.resolve_alias_with_wildcards
    "root.invoice_items[*].transactions[*].amount"
    "root.invoice_items[2].transactions[0]".
Proof.
  apply (resolvers_agree_when_resolved
           "root.invoice_items[*].transactions[*].amount"
           "root.invoice_items[2].transactions[0]").
  left. vm_compute. reflexivity.
Defined.

(** ** Every mapping node is visited *)

Lemma events_items_in (items : list (string * Value)) (key : string)
    (child : Value) (path : string) (idx : gmap string Value) :
  (key, child) ∈ items → is_container child = true →
  ∃ idx0, ∀ ev, ev ∈ Trace.events child (path +:+ "." +:+ key) idx0 →
                ev ∈ Trace.events_items Trace.events items path idx.
Proof.
  intros Hin Hc. revert idx.
  induction items as [|[k v] items IH]; intros idx.
  { by apply elem_of_nil in Hin. }
  cbn [Trace.events_items]. apply elem_of_cons in Hin as [Heq|Hin].
  - injection Heq as <- <-. rewrite Hc. eexists. intros ev Hev.
    apply elem_of_app. left. exact Hev.
  - destruct (is_container v).
    + destruct (IH Hin (Done._index_path v (path +:+ "." +:+ k)
                          (<[path +:+ "." +:+ k := v]> idx))) as [idx0 H0].
      exists idx0. intros ev Hev. apply elem_of_app. right. by apply H0.
    + destruct (IH Hin (<[path +:+ "." +:+ k := v]> idx)) as [idx0 H0].
      exists idx0. intros ev Hev. by apply H0.
Qed.

Lemma events_elems_in (elems : list Value) (i : nat) (child : Value)
    (index : nat) (path : string) (idx : gmap string Value) :
  elems !! i = Some child → is_container child = true →
  ∃ idx0, ∀ ev,
    ev ∈ Trace.events child (path +:+ "[" +:+ Py.str (index + i) +:+ "]") idx0 →
    ev ∈ Trace.events_elems Trace.events elems index path idx.
Proof.
  intros Hi Hc. revert i index idx Hi.
  induction elems as [|e elems IH]; intros i index idx Hi; [done|].
  cbn [Trace.events_elems]. destruct i as [|i]; simpl in Hi.
  - injection Hi as ->. rewrite Hc, Nat.add_0_r. eexists. intros ev Hev.
    apply elem_of_app. left. exact Hev.
  - replace (index + S i) with (S index + i) by lia. destruct (is_container e).
    + destruct (IH i (S index)
                  (Done._index_path e (path +:+ "[" +:+ Py.str index +:+ "]")
                     (<[path +:+ "[" +:+ Py.str index +:+ "]" := e]> idx)) Hi)
        as [idx0 H0].
      exists idx0. intros ev Hev. apply elem_of_app. right. by apply H0.
    + destruct (IH i (S index)
                  (<[path +:+ "[" +:+ Py.str index +:+ "]" := e]> idx) Hi)
        as [idx0 H0].
      exists idx0. intros ev Hev. by apply H0.
Qed.

(** The walk makes an attempt at every mapping node, under its path. *)
Lemma events_complete (obj : Value) (steps : list Spec.step)
    (items : list (string * Value)) :
  Spec.at_loc obj steps (VDict items) →
  ∀ path idx, ∃ idx',
    (items, path +:+ Spec.render steps, idx') ∈ Trace.events obj path idx.
Proof.
  intros Hloc. remember (VDict items) as node eqn:Hnode.
  induction Hloc as [v|its key child st v Hin Hloc IH
                     |elems index child st v Hi Hloc IH]; intros path idx.
  - subst v. rewrite render_nil. cbn [Trace.events]. eexists.
    apply elem_of_app. right. by apply list_elem_of_singleton.
  - assert (is_container child = true) as Hc.
    { destruct (is_container child) eqn:E; [done|].
      pose proof (at_loc_scalar _ _ _ E Hloc) as ->.
      inversion Hloc; subst. done. }
    rewrite render_cons_key. cbn [Trace.events].
    destruct (events_items_in its key child path (<[path := VDict its]> idx)
                Hin Hc) as [idx0 H0].
    destruct (IH Hnode (path +:+ "." +:+ key) idx0) as [idx' Hev].
    exists idx'. apply elem_of_app. left. by apply H0.
  - assert (is_container child = true) as Hc.
    { destruct (is_container child) eqn:E; [done|].
      pose proof (at_loc_scalar _ _ _ E Hloc) as ->.
      inversion Hloc; subst. done. }
    rewrite render_cons_index. cbn [Trace.events].
    destruct (events_elems_in elems index child 0 path
                (<[path := VList elems]> idx) Hi Hc) as [idx0 H0].
    destruct (IH Hnode (path +:+ "[" +:+ Py.str index +:+ "]") idx0)
      as [idx' Hev].
    exists idx'. by apply H0.
Qed.

(** X4.  Nothing is passed over by [extract_model_data] of [done.py]: for
    every mapping node of the document and every spec whose pattern the
    path of the node matches, the record assembled at that node is in the
    output, as a row of the spec's table when the model validates it, as an
    entry of the error list, with the path and the pattern, when it does
    not. *)
Theorem every_matching_node_is_answered {Row FE : Type}
    (validate : ModelCls → Record → FE + Row)
    (doc : Value) (specs : list Done.ModelSpec)
    (R : gmap string (list Row)) (E : list (Error FE))
    (steps : list Spec.step) (items : list (string * Value))
    (spec : Done.ModelSpec) :
  Done.extract_model_data validate doc specs = Ok (R, E) →
  Spec.at_loc doc steps (VDict items) →
  spec ∈ specs →
  path_matches ("root" +:+ Spec.render steps) (Done.path_pattern spec) = true →
  ∃ idx,
    (items, "root" +:+ Spec.render steps, idx) ∈ Trace.events doc "root" ∅ ∧
    match validate (Done.model_cls spec)
            (Done._build_model_data items ("root" +:+ Spec.render steps)
               spec idx) with
    | inr row =>
        ∃ rows, R !! Done.path_pattern spec = Some rows ∧ row ∈ rows
    | inl e =>
        mkError ("root" +:+ Spec.render steps) (Done.path_pattern spec) e ∈ E
    end.
Proof.
  intros Hres Hloc Hspec Hmatch.
  destruct (done_extract_model_data_spec validate doc specs) as (R0 & HR & Hrows).
  rewrite HR in Hres. injection Hres as <- <-.
  destruct (events_complete _ _ _ Hloc "root" ∅) as [idx Hev].
  exists idx. split; [done|].
  set (path := "root" +:+ Spec.render steps) in *.
  set (data := Done._build_model_data items path spec idx).
  assert ((path, spec, data)
            ∈ Outcome.attempts specs (Trace.events doc "root" ∅)) as Hatt.
  { unfold Outcome.attempts. apply list_elem_of_bind.
    exists (items, path, idx). split; [|done].
    unfold Outcome.attempts_at. apply list_elem_of_omap.
    exists spec. split; [done|]. unfold Outcome.attempt_of. cbn [fst snd].
    by rewrite Hmatch. }
  destruct (validate (Done.model_cls spec) data) as [e|row] eqn:Hv.
  - apply list_elem_of_omap. exists (path, spec, data). split; [done|].
    unfold Outcome.error_of. cbn [fst snd]. by rewrite Hv.
  - rewrite Hrows. rewrite decide_True.
    + eexists. split; [done|]. apply list_elem_of_omap.
      exists (path, spec, data). split; [done|].
      unfold Outcome.row_of. cbn [fst snd]. rewrite decide_True by done.
      by rewrite Hv.
    + apply list_elem_of_fmap. by exists spec.
Qed.

Lemma every_matching_node_is_answered_witness :
  ∃ R E,
    Done.extract_model_data Sample.validate Sample.small
      [Done.mkSpec (mkModel "B" [("b", Sample.field "root.a[*].b")])
         "root.a[*]" None] = Ok (R, E) ∧
    ∃ idx,
      ([("b", VNum 1)], "root" +:+ Spec.render [Spec.SKey "a"; Spec.SIdx 1], idx)
        ∈ Trace.events Sample.small "root" ∅ ∧
      match Sample.validate (mkModel "B" [("b", Sample.field "root.a[*].b")])
              (Done._build_model_data [("b", VNum 1)]
                 ("root" +:+ Spec.render [Spec.SKey "a"; Spec.SIdx 1])
                 (Done.mkSpec (mkModel "B" [("b", Sample.field "root.a[*].b")])
                    "root.a[*]" None) idx) with
      | inr row => ∃ rows, R !! "root.a[*]" = Some rows ∧ row ∈ rows
      | inl e =>
          mkError ("root" +:+ Spec.render [Spec.SKey "a"; Spec.SIdx 1])
            "root.a[*]" e ∈ E
      end.
Proof.
  eexists. eexists. split; [vm_compute; reflexivity|].
  apply (every_matching_node_is_answered Sample.validate Sample.small
           [Done.mkSpec (mkModel "B" [("b", Sample.field "root.a[*].b")])
              "root.a[*]" None]
           _ _ [Spec.SKey "a"; Spec.SIdx 1] [("b", VNum 1)]
           (Done.mkSpec (mkModel "B" [("b", Sample.field "root.a[*].b")])
              "root.a[*]" None)).
  - vm_compute. reflexivity.
  - eapply Spec.at_key; [apply list_elem_of_here|].
    eapply Spec.at_index; [reflexivity|]. constructor.
  - apply list_elem_of_here.
  - reflexivity.
Defined.

(** ** [parse] and [parse_batch] of [final_rendition.py] *)

(** X5.  [parse] is [clear_index_cache] followed by a [parse_batch] of the
    one document, but for what it hands back: the parser is left in the same
    state by both, and [parse] raises the error list where [parse_batch]
    returns the results. *)
Theorem parse_is_a_batch_of_one {Row FE : Type}
    (validate : ModelCls → Record → FE + Row)
    (self : Final.JSONParser (Row:=Row) (FE:=FE)) (json_obj : Value) :
  let batch := Final.parse_batch validate (Final.clear_index_cache self)
                 [json_obj] in
  (Final.parse validate self json_obj).1 = batch.1 ∧
  (Final.parse validate self json_obj).2 =
    match batch.2 with
    | Ok R =>
        match Final.errors batch.1 with
        | [] => Ok R
        | _ :: _ => Raise (ValueErrorOf (Final.errors batch.1))
        end
    | Raise e => Raise e
    end.
Proof.
  unfold Final.parse, Final.parse_batch. cbn [Final.batch_loop].
  cbn [Final.clear_index_cache Final.clear_batch_results Final.compiled
       Final.errors Final.indexed_cache Final.results].
  destruct (Final._parsing_walk validate _ json_obj) as [self' [e|]];
    [done|].
  cbn [fst snd]. by destruct (Final.errors self').
Qed.

Lemma events_batch_app (docs1 docs2 : list Value) (idx : gmap string Value) :
  Trace.events_batch (docs1 ++ docs2) idx =
  Trace.events_batch docs1 idx
  ++ Trace.events_batch docs2 (Trace.index_batch docs1 idx).
Proof.
  revert idx. induction docs1 as [|doc docs1 IH]; intros idx; [done|].
  cbn [app Trace.events_batch Trace.index_batch]. by rewrite IH, app_assoc.
Qed.

Lemma index_batch_app (docs1 docs2 : list Value) (idx : gmap string Value) :
  Trace.index_batch (docs1 ++ docs2) idx =
  Trace.index_batch docs2 (Trace.index_batch docs1 idx).
Proof.
  revert idx. induction docs1 as [|doc docs1 IH]; intros idx; [done|].
  cbn [app Trace.index_batch]. by rewrite IH.
Qed.

(** X6.  A batch is worked off document by document.  On a parser made by
    [__init__], [parse_batch] of [docs1 ++ docs2] leaves the index and the
    error list that [parse_batch] of [docs1] followed by [parse_batch] of
    [docs2] leaves, and its rows are, table by table, the rows of the first
    call followed by the rows of the second: the second part of a batch is
    read with the index the first part left. *)
Theorem parse_batch_splits {Row FE : Type}
    (validate : ModelCls → Record → FE + Row)
    (data_models : list ModelCls)
    (self0 self : Final.JSONParser (Row:=Row) (FE:=FE))
    (docs1 docs2 : list Value) :
  Final.__init__ data_models = Ok self0 →
  Final.compiled self = Final.compiled self0 →
  let self1 := (Final.parse_batch validate self docs1).1 in
  let self2 := (Final.parse_batch validate self1 docs2).1 in
  let self12 := (Final.parse_batch validate self (docs1 ++ docs2)).1 in
  Final.indexed_cache self12 = Final.indexed_cache self2 ∧
  Final.errors self12 = Final.errors self2 ∧
  ∀ t, Final.results self12 !! t =
       (Final.results self1 !! t) ≫= λ rows1,
       (Final.results self2 !! t) ≫= λ rows2, Some (rows1 ++ rows2).
Proof.
  intros Hinit Hc self1 self2 self12.
  destruct (init_compiled_ok _ _ Hinit) as [Hok _]. rewrite <-Hc in Hok.
  destruct (final_parse_batch_spec validate self docs1 Hok) as (R1 & HR1 & E1).
  destruct (final_parse_batch_spec validate self (docs1 ++ docs2) Hok)
    as (R12 & HR12 & E12).
  subst self1 self2 self12. rewrite E12, E1. cbn [fst].
  match goal with
  | |- context [Final.parse_batch validate ?s docs2] =>
      destruct (final_parse_batch_spec validate s docs2 Hok) as (R2 & HR2 & E2)
  end.
  rewrite E2.
  cbn [fst Final.compiled Final.errors Final.indexed_cache Final.results] in *.
  split; [by rewrite index_batch_app|].
  rewrite events_batch_app. unfold Outcome.fattempts. rewrite bind_app.
  split; [by rewrite omap_app, app_assoc|].
  intros t. rewrite HR12, HR1, HR2. unfold Outcome.fattempts.
  rewrite events_batch_app, bind_app, omap_app.
  by case_decide.
Qed.

Lemma parse_batch_splits_witness :
  ∃ self : Final.JSONParser (Row:=Record) (FE:=list string),
    Final.__init__ [Sample.Invoice] = Ok self ∧
    Final.indexed_cache
      (Final.parse_batch Sample.validate self
         ([Sample.good_invoice] ++ [Sample.bare_invoice])).1 =
    Final.indexed_cache
      (Final.parse_batch Sample.validate
         (Final.parse_batch Sample.validate self [Sample.good_invoice]).1
         [Sample.bare_invoice]).1.
Proof.
  eexists. split; [vm_compute; reflexivity|].
  refine (proj1 (parse_batch_splits Sample.validate [Sample.Invoice] _ _
                   [Sample.good_invoice] [Sample.bare_invoice] _ _)).
  - vm_compute. reflexivity.
  - reflexivity.
Defined.

Lemma events_batch_in (docs : list Value) (doc : Value)
    (idx : gmap string Value) :
  doc ∈ docs →
  ∃ idx0, ∀ ev, ev ∈ Trace.events doc "root" idx0 →
                ev ∈ Trace.events_batch docs idx.
Proof.
  revert idx. induction docs as [|d docs IH]; intros idx Hin.
  { by apply elem_of_nil in Hin. }
  cbn [Trace.events_batch]. apply elem_of_cons in Hin as [->|Hin].
  - exists idx. intros ev Hev. apply elem_of_app. by left.
  - destruct (IH (Done._index_path d "root" idx) Hin) as [idx0 H0].
    exists idx0. intros ev Hev. apply elem_of_app. right. by apply H0.
Qed.

(** X7.  Nothing is passed over by [parse_batch] either.  On a parser made
    by [__init__], for every document of the batch, every mapping node of
    it and every table whose pattern the path of the node matches, the walk
    makes an attempt at that node, and the record assembled there from the
    index the attempt is given is in the parser afterwards: as a row of the
    table when the adapter validates it, as an entry of the error list, with
    the path and the name of the table, when it does not. *)
Theorem every_matching_node_is_parsed {Row FE : Type}
    (validate : ModelCls → Record → FE + Row)
    (data_models : list ModelCls)
    (self0 self : Final.JSONParser (Row:=Row) (FE:=FE))
    (docs : list Value) (doc : Value)
    (steps : list Spec.step) (items : list (string * Value))
    (name : string) (spec : Final.ModelSpec) :
  Final.__init__ data_models = Ok self0 →
  Final.compiled self = Final.compiled self0 →
  doc ∈ docs →
  Spec.at_loc doc steps (VDict items) →
  (name, spec) ∈ Final.model_specs (Final.compiled self) →
  path_matches ("root" +:+ Spec.render steps) (Final.json_path_pattern spec)
    = true →
  let after := (Final.parse_batch validate self docs).1 in
  ∃ idx data,
    (items, "root" +:+ Spec.render steps, idx)
      ∈ Trace.events_batch docs (Final.indexed_cache self) ∧
    Final._parsing_build_model_data (FE:=FE) (Final.compiled self) idx
      ("root" +:+ Spec.render steps) spec = Ok data ∧
    match validate (Final.data_model spec) data with
    | inr row => ∃ rows, Final.results after !! name = Some rows ∧ row ∈ rows
    | inl e => mkError ("root" +:+ Spec.render steps) name e ∈ Final.errors after
    end.
Proof.
  intros Hinit Hc Hdoc Hloc Hspec Hmatch after.
  destruct (init_compiled_ok _ _ Hinit) as [Hok _]. rewrite <-Hc in Hok.
  destruct (final_parse_batch_spec validate self docs Hok) as (R & HR & E).
  subst after. rewrite E. cbn [fst Final.results Final.errors].
  destruct (events_batch_in docs doc (Final.indexed_cache self) Hdoc)
    as [idx0 Hsub].
  destruct (events_complete _ _ _ Hloc "root" idx0) as [idx Hev].
  apply Hsub in Hev.
  set (path := "root" +:+ Spec.render steps) in *.
  destruct Hok as [Hnd Hall].
  destruct (Hall _ _ Hspec) as (Hname & Hadapter & fields & _ & Hcache & _).
  set (data := map (Final.field_value idx path) fields).
  exists idx, data. split; [done|]. split.
  { unfold Final._parsing_build_model_data. by rewrite <-Hname, Hcache. }
  assert ((path, name, Final.data_model spec, data)
            ∈ Outcome.fattempts (Final.compiled self)
                (Trace.events_batch docs (Final.indexed_cache self))) as Hatt.
  { unfold Outcome.fattempts. apply list_elem_of_bind.
    exists (items, path, idx). split; [|done].
    unfold Outcome.fattempts_at. apply list_elem_of_omap.
    exists (name, spec). split; [done|]. unfold Outcome.fattempt_of.
    cbn [fst snd]. rewrite Hmatch, <-Hname, Hcache. cbn [mbind option_bind].
    by rewrite Hadapter. }
  destruct (validate (Final.data_model spec) data) as [e|row] eqn:Hv.
  - apply elem_of_app. right. apply list_elem_of_omap.
    exists (path, name, Final.data_model spec, data). split; [done|].
    unfold Outcome.ferror_of. cbn [fst snd]. by rewrite Hv.
  - rewrite HR. rewrite decide_True.
    + eexists. split; [done|]. apply list_elem_of_omap.
      exists (path, name, Final.data_model spec, data). split; [done|].
      unfold Outcome.frow_of. cbn [fst snd]. rewrite decide_True by done.
      by rewrite Hv.
    + apply list_elem_of_fmap. by exists (name, spec).
Qed.

Lemma every_matching_node_is_parsed_witness :
  ∃ (self : Final.JSONParser (Row:=Record) (FE:=list string)) spec,
    Final.__init__ [Sample.InvoiceItem] = Ok self ∧
    Final.model_specs (Final.compiled self) !! 0 = Some ("InvoiceItem", spec) ∧
    ∃ idx data,
      ([("id", VStr "B"); ("sku", VStr "s2");
        ("transactions",
         VList [VDict [("tx_id", VStr "t3"); ("amount", VNum 7)]])],
       "root" +:+ Spec.render [Spec.SKey "invoice_items"; Spec.SIdx 1], idx)
        ∈ Trace.events_batch [Sample.invoice] (Final.indexed_cache self) ∧
      Final._parsing_build_model_data (FE:=list string) (Final.compiled self) idx
        ("root" +:+ Spec.render [Spec.SKey "invoice_items"; Spec.SIdx 1]) spec
        = Ok data ∧
      match Sample.validate (Final.data_model spec) data with
      | inr row =>
          ∃ rows,
            Final.results
              (Final.parse_batch Sample.validate self [Sample.invoice]).1
              !! "InvoiceItem" = Some rows ∧ row ∈ rows
      | inl e =>
          mkError
            ("root" +:+ Spec.render [Spec.SKey "invoice_items"; Spec.SIdx 1])
            "InvoiceItem" e
          ∈ Final.errors
              (Final.parse_batch Sample.validate self [Sample.invoice]).1
      end.
Proof.
  eexists. eexists. split; [vm_compute; reflexivity|].
  split; [vm_compute; reflexivity|].
  eapply (every_matching_node_is_parsed Sample.validate [Sample.InvoiceItem]
            _ _ [Sample.invoice] Sample.invoice
            [Spec.SKey "invoice_items"; Spec.SIdx 1]
            [("id", VStr "B"); ("sku", VStr "s2");
             ("transactions",
              VList [VDict [("tx_id", VStr "t3"); ("amount", VNum 7)]])]
            "InvoiceItem").
  - vm_compute. reflexivity.
  - reflexivity.
  - apply list_elem_of_here.
  - eapply Spec.at_key; [apply list_elem_of_lookup_2 with (i := 3); reflexivity|].
    eapply Spec.at_index; [reflexivity|]. constructor.
  - apply list_elem_of_here.
  - reflexivity.
Defined.

(** ** What [__init__] accepts *)

Section Accept.
Context {FE : Type}.

Lemma collect_fields_total (fs : list (string * FieldInfo))
    (acc : list (string * string * bool)) :
  Forall (λ f, is_Some (alias f.2)) fs →
  ∃ fields, Final.collect_fields (FE:=FE) fs acc = Ok fields ∧
            length fields = (length acc + length fs)%nat.
Proof.
  intros H. revert acc. induction H as [|[n fi] fs [a Ha] _ IH]; intros acc.
  - exists acc. split; [done|]. cbn [length]. lia.
  - cbn [Final.collect_fields]. cbn [snd] in Ha. rewrite Ha.
    destruct (IH (acc ++ [(n, a, Py.contains "[*]" a)])) as (fields & -> & Hl).
    exists fields. split; [done|]. rewrite Hl, length_app. cbn [length]. lia.
Qed.

Lemma compile_one_valid (c : Final.Compiled) (m : ModelCls) :
  model_fields m ≠ [] →
  Forall (λ f, is_Some (alias f.2)) (model_fields m) →
  ∃ c', Final.compile_one (FE:=FE) c m = Ok c' ∧
        (Final.model_specs c').*1 =
          if decide (cls_name m ∈ (Final.model_specs c).*1)
          then (Final.model_specs c).*1
          else (Final.model_specs c).*1 ++ [cls_name m].
Proof.
  intros Hne Hall.
  destruct (compile_one_cases (FE:=FE) c m) as [[c' Hc']|[msg Hraise]].
  - exists c'. split; [done|]. revert Hc'. unfold Final.compile_one.
    destruct (Final.collect_fields (model_fields m) []) as [fields|e]; [|done].
    rewrite bind_Ok.
    destruct (match map (λ f, f.1.2) (filter (λ f, f.2 = true) fields) with
              | [] => _ | _ :: _ => _ end) as [pattern|e]; [|done].
    rewrite bind_Ok. intros [= <-]. cbn [Final.model_specs].
    apply dict_set_keys.
  - exfalso. revert Hraise. unfold Final.compile_one.
    destruct (collect_fields_total (model_fields m) [] Hall)
      as (fields & -> & Hlen).
    rewrite bind_Ok.
    destruct (map (λ f, f.1.2) (filter (λ f, f.2 = true) fields))
      as [|w ws] eqn:Hw.
    + destruct (map (λ f, f.1.2) fields) as [|a aliases] eqn:Ha.
      * apply (f_equal length) in Ha. rewrite length_map, Hlen in Ha.
        destruct (model_fields m); [done|]. cbn [length] in Ha. lia.
      * destruct (common_path_pattern_spec (FE:=FE) (a :: aliases))
          as (common & _ & ->); [done|].
        by rewrite bind_Ok.
    + unfold Final._model_specs_find_deepest_wildcard_path.
      destruct (max_by_spec (Py.count ".") (map Final.alias_prefix (w :: ws)))
        as (p & _ & _ & -> & _); [done|].
      by rewrite bind_Ok.
Qed.

Lemma create_specs_valid (c : Final.Compiled) (data_models : list ModelCls) :
  (∀ m, m ∈ data_models →
        model_fields m ≠ [] ∧ Forall (λ f, is_Some (alias f.2)) (model_fields m)) →
  ∃ c', Final._model_specs_create_specs_and_adapters (FE:=FE) c data_models
        = Ok c' ∧
        ∀ name, name ∈ (Final.model_specs c').*1 ↔
                name ∈ (Final.model_specs c).*1 ∨ name ∈ cls_name <$> data_models.
Proof.
  revert c. induction data_models as [|m ms IH]; intros c Hvalid.
  - exists c. split; [done|]. intros name. rewrite fmap_nil, elem_of_nil. tauto.
  - cbn [Final._model_specs_create_specs_and_adapters].
    destruct (Hvalid m) as [Hne Hall]; [by apply elem_of_cons; left|].
    destruct (compile_one_valid c m Hne Hall) as (c1 & -> & Hnames).
    rewrite bind_Ok.
    destruct (IH c1) as (c' & -> & Hc').
    { intros m' Hm'. apply Hvalid. by apply elem_of_cons; right. }
    exists c'. split; [done|]. intros name. rewrite Hc', Hnames, fmap_cons.
    rewrite elem_of_cons. case_decide as Hin.
    + split; [intros [?|?]; auto|].
      intros [?|[->|?]]; auto.
    + rewrite elem_of_app, list_elem_of_singleton. tauto.
Qed.
End Accept.

(** X8.  [JSONParser.__init__] makes a parser exactly for the schema sets
    in which every schema has a field and every field an alias (for the
    others it raises, see C9); and the tables of the parser it makes are
    named by the classes it was given, each name once. *)
Theorem init_accepts_exactly_the_valid_schemas {Row FE : Type}
    (data_models : list ModelCls) :
  ((∃ self, Final.__init__ (Row:=Row) (FE:=FE) data_models = Ok self) ↔
   ∀ m, m ∈ data_models →
        model_fields m ≠ [] ∧ Forall (λ f, is_Some (alias f.2)) (model_fields m)) ∧
  ∀ self, Final.__init__ (Row:=Row) (FE:=FE) data_models = Ok self →
    NoDup (Final.model_specs (Final.compiled self)).*1 ∧
    ∀ name, name ∈ (Final.model_specs (Final.compiled self)).*1 ↔
            name ∈ cls_name <$> data_models.
Proof.
  split; [split|].
  - intros [self Hself] m Hm.
    assert (¬ (model_fields m = [] ∨
               ∃ f, f ∈ model_fields m ∧ alias f.2 = None)) as Hgood.
    { intros Hbad. revert Hself. unfold Final.__init__.
      destruct (create_specs_invalid (FE:=FE) (Final.mkCompiled [] ∅ ∅)
                  data_models) as [msg ->]; [by exists m|done]. }
    split; [tauto|]. apply Forall_forall. intros f Hf.
    destruct (alias f.2) eqn:Ha; [by eexists|].
    destruct Hgood. right. by exists f.
  - intros Hvalid. unfold Final.__init__.
    destruct (create_specs_valid (FE:=FE) (Final.mkCompiled [] ∅ ∅)
                data_models Hvalid) as (c & -> & _).
    rewrite bind_Ok. by eexists.
  - intros self Hself.
    destruct (init_compiled_ok _ _ Hself) as [[Hnd _] _]. split; [done|].
    assert (∀ m, m ∈ data_models →
              model_fields m ≠ [] ∧
              Forall (λ f, is_Some (alias f.2)) (model_fields m)) as Hvalid.
    { intros m Hm.
      assert (¬ (model_fields m = [] ∨
                 ∃ f, f ∈ model_fields m ∧ alias f.2 = None)) as Hgood.
      { intros Hbad. revert Hself. unfold Final.__init__.
        destruct (create_specs_invalid (FE:=FE) (Final.mkCompiled [] ∅ ∅)
                    data_models) as [msg ->]; [by exists m|done]. }
      split; [tauto|]. apply Forall_forall. intros f Hf.
      destruct (alias f.2) eqn:Ha; [by eexists|].
      destruct Hgood. right. by exists f. }
    revert Hself. unfold Final.__init__.
    destruct (create_specs_valid (FE:=FE) (Final.mkCompiled [] ∅ ∅)
                data_models Hvalid) as (c & -> & Hnames).
    rewrite bind_Ok. intros [= <-]. cbn [Final.compiled].
    intros name. rewrite Hnames. cbn [Final.model_specs].
    rewrite fmap_nil, elem_of_nil. tauto.
Qed.

Lemma init_accepts_exactly_the_valid_schemas_witness :
  ∃ self : Final.JSONParser (Row:=Record) (FE:=list string),
    Final.__init__ [Sample.Invoice; Sample.InvoiceItem] = Ok self ∧
    NoDup (Final.model_specs (Final.compiled self)).*1 ∧
    ∀ name, name ∈ (Final.model_specs (Final.compiled self)).*1 ↔
            name ∈ cls_name <$> [Sample.Invoice; Sample.InvoiceItem].
Proof.
  eexists. split; [vm_compute; reflexivity|].
  apply (proj2 (init_accepts_exactly_the_valid_schemas
                  (Row:=Record) (FE:=list string)
                  [Sample.Invoice; Sample.InvoiceItem])).
  vm_compute. reflexivity.
Defined.

(** ** The helpers of [spec_based.py] *)

Lemma split_segments_no_sep (sep : ascii) (s seg : string) :
  seg ∈ Py.split sep s → Py.contains (String sep "") seg = false.
Proof.
  revert seg. induction s as [|c s IH]; intros seg.
  - cbn [Py.split]. by intros ->%list_elem_of_singleton.
  - cbn [Py.split]. destruct (Ascii.eqb_spec c sep) as [->|Hne].
    + intros [->|Hin]%elem_of_cons; [done|by apply IH].
    + destruct (Py.split sep s) as [|x xs] eqn:E.
      { by destruct (split_nonempty sep s). }
      intros [->|Hin]%elem_of_cons.
      * apply contains_char_cons. split; [done|].
        apply IH. by apply elem_of_cons; left.
      * apply IH. by apply elem_of_cons; right.
Qed.

Lemma join_snoc (sep x : string) (l : list string) :
  l ≠ [] → Py.join sep (l ++ [x]) = Py.join sep l +:+ sep +:+ x.
Proof.
  induction l as [|y l IH]; [done|]. intros _.
  destruct l as [|z l]; [done|].
  change ((y :: z :: l) ++ [x]) with (y :: (z :: l) ++ [x]).
  rewrite (join_cons sep y ((z :: l) ++ [x])) by done.
  rewrite IH by done. rewrite (join_cons sep y (z :: l)) by done.
  by rewrite !app_assoc_s.
Qed.

(** X9.  [_get_parent_path] gives [None] exactly for a path without [.],
    and otherwise the path without its last segment: the path is the parent,
    a [.], and a last segment that has no [.] in it. *)
Theorem get_parent_path_spec (path : string) :
  (SpecBased._get_parent_path path = None ↔ Py.contains "." path = false) ∧
  ∀ parent, SpecBased._get_parent_path path = Some parent →
    ∃ last, path = parent +:+ "." +:+ last ∧ Py.contains "." last = false.
Proof.
  unfold SpecBased._get_parent_path. rewrite split_length.
  split.
  - rewrite <-count_zero. destruct (Py.count "." path); cbn [Nat.leb]; [done|].
    split; [done|lia].
  - intros parent. destruct (Nat.leb_spec (S (Py.count "." path)) 1); [done|].
    intros [= <-]. unfold Py.but_last.
    assert (Py.split "." path ≠ []) as Hne by apply split_nonempty.
    pose proof (app_removelast_last EmptyString Hne) as Hsplit.
    exists (List.last (Py.split "." path) EmptyString). split.
    + rewrite <-(join_split "." path) at 1. rewrite Hsplit at 1.
      apply join_snoc. intros Hnil.
      apply (f_equal length) in Hsplit.
      rewrite Hnil, split_length in Hsplit. cbn [app length] in Hsplit. lia.
    + apply (split_segments_no_sep "." path). rewrite Hsplit at 2.
      apply elem_of_app. right. by apply list_elem_of_singleton.
Qed.

Lemma get_parent_path_spec_witness :
  ∃ last, "root.invoice_items[*]" = "root" +:+ "." +:+ last ∧
          Py.contains "." last = false.
Proof.
  apply (proj2 (get_parent_path_spec "root.invoice_items[*]") "root").
  reflexivity.
Defined.

Lemma min_loop_by {T} (key : T → nat) (xs l1 l2 : list T) (b : T) :
  (∀ q, q ∈ l1 → (key b < key q)%nat) →
  (∀ q, q ∈ l2 → (key b ≤ key q)%nat) →
  ∃ l1' l2',
    l1 ++ b :: l2 ++ xs =
      l1' ++ foldl (λ best q, if Nat.ltb (key q) (key best) then q else best) b xs
          :: l2' ∧
    (∀ q, q ∈ l1' →
       (key (foldl (λ best q, if Nat.ltb (key q) (key best)
                              then q else best) b xs) < key q)%nat) ∧
    (∀ q, q ∈ l2' →
       (key (foldl (λ best q, if Nat.ltb (key q) (key best)
                              then q else best) b xs) ≤ key q)%nat).
Proof.
  revert l1 l2 b. induction xs as [|y xs IH]; intros l1 l2 b H1 H2.
  - exists l1, l2. by rewrite app_nil_r.
  - cbn [foldl]. destruct (Nat.ltb_spec (key y) (key b)) as [Hlt|Hge].
    + destruct (IH (l1 ++ b :: l2) [] y) as (l1' & l2' & E & H1' & H2').
      * intros q [Hq | [-> | Hq]%elem_of_cons]%elem_of_app;
          [specialize (H1 _ Hq)|..|specialize (H2 _ Hq)]; lia.
      * intros q Hq. by apply elem_of_nil in Hq.
      * exists l1', l2'. split; [|done]. rewrite <-E.
        by rewrite <-app_assoc.
    + destruct (IH l1 (l2 ++ [y]) b) as (l1' & l2' & E & H1' & H2').
      * done.
      * intros q [Hq | ->%list_elem_of_singleton]%elem_of_app; [by apply H2|lia].
      * exists l1', l2'. split; [|done]. rewrite <-E.
        by rewrite <-app_assoc.
Qed.

(** X10.  [_find_shallowest_path] gives ["root"] for no alias, and
    otherwise the prefix (the alias without its last segment) of one of the
    aliases that has the fewest [.], the first such in their order. *)
Theorem find_shallowest_path_spec (aliases : list string) :
  (aliases = [] → SpecBased._find_shallowest_path aliases = "root") ∧
  (aliases ≠ [] →
   ∃ l1 l2,
     map Final.alias_prefix aliases =
       l1 ++ SpecBased._find_shallowest_path aliases :: l2 ∧
     (∀ q, q ∈ l1 →
        (Py.count "." (SpecBased._find_shallowest_path aliases)
         < Py.count "." q)%nat) ∧
     (∀ q, q ∈ l2 →
        (Py.count "." (SpecBased._find_shallowest_path aliases)
         ≤ Py.count "." q)%nat)).
Proof.
  split; [by intros ->|]. intros Hne. unfold SpecBased._find_shallowest_path.
  destruct aliases as [|a aliases]; [done|]. cbn [map].
  destruct (min_loop_by (Py.count ".") (map Final.alias_prefix aliases) [] []
              (Final.alias_prefix a)) as (l1 & l2 & E & H1 & H2).
  - intros q Hq. by apply elem_of_nil in Hq.
  - intros q Hq. by apply elem_of_nil in Hq.
  - exists l1, l2. split; [exact E|done].
Qed.

Lemma find_shallowest_path_spec_witness :
  ∃ l1 l2,
    map Final.alias_prefix
      ["root.invoice_items[*].id"; "root.id"; "root.total"] =
      l1 ++ SpecBased._find_shallowest_path
              ["root.invoice_items[*].id"; "root.id"; "root.total"] :: l2 ∧
    (∀ q, q ∈ l1 →
       (Py.count "." (SpecBased._find_shallowest_path
                        ["root.invoice_items[*].id"; "root.id"; "root.total"])
        < Py.count "." q)%nat) ∧
    (∀ q, q ∈ l2 →
       (Py.count "." (SpecBased._find_shallowest_path
                        ["root.invoice_items[*].id"; "root.id"; "root.total"])
        ≤ Py.count "." q)%nat).
Proof.
  apply (proj2 (find_shallowest_path_spec
                  ["root.invoice_items[*].id"; "root.id"; "root.total"])).
  discriminate.
Defined.

Section InferTotal.
Context {FE : Type}.

(** [_find_common_path_pattern] of [spec_based.py] is the loop of
    [final_rendition.py] on the aliases as they are. *)
Lemma find_common_path_pattern_cases (aliases : list string) :
  (aliases = [] ∧
   SpecBased._find_common_path_pattern (FE:=FE) aliases = Ok "root") ∨
  ∃ common,
    Spec.deepest_common_prefix (map (Py.split ".") aliases) common ∧
    SpecBased._find_common_path_pattern (FE:=FE) aliases =
      Ok (match common with
          | [] => "root"
          | _ => Py.join "." common
          end).
Proof.
  destruct aliases as [|a aliases]; [by left|]. right.
  unfold SpecBased._find_common_path_pattern.
  set (paths := map (Py.split ".") (a :: aliases)).
  destruct (min_of_spec (map length paths)) as (m & -> & Hm & Hle); [done|].
  destruct paths as [|first rest] eqn:Hp; [done|].
  destruct (common_loop_spec (FE:=FE) first rest m 0 [])
    as (common & -> & Hcommon).
  - intros segs Hin. rewrite Nat.add_0_r. apply Hle.
    apply list_elem_of_In, in_map, list_elem_of_In, Hin.
  - apply list_elem_of_In, in_map_iff in Hm as (segs & Hl & Hin).
    exists segs. split; [by apply list_elem_of_In|lia].
  - done.
  - intros j Hj. lia.
  - exists common. by rewrite bind_Ok.
Qed.

Lemma deepest_loop_total (paths_by_depth : gmap nat (list string))
    (depths : list nat) :
  (∀ d, d ∈ depths → is_Some (paths_by_depth !! d)) →
  ∃ r, SpecBased.deepest_loop (FE:=FE) paths_by_depth depths = Ok r ∧ r ≠ "".
Proof.
  induction depths as [|d depths IH]; intros Hd.
  - by exists "root".
  - cbn [SpecBased.deepest_loop].
    destruct (Hd d) as [paths ->]; [by apply elem_of_cons; left|].
    assert (∃ common, SpecBased._find_common_path_pattern (FE:=FE) paths
                      = Ok common) as [common ->].
    { destruct (find_common_path_pattern_cases paths)
        as [[_ ->]|(c & _ & ->)]; by eexists. }
    rewrite bind_Ok.
    destruct (SpecBased.truthy common && negb (String.eqb common "root")) eqn:E.
    + exists common. split; [done|]. intros ->. done.
    + apply IH. intros d' Hd'. apply Hd. by apply elem_of_cons; right.
Qed.

Lemma find_deepest_common_path_total (aliases : list string) :
  ∃ r, SpecBased._find_deepest_common_path (FE:=FE) aliases = Ok r ∧ r ≠ "".
Proof.
  unfold SpecBased._find_deepest_common_path.
  destruct aliases as [|a aliases]; [by exists "root"|].
  apply deepest_loop_total. intros d Hd.
  rewrite elem_of_reverse, merge_sort_Permutation, elem_of_elements in Hd.
  by apply elem_of_dom.
Qed.

Lemma extra_primary_key_cases (field_info : FieldInfo) :
  (∃ b, SpecBased.extra_primary_key (FE:=FE) field_info = Ok b) ∨
  (SpecBased.extra_primary_key (FE:=FE) field_info
     = Raise (AttributeError "get") ∧
   json_schema_extra field_info = ExtraCallable).
Proof.
  unfold SpecBased.extra_primary_key.
  destruct (json_schema_extra field_info) as [|[|kv d]|];
    [left; by eexists..|by right].
Qed.

Lemma scan_field_cases (sc : SpecBased.Scan) (f : string * FieldInfo) :
  (∃ sc', SpecBased.scan_field (FE:=FE) sc f = Ok sc') ∨
  (SpecBased.scan_field (FE:=FE) sc f = Raise (AttributeError "get") ∧
   json_schema_extra f.2 = ExtraCallable).
Proof.
  destruct f as [field_name field_info]. unfold SpecBased.scan_field.
  destruct (alias field_info) as [a|]; [|left; by eexists].
  destruct (SpecBased.truthy a && negb (String.eqb a field_name));
    [|left; by eexists].
  destruct (String.eqb field_name "id"); [left; by eexists|].
  destruct (SpecBased.endswith "_id" field_name); [|left; by eexists].
  destruct (extra_primary_key_cases field_info) as [[b ->]|[-> Hc]].
  - left. by eexists.
  - by right.
Qed.

Lemma scan_fields_cases (sc : SpecBased.Scan) (fs : list (string * FieldInfo)) :
  (∃ sc', SpecBased.scan_fields (FE:=FE) sc fs = Ok sc') ∨
  (SpecBased.scan_fields (FE:=FE) sc fs = Raise (AttributeError "get") ∧
   ∃ f, f ∈ fs ∧ json_schema_extra f.2 = ExtraCallable).
Proof.
  revert sc. induction fs as [|f fs IH]; intros sc.
  - left. by eexists.
  - cbn [SpecBased.scan_fields].
    destruct (scan_field_cases sc f) as [[sc1 ->]|[-> Hc]].
    + rewrite bind_Ok. destruct (IH sc1) as [?|[-> (g & Hg & Hc)]]; [by left|].
      right. split; [done|]. exists g. split; [by apply elem_of_cons; right|done].
    + right. split; [done|]. exists f. split; [by apply elem_of_cons; left|done].
Qed.

Lemma infer_one_cases (model_cls : ModelCls) :
  (∃ spec, SpecBased.infer_one (FE:=FE) model_cls = Ok spec ∧
           SpecBased.model_cls spec = model_cls) ∨
  (SpecBased.infer_one (FE:=FE) model_cls = Raise (AttributeError "get") ∧
   ∃ f, f ∈ model_fields model_cls ∧ json_schema_extra f.2 = ExtraCallable).
Proof.
  unfold SpecBased.infer_one.
  destruct (scan_fields_cases (SpecBased.mkScan None [] [])
              (model_fields model_cls)) as [[sc ->]|[-> Hc]]; [|by right].
  rewrite bind_Ok. left.
  assert (∃ p,
            match SpecBased.pk_alias sc with
            | Some pk =>
                if SpecBased.truthy pk
                then Ok (if Nat.ltb 1 (length (Py.split "." pk))
                         then Py.join "." (Py.but_last (Py.split "." pk))
                         else "root")
                else match SpecBased.all_aliases sc with
                     | [] => Ok "root"
                     | _ :: _ =>
                         SpecBased._find_deepest_common_path (FE:=FE)
                           (SpecBased.all_aliases sc)
                     end
            | None =>
                match SpecBased.all_aliases sc with
                | [] => Ok "root"
                | _ :: _ =>
                    SpecBased._find_deepest_common_path (FE:=FE)
                      (SpecBased.all_aliases sc)
                end
            end = Ok p) as [p ->].
  { destruct (find_deepest_common_path_total (SpecBased.all_aliases sc))
      as (r & Hr & _).
    destruct (SpecBased.pk_alias sc) as [pk|];
      [destruct (SpecBased.truthy pk); [by eexists|]|];
      destruct (SpecBased.all_aliases sc); by eexists. }
  rewrite bind_Ok. by eexists.
Qed.
End InferTotal.

(** X11.  The one exception [infer_model_specs] can raise is the
    [AttributeError] of [json_schema_extra.get] on a field whose
    [json_schema_extra] is a callable.  When no field of the models has
    such an extra it raises nothing: it gives one spec for each table, in the
    order of the tables, each for the class of its table.  (The lookups in
    [paths_by_depth], the [min] and the indexing of segments inside
    [_find_deepest_common_path] and [_find_common_path_pattern] cannot
    fail.) *)
Theorem infer_model_specs_raises_only_on_callable_extra {FE : Type}
    (table_models : list (string * ModelCls)) :
  ((∀ name model_cls f,
      (name, model_cls) ∈ table_models → f ∈ model_fields model_cls →
      json_schema_extra f.2 ≠ ExtraCallable) →
   ∃ specs, SpecBased.infer_model_specs (FE:=FE) table_models = Ok specs ∧
            SpecBased.model_cls <$> specs = table_models.*2) ∧
  (∀ e, SpecBased.infer_model_specs (FE:=FE) table_models = Raise e →
        e = AttributeError "get" ∧
        ∃ name model_cls f,
          (name, model_cls) ∈ table_models ∧ f ∈ model_fields model_cls ∧
          json_schema_extra f.2 = ExtraCallable).
Proof.
  induction table_models as [|[name model_cls] tm [IH1 IH2]].
  - split; [by exists []|done].
  - cbn [SpecBased.infer_model_specs].
    destruct (infer_one_cases (FE:=FE) model_cls)
      as [(spec & -> & Hcls)|[-> (f & Hf & Hc)]].
    + rewrite bind_Ok. split.
      * intros Hno. destruct IH1 as (specs & -> & Hspecs).
        { intros n m g Hin Hg. apply (Hno n m g); [|done].
          by apply elem_of_cons; right. }
        rewrite bind_Ok. exists (spec :: specs). split; [done|].
        rewrite !fmap_cons. cbn [snd]. by rewrite Hcls, Hspecs.
      * intros e He.
        destruct (SpecBased.infer_model_specs tm) as [specs|e'] eqn:Htm;
          [by rewrite bind_Ok in He|].
        injection He as <-. destruct (IH2 e' eq_refl) as (-> & n & m & g & Hin & Hg & Hc).
        split; [done|]. exists n, m, g.
        split; [by apply elem_of_cons; right|done].
    + split.
      * intros Hno. destruct (Hno name model_cls f); [|done..].
        by apply elem_of_cons; left.
      * intros e [= <-]. split; [done|]. exists name, model_cls, f.
        split; [by apply elem_of_cons; left|done].
Qed.

Lemma infer_model_specs_raises_only_on_callable_extra_witness :
  ∃ specs, SpecBased.infer_model_specs (FE:=unit)
             [("Invoice", Sample.Invoice); ("InvoiceItem", Sample.InvoiceItem)]
           = Ok specs ∧
           SpecBased.model_cls <$> specs =
             [("Invoice", Sample.Invoice); ("InvoiceItem", Sample.InvoiceItem)].*2.
Proof.
  apply (proj1 (infer_model_specs_raises_only_on_callable_extra (FE:=unit)
                  [("Invoice", Sample.Invoice);
                   ("InvoiceItem", Sample.InvoiceItem)])).
  intros name model_cls f Hin Hf.
  apply elem_of_cons in Hin as [Hin|Hin];
    [|apply elem_of_cons in Hin as [Hin|Hin]; [|by apply elem_of_nil in Hin]];
    injection Hin as -> ->;
    repeat (apply elem_of_cons in Hf as [->|Hf]; [discriminate|]);
    by apply elem_of_nil in Hf.
Defined.

(** X12.  [_find_common_path_pattern] gives ["root"] for no path, and
    otherwise the deepest common prefix of the paths joined with [.]:
    segments of the first path, as long as at that position every path has a
    segment with the same base name, and ["root"] when not even the first
    segments agree. *)
Theorem find_common_path_pattern_spec {FE : Type} (aliases : list string) :
  (aliases = [] →
   SpecBased._find_common_path_pattern (FE:=FE) aliases = Ok "root") ∧
  (aliases ≠ [] →
   ∃ common,
     Spec.deepest_common_prefix (map (Py.split ".") aliases) common ∧
     SpecBased._find_common_path_pattern (FE:=FE) aliases =
       Ok (match common with
           | [] => "root"
           | _ => Py.join "." common
           end)).
Proof.
  split; [by intros ->|]. intros Hne.
  by destruct (find_common_path_pattern_cases (FE:=FE) aliases) as [[? _]|?].
Qed.

Lemma find_common_path_pattern_spec_witness :
  ∃ common,
    Spec.deepest_common_prefix
      (map (Py.split ".") ["root.items[0].a"; "root.items[1].b"]) common ∧
    SpecBased._find_common_path_pattern (FE:=unit)
      ["root.items[0].a"; "root.items[1].b"] =
      Ok (match common with
          | [] => "root"
          | _ => Py.join "." common
          end).
Proof.
  apply (proj2 (find_common_path_pattern_spec (FE:=unit)
                  ["root.items[0].a"; "root.items[1].b"])).
  discriminate.
Defined.
